(* ===== verification/_CoqProject ===== *)
-Q . S2P
Prelude.v
Range.v
FreeList.v
SlotMap.v
Gpu.v
Simple.v
SimpleProps.v
SimpleRuns.v
SimpleInv.v
SimpleKeys.v
SimpleCompact.v
SimpleSort.v
SimpleTiled.v
AutoDrop.v
AutoDropRuns.v
AutoDropSimple.v
