(* ===== verification/Prelude.v ===== *)
(** * A verification development of [wgpu_memory]

    [wgpu_memory] keeps a CPU-side mirror ([Vec<u8>]) of one GPU buffer and
    hands out sub-ranges of it like a heap allocator.  The repository has
    two implementations of its [GpuMemory] trait ([src/src/lib.rs]):

    - [SimpleGpuMemory] ([src/src/simple.rs]) is the free-list allocator.
      Its state is a byte vector [data], a list [available_ranges] of free
      byte ranges, a [slotmap::SlotMap] [used_ranges] from keys to live
      ranges, a counter [allocated_count] and a dirty flag [mutated].
      [allocate] carves the tail of the last free range that is large
      enough, or grows [data].  [free] and a shrinking [resize] hand ranges
      back through [make_range_available].  [upload] compacts the buffer with
      [fix_sequence] and pushes it to the GPU.  [optimize] compacts
      ([Truncate]) or reorders the live ranges by size ([sort]).
    - [AutoDropping<T, M>] ([src/src/auto_drop.rs]) wraps any [M : GpuMemory]
      in an [Arc<RwLock<M>>].  Its handles carry a [Weak] back-reference and
      an [Arc<()>] token.  The [Drop] of a handle frees the inner allocation
      when its token's strong count is 1.

    ** Files, in dependency order (the order of [_CoqProject])

    - [Prelude] (this file) holds what every component shares.  [Res] is
      the result of a Rust computation that may panic, with its bind
      notation in [res_scope].  The file also has debug-build checked
      [usize] arithmetic ([usize_add], [usize_sub], [usize_mul],
      [usize_div]) and the [Vec] primitives the code calls ([vec_remove],
      [vec_insert], [vec_drain], [slice_range], [position],
      [rposition_find]), with their lemmas.  It also has the closure
      [star] of a step relation and the labelled runs [trace], the hint
      database [wgpu], and the tactics
      [concrete] and [exists_run] that evaluate closed runs.
    - [Range] models [AddressRange = Range<usize>]: [len] is the saturating
      [end - start] of [ExactSizeIterator::len], and [hull] is the merge of
      two ranges in [merge_available_ranges].  The predicates [in_range]
      and [overlap] state disjointness and coverage.
    - [FreeList] models [merge_available_ranges] and [make_range_available]
      ([simple.rs] lines 28-51).  It also defines [covered] (the bytes the
      free list marks free) and [separated] (sorted, with a gap between
      entries), as the spec requires of the free list.
    - [SlotMap] models the [slotmap] crate's [SlotMap<DefaultKey, V>]: the
      slot vector with [u32] versions, the LIFO free list, [insert],
      [remove], [get], indexing, [values_mut] and [iter].  This is library
      code, so it is modelled from the crate's documented behaviour
      (spec-modelled in the manifest).  Its invariant [wf] holds of [new]
      and is kept by every operation.
    - [Gpu] models the external collaborators: the [wgpu::Buffer]
      contents, the log of queue and device calls, the padding of
      [create_buffer_init], [upload_or_resize] from [lib.rs], and the
      [GpuMemory] trait as a [Class] with its provided methods.  Its
      step relation [gm_step] is the contract of the trait for a client:
      calls of the methods on indices the client holds, clones and drops
      of indices.
    - [Simple] models [SimpleGpuMemory] and every one of its trait methods
      as functions of the state, plus the caller's write through the slice
      [get] returns ([write_elem]).  Its [Instance] implements the class.
      [Strategy] comes with its [Default] and its [Display] text.
    - [SimpleProps] proves the behaviour of each method on every branch.
    - [SimpleRuns] runs client programs (a list of API calls) on the
      model: the models of the two tests of [tests/simple_gpu_memory.rs]
      and the counterexamples.
    - [SimpleInv] proves the size invariant of the spec: every method keeps
      [allocated_count] equal to the sum of [len_of] over the live handles,
      so every client run of [SimpleRuns] does.
    - [SimpleCompact] proves [fix_sequence] and [optimize Truncate]
      correct on a state of the shape the spec requires ([compactable]):
      every live view is kept, in its relative order, and the new [data]
      equals a reference compaction ([compact_ref]: the bytes at the
      positions no free range covers, in order).  When the free and
      live ranges tile [data] ([tiled]), the compaction leaves only live
      bytes, tightly packed, and [allocate] keeps the tiling.
    - [SimpleSort] proves the layout [sort] produces: the live ranges
      copied one after the other, in an order sorted by length.
    - [SimpleTiled] follows the tiling along whole client runs: every
      call other than [free] and [resize] keeps it, [sort] and [upload]
      included, so a client that never frees keeps its handles isolated.
    - [SimpleKeys] runs [2^31] free/allocate cycles on one slot, by
      induction on the number of cycles: the [u32] slot version wraps and
      a freed key names a live allocation again.
    - [AutoDrop] models [AutoDropping] generically over any [GpuMemory]
      instance.  A [World] holds the store, whether the [AutoDropping] is
      still alive (what [Weak::upgrade] tests), and the strong count of
      every [Arc<()>] token.  [ad_step] is the step relation of a client
      that calls methods, clones and drops handles, and drops the
      [AutoDropping].  Its reachable states are proved by rule induction.
    - [AutoDropRuns] instantiates [AutoDrop] with [SimpleGpuMemory]: the
      three tests of [tests/auto_dropping_gpu_memory.rs], the clone
      counterexample, and the witnesses of the [AutoDrop] theorems.
    - [AutoDropSimple] proves that [AutoDropping<SimpleGpuMemory>] does not
      leak: every live key of the store is the inner index of a held
      handle, so dropping every handle frees everything.

    ** What the theorems show

    + Functional behaviour of the free-list allocator on every branch
      ([SimpleProps]).  [allocate] is last fit and splits from the tail,
      uses an exact fit whole, or grows [data].  [free] of a live key
      returns its range and lowers the count; on a stale key it only sets
      [mutated].  [resize]: equal is a no-op, shrink keeps the suffix of the
      view, and grow reallocates and discards the contents.  [get],
      [len_of] and [resize] panic on stale keys.  [allocate] panics only
      on its three overflows, each with its cause.  [free] keeps the view
      of every other key.  [upload] is gated by [mutated], and a mutated
      upload writes [data] and compacts the free list away.
    + The free-list insertion ([FreeList]).  It never loses free space, it
      is exact when the freed range touches the first free range, and its
      loop terminates within the fuel.  But its search predicate
      [other.start <= range.end] merges across live data and leaves the
      list unsorted.  Runs of the whole allocator then show that two live
      handles alias, and that [fix_sequence] drops live bytes
      ([SimpleRuns]).
    + The size invariant ([SimpleInv]): after any run of calls,
      [allocated_count] is the sum of [len_of] over the live handles and
      every live range is a whole number of elements.  It holds even on
      the runs where the free list corrupts the bytes.
    + Compaction ([SimpleCompact]).  When the free list is sorted and
      coalesced and no live range overlaps a free one, [optimize
      Truncate] removes exactly the free bytes and every live key keeps
      its bytes, in the same relative order: the reverse drain of
      [fix_sequence], with its shifts of the live ranges, computes the
      same [data] as the reference [compact_ref], which keeps the bytes
      of [data] at the positions no free range covers
      ([fix_sequence_compacts], by induction on the drained list with the
      reference rewritten one range at a time).  When the free and live
      ranges tile [data], [data] is left holding only live bytes, tightly
      packed, as the spec promises; [allocate] keeps that tiling in each of
      its three branches, and every other call but [free] and [resize]
      keeps it too: in every run that never frees, no two live handles
      share a byte and every byte of [data] is free or live
      ([SimpleTiled]).  So the loss of live bytes comes from the free list
      that [make_range_available] builds, not from [fix_sequence],
      [allocate] or [sort].
    + [sort] ([SimpleSort]) is a stable insertion sort by the code's key,
      and lays the live ranges out contiguously from offset 0 in an order
      sorted by length, each with its old bytes.  But it does not set
      [mutated], so the device buffer goes stale.
    + [AutoDropping] ([AutoDrop]).  In every reachable state every token
      has strong count 1, so every drop of a held handle frees it, clones
      included: dropping a clone frees the allocation the original still
      names.  An explicit [free] also frees, although the spec says it
      does nothing.  Once the [AutoDropping] is dropped, the store never
      changes again.
    + The handles.  A freed [AddressId] stays stale for fewer than [2^31]
      reuses of its slot and names the live allocation again after exactly
      [2^31] ([SimpleKeys]), against the spec's handle isolation.  A write
      through the view is read back by the next [get] with the rest of the
      view unchanged, and [free] keeps every other key's view
      ([SimpleProps]).
    + [AutoDropping] refines its inner allocator call by call: read on
      the inner store and the inner indices, every run with actions [ls]
      is a run of a client [gm_step] allows whose calls are the same calls
      with the same arguments and the handles' inner indices, a drop being
      an inner [free] or a forget of that index ([AutoDrop]).  With [SimpleGpuMemory] inside it does not
      leak: dropping every held handle always succeeds and leaves
      [size() == 0] ([AutoDropSimple]).
    + [upload_or_resize] leaves a buffer at least as long as [data] that
      holds it, and grows it to [data.len()] rounded up to 4 ([Gpu]).

    ** Bounds and fuel

    [usize] is 64 bits.  Every [+], [-] and [*] the code does on [usize] is
    checked and panics on overflow, as in the debug build that runs the
    repository's tests; a release build would wrap.  [Vec] growth panics
    past [isize::MAX] bytes ("capacity overflow").  Slot versions are
    [u32] and wrap; [SimpleKeys] counts the [2^31] cycles in [N] and
    proves the wrap by induction, never by evaluation.  The one loop whose recursion is not structural
    ([merge_available_ranges]) runs on fuel equal to the length of the free
    list, and [FreeList] proves that this fuel always suffices: the loop
    exits on its own guard.  The other loops ([fix_sequence], [sort], the
    tests' [for] loops) recurse structurally on a list or a count.

    ** Not modelled, and not yet proved

    Logging ([log::trace!], [log::warn!] and [humansize]), [Vec] capacity
    ([shrink_to_fit] only changes capacity), and the bytes of [T] beyond their size
    [size_of::<T>()] ([bytemuck] casts are the identity on bytes) are left
    out.  So is wgpu's validation of copy alignment, and the alignment
    test of [bytemuck::cast_slice_mut] in [get]: the model has no
    addresses, so it cannot tell that [data.as_ptr() + range.start] is
    aligned to [align_of::<T>()], and a [get] that panics on a misaligned
    pointer in Rust (a zero-length range of a [data] that never allocated
    has the dangling pointer [0x1]) returns [Ok] in the model.  No theorem
    claims that [get] avoids that panic.  [RwLock] is modelled
    by making every operation of [AutoDropping] one atomic step: the lock
    serialises them, so a concurrent run is one of the sequences of
    [ad_step].  The views [get] and [buffer] return outlive the lock guard
    through [unsafe]; the model returns their contents at the time of the
    call and does not model their later aliasing.  The packing of a
    compaction is proved for tiled states, which every run without [free]
    and [resize] reaches.  It does not hold for every reachable state,
    because [free] breaks the tiling through [make_range_available] (the
    [FreeList] and [SimpleRuns] counterexamples). *)

From stdpp Require Export base list.
From Stdlib Require Export NArith ZArith Strings.Byte Lia.

(** ** Rust computations that may panic *)

(** The panics the modelled code can raise, by cause. *)
Inductive panic_reason :=
  | InvalidKey          (** [SlotMap] indexed with a key that is not live *)
  | SliceOutOfBounds    (** [data[a..b]] or [drain(a..b)] out of range *)
  | ArithOverflow       (** debug-build [usize] overflow *)
  | DivByZero           (** [x / size_of::<T>()] with a zero-sized [T] *)
  | CapacityOverflow    (** [Vec] growth beyond [isize::MAX] bytes *)
  | SlotMapOverflow     (** [SlotMap] element count reaching [u32::MAX] *)
  | CastSlice           (** [bytemuck::cast_slice_mut] on a length that is
                            not a multiple of a non-zero [size_of::<T>()] *)
  | IndexOutOfBounds    (** [view[i]] with [i >= view.len()] *)
  | AssertionFailed.    (** a failed [assert_eq!] of a test *)

#[export] Instance panic_reason_eq_dec : EqDecision panic_reason.
Proof. solve_decision. Defined.

(** [Res A]: the result of a computation that returns an [A] or panics. *)
Inductive Res (A : Type) :=
  | Ok (a : A)
  | Panicked (p : panic_reason).
Arguments Ok {A} a.
Arguments Panicked {A} p.

Definition res_bind {A B} (c : Res A) (k : A -> Res B) : Res B :=
  match c with
  | Ok a => k a
  | Panicked p => Panicked p
  end.

(** [guard b p]: continue when [b] holds, panic with [p] otherwise. *)
Definition guard (b : bool) (p : panic_reason) : Res unit :=
  if b then Ok tt else Panicked p.

Declare Scope res_scope.
Delimit Scope res_scope with res.
Notation "x <- c ;; k" := (res_bind c (fun x => k))
  (at level 60, c at next level, right associativity) : res_scope.
Notation "c ;;; k" := (res_bind c (fun _ => k))
  (at level 60, right associativity) : res_scope.
Open Scope res_scope.

(** [assert_eq!(a, b)] on [usize] values. *)
Definition assert_eq (a b : nat) : Res unit := guard (a =? b) AssertionFailed.

(** ** Debug-build [usize] arithmetic *)

Definition usize_limit : N := (2 ^ 64)%N.
Definition isize_max : N := (2 ^ 63 - 1)%N.

(** [fits_usize n]: [n] is a value of [usize]. *)
Definition fits_usize (n : nat) : bool := (N.of_nat n <? usize_limit)%N.

Definition usize_add (a b : nat) : Res nat :=
  if fits_usize (a + b) then Ok (a + b) else Panicked ArithOverflow.

Definition usize_sub (a b : nat) : Res nat :=
  if b <=? a then Ok (a - b) else Panicked ArithOverflow.

Definition usize_mul (a b : nat) : Res nat :=
  if fits_usize (a * b) then Ok (a * b) else Panicked ArithOverflow.

Definition usize_div (a b : nat) : Res nat :=
  if b =? 0 then Panicked DivByZero else Ok (a / b).

(** ** The [Vec] primitives the code calls *)

Section VecOps.
Context {A : Type}.

(** [Vec::remove(i)] without its return value; the callers read the
    element first and only call it with [i < len]. *)
Definition vec_remove (i : nat) (l : list A) : list A := take i l ++ drop (S i) l.

(** [Vec::insert(i, x)]; the callers only call it with [i <= len]. *)
Definition vec_insert (i : nat) (x : A) (l : list A) : list A := take i l ++ x :: drop i l.

(** [Vec::drain(a..b)] with its bounds checks. *)
Definition vec_drain (a b : nat) (l : list A) : Res (list A) :=
  guard ((a <=? b) && (b <=? length l)) SliceOutOfBounds ;;;
  Ok (take a l ++ drop b l).

(** [&v[a..b]] with its bounds checks. *)
Definition slice_range (a b : nat) (l : list A) : Res (list A) :=
  guard ((a <=? b) && (b <=? length l)) SliceOutOfBounds ;;;
  Ok (take (b - a) (drop a l)).

(** [Iterator::position]: the first index whose element satisfies [f]. *)
Fixpoint position (f : A -> bool) (l : list A) : option nat :=
  match l with
  | [] => None
  | x :: l' => if f x then Some 0 else S <$> position f l'
  end.

(** [.iter().enumerate().rev().find_map(|(i, x)| f x .then_some(i))]:
    the last index whose element satisfies [f]. *)
Fixpoint rposition_find (f : A -> bool) (l : list A) : option nat :=
  match l with
  | [] => None
  | x :: l' =>
      match rposition_find f l' with
      | Some i => Some (S i)
      | None => if f x then Some 0 else None
      end
  end.
(** The elements of [l] whose positions, counted from [n], satisfy [P]. *)
Fixpoint select_from (P : nat -> bool) (n : nat) (l : list A) : list A :=
  match l with
  | [] => []
  | x :: l' => (if P n then [x] else []) ++ select_from P (S n) l'
  end.
End VecOps.

(** ** Runs of a step relation *)

Section Star.
Context {S : Type} (R : S -> S -> Prop).

(** Zero or more steps. *)
Inductive star : S -> S -> Prop :=
  | star_refl x : star x x
  | star_step x y z : R x y -> star y z -> star x z.
End Star.

Section Trace.
Context {S L : Type} (R : L -> S -> S -> Prop).

(** Zero or more steps of a labelled relation, with their labels in order. *)
Inductive trace : list L -> S -> S -> Prop :=
  | trace_nil x : trace [] x x
  | trace_cons l ls x y z : R l x y -> trace ls y z -> trace (l :: ls) x z.
End Trace.

(** ** Bytes *)

#[export] Instance byte_eq_decision : EqDecision byte := byte_eq_dec.

(** * Lemmas *)

Lemma fits_usize_spec n : fits_usize n = true <-> (N.of_nat n < usize_limit)%N.
Proof. unfold fits_usize. apply N.ltb_lt. Qed.

Lemma usize_add_ok a b : (N.of_nat (a + b) < usize_limit)%N -> usize_add a b = Ok (a + b).
Proof. intros H. unfold usize_add. apply fits_usize_spec in H. by rewrite H. Qed.

Lemma usize_sub_ok a b : b <= a -> usize_sub a b = Ok (a - b).
Proof. intros H. unfold usize_sub. apply Nat.leb_le in H. by rewrite H. Qed.

Lemma usize_mul_ok a b : (N.of_nat (a * b) < usize_limit)%N -> usize_mul a b = Ok (a * b).
Proof. intros H. unfold usize_mul. apply fits_usize_spec in H. by rewrite H. Qed.

Lemma usize_div_ok a b : b <> 0 -> usize_div a b = Ok (a / b).
Proof. intros H. unfold usize_div. apply Nat.eqb_neq in H. by rewrite H. Qed.

Lemma usize_add_inv a b c : usize_add a b = Ok c -> c = a + b /\ (N.of_nat c < usize_limit)%N.
Proof.
  unfold usize_add. destruct (fits_usize (a + b)) eqn:E; intros H; simplify_eq.
  split; [done|]. by apply fits_usize_spec.
Qed.

Lemma usize_sub_inv a b c : usize_sub a b = Ok c -> c = a - b /\ b <= a.
Proof.
  unfold usize_sub. destruct (b <=? a) eqn:E; intros H; simplify_eq.
  split; [done|]. by apply Nat.leb_le.
Qed.

Lemma usize_mul_inv a b c : usize_mul a b = Ok c -> c = a * b /\ (N.of_nat c < usize_limit)%N.
Proof.
  unfold usize_mul. destruct (fits_usize (a * b)) eqn:E; intros H; simplify_eq.
  split; [done|]. by apply fits_usize_spec.
Qed.

Lemma usize_div_inv a b c : usize_div a b = Ok c -> c = a / b /\ b <> 0.
Proof.
  unfold usize_div. destruct (b =? 0) eqn:E; intros H; simplify_eq.
  split; [done|]. by apply Nat.eqb_neq.
Qed.

(** ** Lemmas on the [Vec] primitives *)

Section VecLemmas.
Context {A : Type}.
Implicit Types (l : list A) (x y : A) (f : A -> bool).

Lemma length_vec_remove i l : i < length l -> length (vec_remove i l) = pred (length l).
Proof. intros H. unfold vec_remove. rewrite length_app, length_take, length_drop. lia. Qed.

Lemma vec_drain_ok a b l :
  a <= b -> b <= length l -> vec_drain a b l = Ok (take a l ++ drop b l).
Proof.
  intros Hab Hb. unfold vec_drain.
  apply Nat.leb_le in Hab, Hb. by rewrite Hab, Hb.
Qed.

Lemma slice_range_ok a b l :
  a <= b -> b <= length l -> slice_range a b l = Ok (take (b - a) (drop a l)).
Proof.
  intros Hab Hb. unfold slice_range.
  apply Nat.leb_le in Hab, Hb. by rewrite Hab, Hb.
Qed.

Lemma position_spec f l i :
  position f l = Some i ->
  exists x, l !! i = Some x /\ f x = true /\
    forall j y, j < i -> l !! j = Some y -> f y = false.
Proof.
  revert i. induction l as [|x l IH]; intros i H; simpl in H; [done|].
  destruct (f x) eqn:Hf.
  - injection H as <-. exists x. split_and!; [done..|]. intros j y Hj. lia.
  - destruct (position f l) as [i'|] eqn:Hp; simpl in H; [|done].
    injection H as <-. destruct (IH i' eq_refl) as (y & Hy & Hfy & Hbefore).
    exists y. split_and!; [done..|].
    intros [|j] z Hj Hz; simpl in Hz; [congruence|]. apply (Hbefore j z); [lia|done].
Qed.

Lemma position_all_false f l : (forall x, In x l -> f x = false) -> position f l = None.
Proof.
  induction l as [|y l IH]; intros H; simpl; [done|].
  rewrite H by (left; done). rewrite IH; [done|]. intros x Hx. apply H. by right.
Qed.

(** The search finds nothing only when no element satisfies [f]. *)
Lemma rposition_find_None f l :
  rposition_find f l = None -> forall j y, l !! j = Some y -> f y = false.
Proof.
  induction l as [|y l IH]; intros Hr k w Hk; [done|].
  simpl in Hr. destruct (rposition_find f l); [done|].
  destruct (f y) eqn:Hfy; [done|].
  destruct k; simpl in Hk; [congruence|]. eauto.
Qed.

Lemma rposition_find_spec f l i :
  rposition_find f l = Some i ->
  exists x, l !! i = Some x /\ f x = true /\
    forall j y, i < j -> l !! j = Some y -> f y = false.
Proof.
  revert i. induction l as [|x l IH]; intros i H; simpl in H; [done|].
  destruct (rposition_find f l) as [i'|] eqn:Hr.
  - injection H as <-. destruct (IH i' eq_refl) as (y & Hy & Hfy & Hafter).
    exists y. split_and!; [done..|].
    intros [|j] z Hj Hz; simpl in Hz; [lia|]. apply (Hafter j z); [lia|done].
  - destruct (f x) eqn:Hf; [|done]. injection H as <-.
    exists x. split_and!; [done..|].
    intros [|j] z Hj Hz; [lia|]. simpl in Hz. by apply (rposition_find_None f l Hr j).
Qed.

Lemma rposition_find_all_false f l :
  (forall j y, l !! j = Some y -> f y = false) -> rposition_find f l = None.
Proof.
  induction l as [|x l IH]; intros H; simpl; [done|].
  rewrite IH by (intros j y Hj; by apply (H (S j))).
  by rewrite (H 0 x eq_refl).
Qed.

(** The last index whose element satisfies [f] is what the search finds. *)
Lemma rposition_find_last f l i x :
  l !! i = Some x -> f x = true ->
  (forall j y, i < j -> l !! j = Some y -> f y = false) ->
  rposition_find f l = Some i.
Proof.
  revert i. induction l as [|x0 l IH]; intros i Hi Hf Hafter; [done|].
  destruct i as [|i]; simpl in *.
  - injection Hi as ->. rewrite rposition_find_all_false, Hf; [done|].
    intros j y Hj. apply (Hafter (S j)); [lia|done].
  - rewrite (IH i); [done|done|done|]. intros j y Hj Hy. apply (Hafter (S j)); [lia|done].
Qed.

(** An element left by [vec_remove i] sat at another index. *)
Lemma lookup_vec_remove_Some i l j x :
  vec_remove i l !! j = Some x -> exists j', j' <> i /\ l !! j' = Some x.
Proof.
  unfold vec_remove. rewrite lookup_app_Some, lookup_take_Some, lookup_drop, length_take.
  intros [[Hj Hlt]|[Hle Hj]]; [exists j; split; [lia|done]|].
  eexists. split; [|exact Hj]. destruct (Nat.min_spec i (length l)) as [[? ->]|[? Hm]]; [lia|].
  rewrite Hm in Hle. apply lookup_lt_Some in Hj. lia.
Qed.

(** Overwriting [length v] elements at offset [a + o] of [l], inside the
    window [a .. a + n], overwrites the window at offset [o]. *)
Lemma slice_splice l v a n o :
  o + length v <= n -> a + n <= length l ->
  take n (drop a (take (a + o) l ++ v ++ drop (a + o + length v) l)) =
    take o (take n (drop a l)) ++ v ++ drop (o + length v) (take n (drop a l)).
Proof.
  intros Hon Hl.
  rewrite drop_app_le by (rewrite length_take; lia). rewrite <- take_drop_commute.
  replace (a + o + length v) with (a + (o + length v)) by lia. rewrite <- drop_drop.
  assert (He : n <= length (drop a l)) by (rewrite length_drop; lia).
  revert He. generalize (drop a l) as e. intros e He.
  rewrite take_app_ge, take_app_ge by (rewrite ?length_take; lia).
  rewrite take_take, Nat.min_l by lia. f_equal. rewrite length_take, Nat.min_l by lia. f_equal.
  replace n with (o + length v + (n - o - length v)) at 2 by lia.
  by rewrite <- take_drop_commute.
Qed.

(** [Vec::drain(a..b)] keeps a window that lies below [a] in place. *)
Lemma drain_window_below l a b o n :
  o + n <= a -> a <= b -> b <= length l ->
  take n (drop o (take a l ++ drop b l)) = take n (drop o l).
Proof.
  intros Hoa Hab Hb.
  rewrite drop_app_le by (rewrite length_take; lia).
  rewrite take_app_le by (rewrite length_drop, length_take; lia).
  replace a with (o + (a - o)) at 1 by lia. rewrite <- take_drop_commute.
  rewrite take_take. f_equal. lia.
Qed.

(** ... and moves a window that lies above [b] down by [b - a]. *)
Lemma drain_window_above l a b o n :
  b <= o -> a <= b -> b <= length l ->
  take n (drop (o - (b - a)) (take a l ++ drop b l)) = take n (drop o l).
Proof.
  intros Hbo Hab Hb.
  rewrite drop_app_ge by (rewrite length_take; lia).
  rewrite length_take, drop_drop. do 2 f_equal. lia.
Qed.

(** Replacing one element changes a sum by the difference. *)
Lemma sum_list_with_insert (g : A -> nat) l i x y :
  l !! i = Some x -> sum_list_with g (<[i := y]> l) + g x = sum_list_with g l + g y.
Proof.
  revert i. induction l as [|z l IH]; intros [|i] Hi; simplify_eq/=; [lia|].
  specialize (IH i Hi). lia.
Qed.

(** Removing one element lowers a sum by that element. *)
Lemma sum_list_with_vec_remove (g : A -> nat) l i x :
  l !! i = Some x -> sum_list_with g (vec_remove i l) + g x = sum_list_with g l.
Proof.
  unfold vec_remove. intros Hi.
  transitivity (sum_list_with g (take i l ++ x :: drop (S i) l)); [|by rewrite take_drop_middle].
  rewrite !sum_list_with_app. simpl. lia.
Qed.
Lemma select_from_app (P : nat -> bool) n l1 l2 :
  select_from P n (l1 ++ l2) = select_from P n l1 ++ select_from P (n + length l1) l2.
Proof.
  revert n. induction l1 as [|x l1 IH]; intros n; simpl; [by rewrite Nat.add_0_r|].
  rewrite IH, app_assoc. by replace (n + S (length l1)) with (S n + length l1) by lia.
Qed.

Lemma select_from_ext (P Q : nat -> bool) n l :
  (forall i, n <= i < n + length l -> P i = Q i) -> select_from P n l = select_from Q n l.
Proof.
  revert n. induction l as [|x l IH]; intros n H; simpl; [done|].
  rewrite (H n) by (simpl; lia). f_equal. apply IH. intros i Hi. apply H. simpl. lia.
Qed.

Lemma select_from_all (P : nat -> bool) n l :
  (forall i, n <= i < n + length l -> P i = true) -> select_from P n l = l.
Proof.
  revert n. induction l as [|x l IH]; intros n H; simpl; [done|].
  rewrite (H n) by (simpl; lia). simpl. f_equal. apply IH. intros i Hi. apply H. simpl. lia.
Qed.

Lemma select_from_none (P : nat -> bool) n l :
  (forall i, n <= i < n + length l -> P i = false) -> select_from P n l = [].
Proof.
  revert n. induction l as [|x l IH]; intros n H; simpl; [done|].
  rewrite (H n) by (simpl; lia). simpl. apply IH. intros i Hi. apply H. simpl. lia.
Qed.
End VecLemmas.

Lemma sum_list_with_map_snd {A B} (f : B -> nat) (l : list (A * B)) :
  sum_list_with f (map snd l) = sum_list_with (fun x => f x.2) l.
Proof. induction l as [|[a b] l IH]; simpl; [done|]. by rewrite IH. Qed.

Section StarLemmas.
Context {S : Type} (R : S -> S -> Prop).

Lemma star_one x y : R x y -> star R x y.
Proof. intros H. econstructor; [done|constructor]. Qed.

Lemma star_trans x y z : star R x y -> star R y z -> star R x z.
Proof. induction 1; [done|]. intros. econstructor; eauto. Qed.

(** An invariant of every step holds in every reachable state. *)
Lemma star_invariant (P : S -> Prop) x y :
  (forall a b, P a -> R a b -> P b) -> P x -> star R x y -> P y.
Proof. intros Hstep Hx Hs. induction Hs; eauto. Qed.
End StarLemmas.

Section TraceLemmas.
Context {S L : Type} (R : L -> S -> S -> Prop).

Lemma trace_app ls1 ls2 x y z : trace R ls1 x y -> trace R ls2 y z -> trace R (ls1 ++ ls2) x z.
Proof. induction 1; [done|]. intros. econstructor; eauto. Qed.
End TraceLemmas.

(** ** Automation *)

Create HintDb wgpu.
#[export] Hint Resolve usize_add_ok usize_sub_ok usize_mul_ok usize_div_ok : wgpu.
#[export] Hint Resolve vec_drain_ok slice_range_ok : wgpu.

(** [concrete]: discharge a closed side condition by evaluation: an
    equation, an order on concrete numbers, or a conjunction of such. *)
Ltac concrete := vm_compute; first [reflexivity | lia | congruence | split_and!; reflexivity].

(** [exists_run]: prove [exists c, r = Ok c /\ P c] for a closed [r] by
    evaluating [r] with [vm_compute] and continuing with its value. *)
Ltac exists_run :=
  match goal with
  | |- exists c, ?r = Ok c /\ _ =>
      let E := fresh "E" in
      let c := fresh "c" in
      destruct r as [c|?] eqn:E;
      [ exists c; split; [reflexivity|]; vm_compute in E; injection E as <-
      | vm_compute in E; discriminate E ]
  end.
