(* ===== verification/Range.v ===== *)
(** * Byte ranges: [AddressRange = Range<usize>] ([src/src/simple.rs])

    A range is the half-open interval [start..end_] of byte offsets into
    the CPU mirror.  ([end] is a keyword of Rocq, so the field is [end_].)
    [len] is [ExactSizeIterator::len] of [Range<usize>], which is [0] when
    [start > end].  [in_range p r] says that the byte at offset [p] belongs
    to [r].  The lemmas about [hull], the union two merged ranges become,
    are what [FreeList] reasons with. *)

From S2P Require Import Prelude.

Record AddressRange := mk_range { start : nat; end_ : nat }.

Declare Scope range_scope.
Delimit Scope range_scope with rng.
Notation "a ..< b" := (mk_range a b) (at level 55, no associativity) : range_scope.
Open Scope range_scope.

#[export] Instance address_range_eq_dec : EqDecision AddressRange.
Proof. solve_decision. Defined.

(** [range.len()] *)
Definition len (r : AddressRange) : nat := end_ r - start r.

(** The byte at offset [p] lies in [r]. *)
Definition in_range (p : nat) (r : AddressRange) : Prop := start r <= p < end_ r.

#[export] Instance in_range_dec p r : Decision (in_range p r).
Proof. unfold in_range. apply _. Defined.

(** Two ranges share a byte. *)
Definition overlap (a b : AddressRange) : Prop := exists p, in_range p a /\ in_range p b.

(** [overlapb]: the boolean test of [overlap] for ranges of positive length. *)
Definition overlapb (a b : AddressRange) : bool :=
  (start a <? end_ b) && (start b <? end_ a) && (start a <? end_ a) && (start b <? end_ b).

(** The smallest range containing both: what [merge_available_ranges]
    writes back with [min] and [max]. *)
Definition hull (l r : AddressRange) : AddressRange :=
  Nat.min (start l) (start r) ..< Nat.max (end_ l) (end_ r).

(** A range lies inside [0..n]. *)
Definition within (n : nat) (r : AddressRange) : Prop := start r <= end_ r <= n.

#[export] Instance within_dec n r : Decision (within n r).
Proof. unfold within. apply _. Defined.

Lemma overlapb_spec a b : overlapb a b = true <-> overlap a b.
Proof.
  unfold overlapb, overlap, in_range.
  rewrite !andb_true_iff, !Nat.ltb_lt. split.
  - intros [[[H1 H2] H3] H4]. exists (Nat.max (start a) (start b)). lia.
  - intros (p & Ha & Hb). lia.
Qed.

Lemma in_hull_l p l r : in_range p l -> in_range p (hull l r).
Proof. unfold in_range, hull. simpl. lia. Qed.

Lemma in_hull_r p l r : in_range p r -> in_range p (hull l r).
Proof. unfold in_range, hull. simpl. lia. Qed.

(** When [l] ends where [r] starts or later, and [l] starts first, the hull
    covers no byte outside [l] and [r]. *)
Lemma in_hull_exact p l r :
  start l <= start r -> start r <= end_ l -> start l <= end_ l ->
  in_range p (hull l r) -> in_range p l \/ in_range p r.
Proof. unfold in_range, hull. simpl. lia. Qed.

Lemma in_hull_exact' p l r :
  start r <= start l -> start l <= end_ r -> start r <= end_ r ->
  in_range p (hull l r) -> in_range p l \/ in_range p r.
Proof. unfold in_range, hull. simpl. lia. Qed.

Lemma len_hull_within n l r : within n l -> within n r -> within n (hull l r).
Proof. unfold within, hull. simpl. lia. Qed.

Lemma in_range_len p r : in_range p r -> 0 < len r.
Proof. unfold in_range, len. lia. Qed.

#[export] Hint Resolve in_hull_l in_hull_r len_hull_within : wgpu.
