(* ===== verification/FreeList.v ===== *)
(** * The free list of [SimpleGpuMemory] ([src/src/simple.rs], lines 28-51)

    [available_ranges] is a [Vec<AddressRange>].  Two private methods
    maintain it.  [merge_available_ranges index] merges the entry at
    [index] with its successors while they touch.  [make_range_available
    range] inserts a freed range before the first entry whose start is at
    most [range.end], or pushes it at the end, and then merges.

    The [while] loop of [merge_available_ranges] removes one entry per
    iteration.  It is modelled by [merge_loop] on fuel, and
    [merge_available_ranges] runs it with fuel [length ar].
    [merge_available_ranges_exits] proves that this fuel suffices: the
    result satisfies the negation of the loop's guard.

    The theorems on [make_range_available] classify what it does to a
    free list that is sorted and separated (ascending, with a gap between
    any two entries).  They show when it is exact and when it is not. *)

From S2P Require Import Prelude Range.

Module FreeList.

(** One iteration of the loop body runs when the guard
    [index + 1 < len && ar[index].end >= ar[index + 1].start] holds:
    [ar.remove(index + 1)], then [left.start = min], [left.end = max]. *)
Fixpoint merge_loop (fuel index : nat) (ar : list AddressRange) : list AddressRange :=
  match fuel with
  | 0 => ar
  | S fuel' =>
      match ar !! index, ar !! (index + 1) with
      | Some left_, Some right_ =>
          if start right_ <=? end_ left_
          then merge_loop fuel' index (<[index := hull left_ right_]> (vec_remove (index + 1) ar))
          else ar
      | _, _ => ar
      end
  end.

(** [fn merge_available_ranges(&mut self, index: usize)] *)
Definition merge_available_ranges (index : nat) (ar : list AddressRange) : list AddressRange :=
  merge_loop (length ar) index ar.

(** [fn make_range_available(&mut self, range: AddressRange)] *)
Definition make_range_available (range : AddressRange) (ar : list AddressRange)
    : list AddressRange :=
  match position (fun other => start other <=? end_ range) ar with
  | Some other_range_index =>
      merge_available_ranges other_range_index (vec_insert other_range_index range ar)
  | None => ar ++ [range]
  end.

(** ** Predicates on free lists *)

(** The byte at [p] is free according to the list. *)
Definition covered (p : nat) (ar : list AddressRange) : Prop := Exists (in_range p) ar.

#[export] Instance covered_dec p ar : Decision (covered p ar).
Proof. unfold covered. apply _. Defined.

(** [gap_after r l]: the next entry after [r] starts strictly after [r] ends. *)
Definition gap_after (r : AddressRange) (l : list AddressRange) : Prop :=
  match l with
  | [] => True
  | r' :: _ => end_ r < start r'
  end.

(** Sorted by start, every entry non-empty, and no two entries touching:
    the shape the spec promises after every operation. *)
Fixpoint separated (ar : list AddressRange) : Prop :=
  match ar with
  | [] => True
  | r :: ar' => start r < end_ r /\ gap_after r ar' /\ separated ar'
  end.

#[export] Instance separated_dec ar : Decision (separated ar).
Proof.
  induction ar as [|r ar IH]; simpl; [apply _|].
  destruct ar; simpl in *; apply _.
Defined.

(** [touches_head range ar]: [range] ends where the first free range
    starts, or starts where it ends. *)
Definition touches_head (range : AddressRange) (ar : list AddressRange) : Prop :=
  match ar with
  | [] => True
  | h :: _ => end_ range = start h \/ start range = end_ h
  end.

(** ** Lemmas *)

Lemma vec_remove_mid {A} (pre post : list A) x y :
  vec_remove (length pre + 1) (pre ++ x :: y :: post) = pre ++ x :: post.
Proof.
  unfold vec_remove.
  rewrite take_app_ge, drop_app_ge by lia.
  replace (length pre + 1 - length pre) with 1 by lia.
  replace (S (length pre + 1) - length pre) with 2 by lia.
  simpl. by rewrite <- app_assoc.
Qed.

Lemma insert_mid {A} (pre post : list A) x z :
  <[length pre := z]> (pre ++ x :: post) = pre ++ z :: post.
Proof. rewrite insert_app_r_alt by lia. by rewrite Nat.sub_diag. Qed.

Lemma split_at2 {A} (ar : list A) index l r :
  ar !! index = Some l -> ar !! (index + 1) = Some r ->
  ar = take index ar ++ l :: r :: drop (index + 2) ar.
Proof.
  intros Hl Hr.
  rewrite <- (take_drop index ar) at 1. f_equal.
  rewrite (drop_S ar l index) by done. f_equal.
  rewrite (drop_S ar r (S index)) by (rewrite <- Hr; f_equal; lia).
  f_equal. f_equal. lia.
Qed.

(** The list before and after one iteration of the loop. *)
Lemma merge_shape index ar l r :
  ar !! index = Some l -> ar !! (index + 1) = Some r ->
  ar = take index ar ++ l :: r :: drop (index + 2) ar /\
  <[index := hull l r]> (vec_remove (index + 1) ar) = take index ar ++ hull l r :: drop (index + 2) ar.
Proof.
  intros Hl Hr. pose proof (split_at2 ar index l r Hl Hr) as Hsplit.
  assert (Hlen : length (take index ar) = index).
  { rewrite length_take. apply lookup_lt_Some in Hr. lia. }
  split; [done|]. rewrite Hsplit at 1.
  rewrite <- Hlen at 1 2. by rewrite vec_remove_mid, insert_mid.
Qed.

Lemma covered_app p l1 l2 : covered p (l1 ++ l2) <-> covered p l1 \/ covered p l2.
Proof. unfold covered. apply Exists_app. Qed.

Lemma covered_cons p r l : covered p (r :: l) <-> in_range p r \/ covered p l.
Proof. unfold covered. split; [inversion 1; auto | intros [?|?]; constructor; done]. Qed.

(** One iteration of the loop never drops a free byte. *)
Lemma merge_step_covers p index ar l r :
  ar !! index = Some l -> ar !! (index + 1) = Some r ->
  covered p ar -> covered p (<[index := hull l r]> (vec_remove (index + 1) ar)).
Proof.
  intros Hl Hr. destruct (merge_shape index ar l r Hl Hr) as [Hsplit ->].
  rewrite Hsplit at 1. rewrite !covered_app, !covered_cons.
  intros [?|[?|[?|?]]]; eauto with wgpu.
Qed.

Lemma merge_loop_covers p fuel index ar :
  covered p ar -> covered p (merge_loop fuel index ar).
Proof.
  revert ar. induction fuel as [|fuel IH]; intros ar H; simpl; [done|].
  destruct (ar !! index) eqn:Hl, (ar !! (index + 1)) eqn:Hr; try done.
  destruct (start _ <=? end_ _); [|done].
  apply IH. by eapply merge_step_covers.
Qed.

Lemma length_merge_step index ar l r :
  ar !! index = Some l -> ar !! (index + 1) = Some r ->
  length (<[index := hull l r]> (vec_remove (index + 1) ar)) = pred (length ar).
Proof.
  intros Hl Hr. rewrite length_insert, length_vec_remove; [done|].
  by apply lookup_lt_Some in Hr.
Qed.

Lemma vec_insert_0 {A} (x : A) l : vec_insert 0 x l = x :: l.
Proof. reflexivity. Qed.

(** The loop at index 0 on a list whose first two entries touch. *)
Lemma merge_loop_0_merge fuel l r t :
  start r <= end_ l ->
  merge_loop (S fuel) 0 (l :: r :: t) = merge_loop fuel 0 (hull l r :: t).
Proof. intros H. simpl. apply Nat.leb_le in H. by rewrite H. Qed.

Lemma merge_loop_0_stop fuel l r t :
  end_ l < start r -> merge_loop fuel 0 (l :: r :: t) = l :: r :: t.
Proof.
  intros H. destruct fuel; simpl; [done|].
  destruct (start r <=? end_ l) eqn:E; [apply Nat.leb_le in E; lia|done].
Qed.

Lemma merge_loop_0_single fuel l : merge_loop fuel 0 [l] = [l].
Proof. by destruct fuel. Qed.

(** On a separated list, the first entry is where [position] stops when
    it stops at all. *)
Lemma separated_starts ar : separated ar ->
  forall i j ri rj, i < j -> ar !! i = Some ri -> ar !! j = Some rj -> end_ ri < start rj.
Proof.
  induction ar as [|r ar IH]; intros Hs i j ri rj Hij Hi Hj; [done|].
  destruct Hs as (Hr & Hgap & Hs).
  destruct i as [|i], j as [|j]; simpl in Hi, Hj; try lia.
  - injection Hi as <-. destruct ar as [|r' ar]; [done|]. simpl in Hgap.
    destruct j as [|j]; simpl in Hj; [congruence|].
    assert (end_ r' < start rj) by (apply (IH Hs 0 (S j) r' rj); [lia|done..]).
    destruct Hs as (? & _). lia.
  - apply (IH Hs i j); [lia|done..].
Qed.

Lemma separated_head_below r ar x :
  separated (r :: ar) -> In x ar -> end_ r < start x.
Proof.
  intros Hs Hx. apply list_elem_of_In, list_elem_of_lookup in Hx as [j Hj].
  apply (separated_starts (r :: ar) Hs 0 (S j)); [lia|done..].
Qed.

(** Shrinking an entry from its end, in place, keeps the list separated. *)
Lemma separated_shrink ar i r e :
  separated ar -> ar !! i = Some r -> start r < e <= end_ r ->
  separated (<[i := start r ..< e]> ar).
Proof.
  revert i. induction ar as [|r0 ar IH]; intros i Hs Hi He; [done|].
  destruct Hs as (Hr0 & Hgap & Hs). destruct i as [|i]; simpl in Hi |- *.
  - injection Hi as ->. split_and!; [simpl; lia| |done].
    destruct ar as [|r1 ar]; simpl in *; [done|lia].
  - split_and!; [done| |by apply IH].
    destruct ar as [|r1 ar], i as [|i]; simpl in *; [done|done|by injection Hi as ->|done].
Qed.

(** Removing an entry keeps the list separated. *)
Lemma separated_remove ar i : separated ar -> separated (vec_remove i ar).
Proof.
  revert i. induction ar as [|r0 ar IH]; intros i Hs; [by unfold vec_remove; rewrite take_nil, drop_nil|].
  destruct i as [|i]; [exact (proj2 (proj2 Hs))|].
  pose proof Hs as (Hr0 & _ & Hs'). change (separated (r0 :: vec_remove i ar)).
  simpl. split_and!; [done| |by apply IH].
  destruct (vec_remove i ar) as [|x l] eqn:E; simpl; [done|].
  assert (Hx : vec_remove i ar !! 0 = Some x) by (by rewrite E).
  apply lookup_vec_remove_Some in Hx as (j & _ & Hj).
  apply (separated_head_below r0 ar); [done|]. apply list_elem_of_In, list_elem_of_lookup. eauto.
Qed.

(** Merging at index 0 when the head starts at or before every other
    entry: each merge is the exact union, so the result covers the same
    bytes and is separated. *)
Lemma merge_loop_0_exact fuel m t :
  separated t -> start m < end_ m -> (forall x, In x t -> start m <= start x) ->
  length t <= fuel ->
  separated (merge_loop fuel 0 (m :: t)) /\
  forall p, covered p (merge_loop fuel 0 (m :: t)) <-> covered p (m :: t).
Proof.
  revert m fuel. induction t as [|x t IH]; intros m fuel Hs Hm Hle Hfuel.
  - rewrite merge_loop_0_single. simpl. done.
  - destruct (decide (end_ m < start x)) as [Hgap|Hmerge].
    + rewrite merge_loop_0_stop by done. destruct Hs as (? & ? & ?).
      split; [|done]. simpl. split_and!; done.
    + destruct fuel as [|fuel]; [simpl in Hfuel; lia|].
      rewrite merge_loop_0_merge by lia.
      assert (Hx : start m <= start x) by (apply Hle; left; done).
      pose proof Hs as Hs0. destruct Hs as (Hxne & Hgapx & Hs).
      destruct (IH (hull m x) fuel Hs) as [Hsep Hcov].
      * unfold hull. simpl. lia.
      * intros y Hy. unfold hull. simpl.
        assert (end_ x < start y) by (by apply (separated_head_below x t y)).
        lia.
      * simpl in Hfuel. lia.
      * split; [done|]. intros p. rewrite Hcov, !covered_cons. split.
        -- intros [Hp|Hp]; [|auto]. apply in_hull_exact in Hp; [tauto|lia..].
        -- intros [Hp|[Hp|Hp]]; [left; eauto with wgpu | left; eauto with wgpu | auto].
Qed.

(** ** Theorems *)

(** The loop stops only on its guard when the fuel is at least the
    length of the list. *)
Lemma merge_loop_exits fuel index ar l r :
  length ar <= fuel ->
  merge_loop fuel index ar !! index = Some l ->
  merge_loop fuel index ar !! (index + 1) = Some r -> end_ l < start r.
Proof.
  revert ar. induction fuel as [|fuel IH]; intros ar Hfuel Hl Hr; simpl in *.
  - destruct ar; simpl in *; [done|lia].
  - destruct (ar !! index) as [l'|] eqn:El, (ar !! (index + 1)) as [r'|] eqn:Er;
      try congruence.
    destruct (start r' <=? end_ l') eqn:E.
    + eapply IH; [|done..]. rewrite length_merge_step by done.
      apply lookup_lt_Some in Er. lia.
    + simplify_eq. by apply Nat.leb_gt.
Qed.

(** C27: Termination of the [while] loop of [merge_available_ranges]: the
    fuel [length ar] always suffices, because the loop stops on its own
    guard.  Whenever the result has entries at [index] and [index + 1],
    the first ends strictly before the second starts. *)
Theorem merge_available_ranges_exits index ar l r :
  merge_available_ranges index ar !! index = Some l ->
  merge_available_ranges index ar !! (index + 1) = Some r ->
  end_ l < start r.
Proof. apply merge_loop_exits. done. Qed.

(** C24: [make_range_available] never loses a free byte: every byte of the
    freed range and of the old free list is covered afterwards. *)
Theorem make_range_available_covers range ar p :
  in_range p range \/ covered p ar -> covered p (make_range_available range ar).
Proof.
  unfold make_range_available.
  destruct (position _ ar) as [i|] eqn:Hpos.
  - intros Hp. apply merge_loop_covers.
    apply position_spec in Hpos as (x & Hx & _).
    assert (i <= length ar) by (apply lookup_lt_Some in Hx; lia).
    unfold vec_insert. rewrite covered_app, covered_cons.
    rewrite <- (take_drop i ar), covered_app in Hp. tauto.
  - rewrite covered_app, covered_cons. unfold covered at 3. tauto.
Qed.

(** C25: On a separated free list, freeing a non-empty range that touches the
    first free range, or freeing into an empty list, is exact: the result
    is separated and covers exactly the old free bytes and the range. *)
Theorem make_range_available_exact range ar :
  separated ar -> start range < end_ range ->
  (forall r, In r ar -> ~ overlap range r) ->
  touches_head range ar ->
  separated (make_range_available range ar) /\
  forall p, covered p (make_range_available range ar) <-> in_range p range \/ covered p ar.
Proof.
  intros Hs Hne Hdisj Htouch.
  destruct ar as [|h t].
  { unfold make_range_available. simpl. split; [split_and!; done|]. intros p. by rewrite covered_cons. }
  assert (Hh : start h < end_ h) by apply Hs.
  unfold make_range_available. simpl.
  replace (start h <=? end_ range) with true
    by (symmetry; apply Nat.leb_le; destruct Htouch; lia).
  unfold merge_available_ranges. rewrite vec_insert_0. simpl length.
  destruct (decide (end_ range = start h)) as [Hl|Hr].
  - destruct (merge_loop_0_exact (S (S (length t))) range (h :: t)) as [Hsep Hcov];
      [done|done| |simpl; lia|].
    + intros x [<-|Hx]; [lia|]. pose proof (separated_head_below h t x Hs Hx). lia.
    + split; [done|]. intros p. by rewrite Hcov, covered_cons.
  - destruct Htouch as [?|Hr']; [done|].
    rewrite merge_loop_0_merge by lia.
    pose proof Hs as Hs0. destruct Hs0 as (_ & _ & Hst).
    destruct (merge_loop_0_exact (S (length t)) (hull range h) t Hst) as [Hsep Hcov].
    + unfold hull. simpl. lia.
    + intros x Hx. pose proof (separated_head_below h t x) as Hb.
      unfold hull. simpl. assert (end_ h < start x) by (by apply Hb). lia.
    + lia.
    + split; [done|]. intros p. rewrite Hcov, !covered_cons. split.
      * intros [Hp|Hp]; [|auto]. apply in_hull_exact' in Hp; [tauto|lia..].
      * intros [Hp|[Hp|Hp]]; [left; eauto with wgpu | left; eauto with wgpu | auto].
Qed.

(** The search predicate [other_range.start <= range.end] holds for the
    first entry [h] of a sorted list as soon as [range] lies after [h]. *)
Lemma make_range_available_after_head range h t :
  start h <= end_ range ->
  make_range_available range (h :: t) =
  merge_loop (S (length t)) 0 (hull range h :: t).
Proof.
  intros Hle. unfold make_range_available. simpl.
  replace (start h <=? end_ range) with true by (symmetry; by apply Nat.leb_le).
  unfold merge_available_ranges. rewrite vec_insert_0. simpl length.
  apply merge_loop_0_merge. lia.
Qed.

(** C1: On a separated free list, freeing a range that lies after the first
    free range [h] with a gap between them merges [h] with the range across
    the gap.  The byte at [h.end] is in neither, yet it is free afterwards. *)
Theorem make_range_available_gap range h t :
  separated (h :: t) -> start range < end_ range -> end_ h < start range ->
  covered (end_ h) (make_range_available range (h :: t)) /\
  ~ covered (end_ h) (range :: h :: t).
Proof.
  intros Hs Hne Hgap. pose proof Hs as (Hh & _ & _). split.
  - rewrite make_range_available_after_head by lia.
    apply merge_loop_covers, covered_cons. left. unfold in_range, hull. simpl. lia.
  - rewrite !covered_cons. intros [Hp|[Hp|Hp]]; unfold in_range in *; [lia|lia|].
    apply Exists_exists in Hp as (x & Hx & Hp). apply list_elem_of_In in Hx.
    pose proof (separated_head_below h t x Hs Hx). unfold in_range in Hp. lia.
Qed.

(** C26: On a separated free list, freeing a range that lies before the first
    free range with a gap pushes it at the end: the list is no longer
    sorted. *)
Theorem make_range_available_before range h t :
  separated (h :: t) -> start range < end_ range -> end_ range < start h ->
  make_range_available range (h :: t) = h :: t ++ [range] /\
  ~ separated (make_range_available range (h :: t)).
Proof.
  intros Hs Hne Hbefore.
  assert (Heq : make_range_available range (h :: t) = h :: t ++ [range]).
  { unfold make_range_available. rewrite position_all_false; [done|].
    intros x [<-|Hx]; apply Nat.leb_gt; [lia|].
    pose proof (separated_head_below h t x Hs Hx). destruct Hs. lia. }
  split; [done|]. rewrite Heq. intros Hs'.
  assert (Hlast : (h :: t ++ [range]) !! S (length t) = Some range).
  { simpl. rewrite lookup_app_r by lia. by rewrite Nat.sub_diag. }
  pose proof (separated_starts _ Hs' 0 (S (length t)) h range ltac:(lia) eq_refl Hlast).
  destruct Hs. lia.
Qed.

(** ** Witnesses *)

Lemma merge_available_ranges_exits_witness :
  merge_available_ranges 0 [0 ..< 4; 4 ..< 8; 12 ..< 16] !! 0 = Some (0 ..< 8) /\
  merge_available_ranges 0 [0 ..< 4; 4 ..< 8; 12 ..< 16] !! 1 = Some (12 ..< 16) /\
  end_ (0 ..< 8) < start (12 ..< 16).
Proof.
  split_and!; [reflexivity|reflexivity|].
  apply (merge_available_ranges_exits 0 [0 ..< 4; 4 ..< 8; 12 ..< 16]); reflexivity.
Defined.

Lemma make_range_available_covers_witness :
  in_range 5 (4 ..< 8) /\ covered 5 (make_range_available (4 ..< 8) [0 ..< 4]).
Proof.
  assert (H : in_range 5 (4 ..< 8)) by (unfold in_range; simpl; lia).
  split; [exact H|]. apply (make_range_available_covers (4 ..< 8) [0 ..< 4] 5). by left.
Defined.

Lemma make_range_available_exact_witness :
  separated [0 ..< 4; 12 ..< 16] /\ start (4 ..< 8) < end_ (4 ..< 8) /\
  (forall r, In r [0 ..< 4; 12 ..< 16] -> ~ overlap (4 ..< 8) r) /\
  touches_head (4 ..< 8) [0 ..< 4; 12 ..< 16] /\
  separated (make_range_available (4 ..< 8) [0 ..< 4; 12 ..< 16]).
Proof.
  assert (Hs : separated [0 ..< 4; 12 ..< 16]) by (simpl; lia).
  assert (Hne : start (4 ..< 8) < end_ (4 ..< 8)) by (simpl; lia).
  assert (Hd : forall r, In r [0 ..< 4; 12 ..< 16] -> ~ overlap (4 ..< 8) r).
  { intros r Hr. rewrite <- overlapb_spec.
    destruct Hr as [<-|[<-|[]]]; vm_compute; congruence. }
  assert (Ht : touches_head (4 ..< 8) [0 ..< 4; 12 ..< 16]) by (simpl; lia).
  split_and!; [exact Hs|exact Hne|exact Hd|exact Ht|].
  apply (make_range_available_exact (4 ..< 8) [0 ..< 4; 12 ..< 16] Hs Hne Hd Ht).
Defined.

Lemma make_range_available_gap_witness :
  separated [0 ..< 4] /\ start (8 ..< 12) < end_ (8 ..< 12) /\ end_ (0 ..< 4) < start (8 ..< 12) /\
  covered 4 (make_range_available (8 ..< 12) [0 ..< 4]) /\ ~ covered 4 [8 ..< 12; 0 ..< 4].
Proof.
  assert (Hs : separated [0 ..< 4]) by (simpl; lia).
  split_and!; [exact Hs|simpl; lia|simpl; lia|..];
    apply (make_range_available_gap (8 ..< 12) (0 ..< 4) [] Hs); simpl; lia.
Defined.

Lemma make_range_available_before_witness :
  separated [8 ..< 12] /\ start (0 ..< 4) < end_ (0 ..< 4) /\ end_ (0 ..< 4) < start (8 ..< 12) /\
  make_range_available (0 ..< 4) [8 ..< 12] = [8 ..< 12; 0 ..< 4] /\
  ~ separated (make_range_available (0 ..< 4) [8 ..< 12]).
Proof.
  assert (Hs : separated [8 ..< 12]) by (simpl; lia).
  split_and!; [exact Hs|simpl; lia|simpl; lia|..];
    apply (make_range_available_before (0 ..< 4) (8 ..< 12) [] Hs); simpl; lia.
Defined.

End FreeList.
