(* ===== verification/SlotMap.v ===== *)
(** * [slotmap::SlotMap<DefaultKey, V>], the registry of live ranges

    [SimpleGpuMemory::used_ranges] is a [SlotMap] from the [slotmap] crate
    (version 1).  This file models that library from its documented
    behaviour; none of it is code of this repository.

    The map is a vector of slots.  Slot 0 is a sentinel that is never used.
    A slot holds a value, or the index of the next free slot, and a [u32]
    version that is odd exactly when the slot is occupied.  A key
    ([DefaultKey], here [KeyData]) is an index and a version.  A key is
    valid while its slot carries the same version.  [remove] adds one to the
    version with [wrapping_add] and pushes the slot on the LIFO free list.
    [insert] reuses the head of the free list with version [v | 1], or
    pushes a new slot with version 1.

    [iter] and [values_mut] visit the occupied slots in index order.  That
    order is what [fix_sequence] and [sort] depend on. *)

From S2P Require Import Prelude.

Module SlotMap.

Definition u32_limit : N := (2 ^ 32)%N.
Definition u32_max : N := (2 ^ 32 - 1)%N.

(** [KeyData { idx: u32, version: NonZeroU32 }] *)
Record KeyData := mk_key { idx : nat; version : N }.

#[export] Instance key_data_eq_dec : EqDecision KeyData.
Proof. solve_decision. Defined.

(** The [SlotUnion]: a value, or the index of the next free slot. *)
Inductive SlotContent (V : Type) :=
  | Occupied (value : V)
  | Vacant (next_free : nat).
Arguments Occupied {V} value.
Arguments Vacant {V} next_free.

Record Slot (V : Type) := mk_slot { u : SlotContent V; slot_version : N }.
Arguments mk_slot {V} u slot_version.
Arguments u {V} s.
Arguments slot_version {V} s.

Record SlotMap (V : Type) := mk_slotmap {
  slots : list (Slot V);
  free_head : nat;
  num_elems : nat;
}.
Arguments mk_slotmap {V} slots free_head num_elems.
Arguments slots {V} s.
Arguments free_head {V} s.
Arguments num_elems {V} s.

Section Ops.
Context {V : Type}.

(** [SlotMap::new()]: the sentinel slot and an empty free list. *)
Definition new : SlotMap V := mk_slotmap [mk_slot (Vacant 0) 0%N] 1 0.

(** [contains_key]: the slot exists and carries the key's version. *)
Definition contains_key (sm : SlotMap V) (k : KeyData) : bool :=
  match slots sm !! idx k with
  | Some s => (slot_version s =? version k)%N
  | None => false
  end.

(** [get]: the value of a valid key. *)
Definition get (sm : SlotMap V) (k : KeyData) : option V :=
  match slots sm !! idx k with
  | Some s =>
      if (slot_version s =? version k)%N
      then match u s with Occupied v => Some v | Vacant _ => None end
      else None
  | None => None
  end.

(** [Index]: [sm[k]] panics with "invalid SlotMap key used". *)
Definition index (sm : SlotMap V) (k : KeyData) : Res V :=
  match get sm k with
  | Some v => Ok v
  | None => Panicked InvalidKey
  end.

(** [IndexMut]: [sm[k] = v], panicking on an invalid key. *)
Definition index_set (sm : SlotMap V) (k : KeyData) (v : V) : Res (SlotMap V) :=
  match get sm k with
  | Some _ =>
      match slots sm !! idx k with
      | Some s => Ok (mk_slotmap (<[idx k := mk_slot (Occupied v) (slot_version s)]> (slots sm))
                                 (free_head sm) (num_elems sm))
      | None => Panicked InvalidKey
      end
  | None => Panicked InvalidKey
  end.

(** The [next_free] field read through the union; the free head always
    names a vacant slot in a well-formed map. *)
Definition next_free_of (s : Slot V) : nat :=
  match u s with Vacant n => n | Occupied _ => 0 end.

(** [insert]: reuse the free head with version [v | 1], or push a slot. *)
Definition insert (sm : SlotMap V) (value : V) : Res (SlotMap V * KeyData) :=
  let new_num_elems := num_elems sm + 1 in
  if (N.of_nat new_num_elems =? u32_max)%N then Panicked SlotMapOverflow else
  match slots sm !! free_head sm with
  | Some slot =>
      let occupied_version := N.lor (slot_version slot) 1 in
      Ok (mk_slotmap (<[free_head sm := mk_slot (Occupied value) occupied_version]> (slots sm))
                     (next_free_of slot) new_num_elems,
          mk_key (free_head sm) occupied_version)
  | None =>
      Ok (mk_slotmap (slots sm ++ [mk_slot (Occupied value) 1%N])
                     (length (slots sm) + 1) new_num_elems,
          mk_key (length (slots sm)) 1%N)
  end.

(** [remove]: on a valid key, free the slot, bump its version with
    [wrapping_add(1)], and push it on the free list. *)
Definition remove (sm : SlotMap V) (k : KeyData) : SlotMap V * option V :=
  match slots sm !! idx k with
  | Some s =>
      if (slot_version s =? version k)%N then
        match u s with
        | Occupied v =>
            (mk_slotmap (<[idx k := mk_slot (Vacant (free_head sm))
                                            ((slot_version s + 1) mod u32_limit)%N]> (slots sm))
                        (idx k) (num_elems sm - 1),
             Some v)
        | Vacant _ => (sm, None)
        end
      else (sm, None)
  | None => (sm, None)
  end.

(** [iter] from slot [i] on: the occupied slots with their keys. *)
Fixpoint iter_from (i : nat) (ss : list (Slot V)) : list (KeyData * V) :=
  match ss with
  | [] => []
  | s :: ss' =>
      match u s with
      | Occupied v => (mk_key i (slot_version s), v) :: iter_from (S i) ss'
      | Vacant _ => iter_from (S i) ss'
      end
  end.

(** [iter()] in slot order, and [values()]. *)
Definition iter (sm : SlotMap V) : list (KeyData * V) := iter_from 0 (slots sm).
Definition values (sm : SlotMap V) : list V := map snd (iter sm).

(** [for v in sm.values_mut()], writing [f] of each value back, in slot order; the
    loop body may panic. *)
Fixpoint try_map_slots (f : V -> Res V) (ss : list (Slot V)) : Res (list (Slot V)) :=
  match ss with
  | [] => Ok []
  | s :: ss' =>
      match u s with
      | Occupied v =>
          v' <- f v ;;
          ss'' <- try_map_slots f ss' ;;
          Ok (mk_slot (Occupied v') (slot_version s) :: ss'')
      | Vacant _ =>
          ss'' <- try_map_slots f ss' ;;
          Ok (s :: ss'')
      end
  end.

Definition values_try_map (f : V -> Res V) (sm : SlotMap V) : Res (SlotMap V) :=
  ss <- try_map_slots f (slots sm) ;;
  Ok (mk_slotmap ss (free_head sm) (num_elems sm)).

(** [slot_val f s]: [f] of the value an occupied slot holds, 0 for a
    vacant slot; [occ_sum f sm] sums it over the slots, that is over
    [values()]. *)
Definition slot_val (f : V -> nat) (s : Slot V) : nat :=
  match u s with Occupied v => f v | Vacant _ => 0 end.

Definition occ_sum (f : V -> nat) (sm : SlotMap V) : nat := sum_list_with (slot_val f) (slots sm).

(** ** Well-formedness *)

Definition vacant (s : Slot V) : Prop :=
  match u s with Vacant _ => True | Occupied _ => False end.

(** [free_chain ss n l]: following [next_free] from [n] visits the slots
    [l] and stops at [length ss]. *)
Inductive free_chain (ss : list (Slot V)) : nat -> list nat -> Prop :=
  | chain_end n : n = length ss -> free_chain ss n []
  | chain_step n m ver l :
      n <> 0 -> ss !! n = Some (mk_slot (Vacant m) ver) -> free_chain ss m l ->
      free_chain ss n (n :: l).

(** The sentinel, a free list that lists every vacant slot once, versions
    that are odd exactly on occupied slots, and versions that are [u32]. *)
Record wf (sm : SlotMap V) : Prop := {
  wf_sentinel : exists m, slots sm !! 0 = Some (mk_slot (Vacant m) 0%N);
  wf_free : exists l, free_chain (slots sm) (free_head sm) l /\ NoDup l /\
    (forall i s, i <> 0 -> slots sm !! i = Some s -> vacant s <-> i ∈ l);
  wf_parity : forall i s, slots sm !! i = Some s ->
    vacant s <-> N.even (slot_version s) = true;
  wf_bound : forall i s, slots sm !! i = Some s -> (slot_version s < u32_limit)%N;
}.

(** ** Lemmas on lookups *)

(** [get] depends only on the slot the key names. *)
Lemma get_slots sm sm' k :
  slots sm' !! idx k = slots sm !! idx k -> get sm' k = get sm k.
Proof. unfold get. by intros ->. Qed.

Lemma get_Some sm k v :
  get sm k = Some v <-> slots sm !! idx k = Some (mk_slot (Occupied v) (version k)).
Proof.
  unfold get. destruct (slots sm !! idx k) as [[c ver]|]; simpl; [|done].
  destruct (N.eqb_spec ver (version k)) as [->|Hne]; destruct c; split; congruence.
Qed.

Lemma get_None_version sm k s :
  slots sm !! idx k = Some s -> slot_version s <> version k -> get sm k = None.
Proof. unfold get. intros -> Hv. by destruct (N.eqb_spec (slot_version s) (version k)). Qed.

Lemma get_None_vacant sm k m ver :
  slots sm !! idx k = Some (mk_slot (Vacant m) ver) -> get sm k = None.
Proof. unfold get. intros ->. simpl. by destruct (_ =? _)%N. Qed.

Lemma get_None_lookup sm k : slots sm !! idx k = None -> get sm k = None.
Proof. unfold get. by intros ->. Qed.

Lemma index_ok sm k v : index sm k = Ok v <-> get sm k = Some v.
Proof. unfold index. destruct (get sm k); split; congruence. Qed.

Lemma index_None sm k : get sm k = None -> index sm k = Panicked InvalidKey.
Proof. unfold index. by intros ->. Qed.

Lemma free_chain_stable ss ss' n l :
  free_chain ss n l -> length ss' = length ss ->
  (forall i, i ∈ l -> ss' !! i = ss !! i) -> free_chain ss' n l.
Proof.
  induction 1 as [n Hn|n m ver l Hn0 Hn Hc IH]; intros Hlen Hsame.
  - constructor. lia.
  - econstructor; [done| |].
    + rewrite Hsame; [done|]. constructor.
    + apply IH; [done|]. intros i Hi. apply Hsame. by constructor.
Qed.

Lemma free_chain_vacant ss n l i :
  free_chain ss n l -> i ∈ l -> exists m ver, ss !! i = Some (mk_slot (Vacant m) ver).
Proof.
  induction 1 as [|n m ver l Hn0 Hn Hc IH]; intros Hi; [by apply not_elem_of_nil in Hi|].
  apply elem_of_cons in Hi as [->|Hi]; eauto.
Qed.

Lemma lor_even_1 (k : N) : N.lor (2 * k) 1 = (2 * k + 1)%N.
Proof.
  apply N.bits_inj; intros i. rewrite N.lor_spec.
  destruct (N.eq_dec i 0) as [->|Hi].
  - rewrite N.testbit_even_0, N.testbit_odd_0. reflexivity.
  - replace i with (N.succ (N.pred i)) by lia.
    rewrite N.testbit_even_succ, N.testbit_odd_succ by lia.
    replace 1%N with (2 * 0 + 1)%N by reflexivity.
    rewrite N.testbit_odd_succ by lia. rewrite N.bits_0.
    destruct (N.testbit k (N.pred i)); reflexivity.
Qed.

(** The version [insert] gives a reused vacant slot is the next one. *)
Lemma lor_1_even v : N.even v = true -> N.lor v 1 = (v + 1)%N.
Proof. intros H. apply N.even_spec in H as [k ->]. apply lor_even_1. Qed.

(** In a well-formed map the free head names a vacant slot, or the end. *)
Lemma free_head_cases sm : wf sm ->
  (slots sm !! free_head sm = None /\ free_head sm = length (slots sm)) \/
  (exists m ver l, free_head sm <> 0 /\
     slots sm !! free_head sm = Some (mk_slot (Vacant m) ver) /\
     free_chain (slots sm) m l /\ NoDup (free_head sm :: l) /\
     (forall i s, i <> 0 -> slots sm !! i = Some s -> vacant s <-> i ∈ free_head sm :: l)).
Proof.
  intros [_ (l & Hc & Hnd & Hvac) _ _]. inversion Hc as [n Hn|n m ver l' Hn0 Hn Hc']; subst.
  - left. split; [|done]. rewrite Hn. apply lookup_ge_None. lia.
  - right. exists m, ver, l'. done.
Qed.

Lemma even_2k1 k : N.even (2 * k + 1) = false.
Proof. rewrite N.even_add, N.even_mul. reflexivity. Qed.

(** [wrapping_add] keeps an even version even. *)
Lemma even_mod_u32 x : N.even x = true -> N.even (x mod u32_limit) = true.
Proof.
  intros H. apply N.even_spec in H as [j ->]. unfold u32_limit.
  replace (2 ^ 32)%N with (2 * 2 ^ 31)%N by reflexivity.
  rewrite N.Div0.mul_mod_distr_l. apply N.even_spec. eexists; reflexivity.
Qed.

Lemma vacant_not_occupied m ver : vacant (mk_slot (Vacant m) ver).
Proof. done. Qed.

Lemma wf_new : wf new.
Proof.
  split; simpl.
  - by exists 0.
  - exists []. split_and!; [by constructor|constructor|].
    intros [|i] s Hi Hs; [done|]. done.
  - intros [|i] s Hs; [|done]. injection Hs as <-. simpl. done.
  - intros [|i] s Hs; [|done]. injection Hs as <-. simpl. unfold u32_limit. lia.
Qed.

(** ** [insert], [remove] and [index_set] keep the map well formed *)

Lemma insert_wf sm v sm' k : wf sm -> insert sm v = Ok (sm', k) -> wf sm'.
Proof.
  intros Hwf Hins. pose proof Hwf as [[m0 Hsent] (l & Hc & Hnd & Hvac) Hpar Hbnd].
  unfold insert in Hins. destruct (_ =? u32_max)%N; [discriminate|].
  destruct (free_head_cases sm Hwf)
    as [[Hnone Hfh]|(m & ver & l' & Hfh0 & Hslot & Hc' & Hnd' & Hvac')].
  - rewrite Hnone in Hins. injection Hins as <- <-.
    assert (l = []) as ->.
    { inversion Hc as [|n m' ver' l'' _ Hn]; [done|congruence]. }
    assert (Hlen0 : 0 < length (slots sm)) by (by apply lookup_lt_Some in Hsent).
    split; simpl.
    + exists m0. by rewrite lookup_app_l.
    + exists []. split_and!; [constructor; rewrite length_app; simpl; lia|constructor|].
      intros i s Hi0 Hs. destruct (decide (i < length (slots sm))) as [Hlt|Hge].
      * rewrite lookup_app_l in Hs by done. by apply Hvac.
      * rewrite lookup_app_r in Hs by lia.
        destruct (i - length (slots sm)); simpl in Hs; [|done]. injection Hs as <-.
        split; [intros []|intros H; by apply not_elem_of_nil in H].
    + intros i s Hs. destruct (decide (i < length (slots sm))) as [Hlt|Hge].
      * rewrite lookup_app_l in Hs by done. by apply (Hpar i).
      * rewrite lookup_app_r in Hs by lia.
        destruct (i - length (slots sm)); simpl in Hs; [|done]. injection Hs as <-.
        split; [intros []|discriminate].
    + intros i s Hs. destruct (decide (i < length (slots sm))) as [Hlt|Hge].
      * rewrite lookup_app_l in Hs by done. by apply (Hbnd i).
      * rewrite lookup_app_r in Hs by lia.
        destruct (i - length (slots sm)); simpl in Hs; [|done]. injection Hs as <-.
        simpl. unfold u32_limit. lia.
  - rewrite Hslot in Hins. injection Hins as <- <-.
    assert (Heven : N.even ver = true) by (by apply (Hpar _ _ Hslot)).
    pose proof (Hbnd _ _ Hslot) as Hb. simpl in Hb.
    rewrite lor_1_even by done.
    apply N.even_spec in Heven as [kv ->].
    apply NoDup_cons in Hnd' as [Hfhl Hnd'].
    assert (Hlt : free_head sm < length (slots sm)) by (by apply lookup_lt_Some in Hslot).
    split; simpl.
    + exists m0. by rewrite list_lookup_insert_ne.
    + exists l'. split_and!; [|done|].
      * apply (free_chain_stable (slots sm)); [done|by rewrite length_insert|].
        intros i Hi. rewrite list_lookup_insert_ne; [done|]. intros E. rewrite <- E in Hi. contradiction.
      * intros i s Hi0 Hs. destruct (decide (i = free_head sm)) as [->|Hne].
        -- rewrite list_lookup_insert_eq in Hs by done. injection Hs as <-.
           split; [intros []|done].
        -- rewrite list_lookup_insert_ne in Hs by congruence.
           rewrite (Hvac' i s Hi0 Hs), elem_of_cons. naive_solver.
    + intros i s Hs. destruct (decide (i = free_head sm)) as [->|Hne].
      * rewrite list_lookup_insert_eq in Hs by done. injection Hs as <-. simpl.
        rewrite even_2k1. split; [intros []|discriminate].
      * rewrite list_lookup_insert_ne in Hs by congruence. by apply (Hpar i).
    + intros i s Hs. destruct (decide (i = free_head sm)) as [->|Hne].
      * rewrite list_lookup_insert_eq in Hs by done. injection Hs as <-. simpl.
        unfold u32_limit in *. lia.
      * rewrite list_lookup_insert_ne in Hs by congruence. by apply (Hbnd i).
Qed.

(** An occupied slot of a well-formed map is not the sentinel and not on
    the free list. *)
Lemma wf_occupied sm i v ver l :
  wf sm -> slots sm !! i = Some (mk_slot (Occupied v) ver) ->
  free_chain (slots sm) (free_head sm) l ->
  i <> 0 /\ (i ∉ l) /\ N.even ver = false.
Proof.
  intros Hwf Hs Hc. pose proof Hwf as [[m0 Hsent] _ Hpar _]. split_and!.
  - intros ->. congruence.
  - intros Hin. destruct (free_chain_vacant _ _ _ _ Hc Hin) as (? & ? & E). congruence.
  - destruct (N.even ver) eqn:E; [|done]. by apply (Hpar _ _ Hs) in E.
Qed.

Lemma remove_wf sm k sm' r : wf sm -> remove sm k = (sm', r) -> wf sm'.
Proof.
  intros Hwf Hrem. pose proof Hwf as [[m0 Hsent] (l & Hc & Hnd & Hvac) Hpar Hbnd].
  unfold remove in Hrem.
  destruct (slots sm !! idx k) as [[c ver]|] eqn:Hs; [|by injection Hrem as <-].
  simpl in Hrem. destruct (ver =? version k)%N; [|by injection Hrem as <-].
  destruct c as [v|m]; [|by injection Hrem as <-].
  injection Hrem as <- <-.
  destruct (wf_occupied sm (idx k) v ver l Hwf Hs Hc) as (Hi0 & Hnotin & Hodd).
  assert (Hlt : idx k < length (slots sm)) by (by apply lookup_lt_Some in Hs).
  split; simpl.
  - exists m0. by rewrite list_lookup_insert_ne.
  - exists (idx k :: l). split_and!.
    + econstructor; [done|by rewrite list_lookup_insert_eq|].
      apply (free_chain_stable (slots sm)); [done|by rewrite length_insert|].
      intros i Hi. rewrite list_lookup_insert_ne; [done|]. intros E. rewrite <- E in Hi. contradiction.
    + by constructor.
    + intros i s Hi Hsi. destruct (decide (i = idx k)) as [->|Hne].
      * rewrite list_lookup_insert_eq in Hsi by done. injection Hsi as <-.
        split; [intros _; apply elem_of_cons; by left|done].
      * rewrite list_lookup_insert_ne in Hsi by congruence.
        rewrite (Hvac i s Hi Hsi), elem_of_cons. naive_solver.
  - intros i s Hsi. destruct (decide (i = idx k)) as [->|Hne].
    + rewrite list_lookup_insert_eq in Hsi by done. injection Hsi as <-. simpl.
      split; [intros _|done]. apply even_mod_u32. rewrite N.even_add, Hodd. reflexivity.
    + rewrite list_lookup_insert_ne in Hsi by congruence. by apply (Hpar i).
  - intros i s Hsi. destruct (decide (i = idx k)) as [->|Hne].
    + rewrite list_lookup_insert_eq in Hsi by done. injection Hsi as <-. simpl.
      apply N.mod_lt. unfold u32_limit. lia.
    + rewrite list_lookup_insert_ne in Hsi by congruence. by apply (Hbnd i).
Qed.

Lemma index_set_wf sm k v sm' : wf sm -> index_set sm k v = Ok sm' -> wf sm'.
Proof.
  intros Hwf Hset. pose proof Hwf as [[m0 Hsent] (l & Hc & Hnd & Hvac) Hpar Hbnd].
  unfold index_set in Hset. destruct (get sm k) as [o|] eqn:Hg; [|discriminate].
  apply get_Some in Hg. rewrite Hg in Hset. injection Hset as <-.
  destruct (wf_occupied sm (idx k) o (version k) l Hwf Hg Hc) as (Hi0 & Hnotin & Hodd).
  assert (Hlt : idx k < length (slots sm)) by (by apply lookup_lt_Some in Hg).
  split; simpl.
  - exists m0. by rewrite list_lookup_insert_ne.
  - exists l. split_and!; [|done|].
    + apply (free_chain_stable (slots sm)); [done|by rewrite length_insert|].
      intros i Hi. rewrite list_lookup_insert_ne; [done|]. intros E. rewrite <- E in Hi. contradiction.
    + intros i s Hi Hsi. destruct (decide (i = idx k)) as [->|Hne].
      * rewrite list_lookup_insert_eq in Hsi by done. injection Hsi as <-.
        split; [intros []|done].
      * rewrite list_lookup_insert_ne in Hsi by congruence. by apply Hvac.
  - intros i s Hsi. destruct (decide (i = idx k)) as [->|Hne].
    + rewrite list_lookup_insert_eq in Hsi by done. injection Hsi as <-. simpl.
      rewrite Hodd. split; [intros []|discriminate].
    + rewrite list_lookup_insert_ne in Hsi by congruence. by apply (Hpar i).
  - intros i s Hsi. destruct (decide (i = idx k)) as [->|Hne].
    + rewrite list_lookup_insert_eq in Hsi by done. injection Hsi as <-. simpl.
      exact (Hbnd _ _ Hg).
    + rewrite list_lookup_insert_ne in Hsi by congruence. by apply (Hbnd i).
Qed.

(** ** What [get] sees after each operation *)

Lemma key_version_ne k k' : idx k' = idx k -> k' <> k -> version k' <> version k.
Proof. destruct k, k'; simpl. intros -> Hne ->. done. Qed.

(** The key [insert] returns names the inserted value. *)
Lemma insert_new sm v sm' k : insert sm v = Ok (sm', k) -> get sm' k = Some v.
Proof.
  unfold insert. destruct (_ =? u32_max)%N; [discriminate|].
  destruct (slots sm !! free_head sm) as [slot|] eqn:Hs; intros H; injection H as <- <-.
  - apply get_Some. simpl. apply list_lookup_insert_eq. by apply lookup_lt_Some in Hs.
  - apply get_Some. simpl. by rewrite lookup_app_r, Nat.sub_diag by lia.
Qed.

(** In a well-formed map, that key was not valid before: [insert] never
    overwrites a live value. *)
Lemma insert_fresh sm v sm' k : wf sm -> insert sm v = Ok (sm', k) -> get sm k = None.
Proof.
  intros Hwf. unfold insert. destruct (_ =? u32_max)%N; [discriminate|].
  destruct (free_head_cases sm Hwf)
    as [[Hnone _]|(m & ver & l & _ & Hslot & _)].
  - rewrite Hnone. intros H. injection H as <- <-. unfold get. simpl.
    by rewrite lookup_ge_None_2.
  - rewrite Hslot. intros H. injection H as <- <-. unfold get. simpl.
    rewrite Hslot. simpl. by destruct (_ =? _)%N.
Qed.

(** Every other key keeps its value. *)
Lemma insert_other sm v sm' k k' :
  wf sm -> insert sm v = Ok (sm', k) -> k' <> k -> get sm' k' = get sm k'.
Proof.
  intros Hwf Hins Hne. pose proof Hwf as [_ _ Hpar _].
  unfold insert in Hins. destruct (_ =? u32_max)%N; [discriminate|].
  destruct (free_head_cases sm Hwf)
    as [[Hnone Hfh]|(m & ver & l & _ & Hslot & _)].
  - rewrite Hnone in Hins. injection Hins as <- <-.
    destruct (decide (idx k' = length (slots sm))) as [Hi|Hi].
    + assert (Hv : version k' <> 1%N)
        by (apply (key_version_ne (mk_key (length (slots sm)) 1%N) k'); done).
      rewrite (get_None_lookup sm) by (rewrite Hi; by apply lookup_ge_None_2).
      eapply get_None_version; [simpl; by rewrite Hi, lookup_app_r, Nat.sub_diag by lia|].
      simpl. congruence.
    + destruct (decide (idx k' < length (slots sm))).
      * apply get_slots. simpl. by rewrite lookup_app_l.
      * unfold get. simpl. rewrite !lookup_ge_None_2; [done|lia|].
        rewrite length_app. simpl. lia.
  - rewrite Hslot in Hins. injection Hins as <- <-.
    destruct (decide (idx k' = free_head sm)) as [Hi|Hi].
    + assert (Hv : version k' <> N.lor ver 1)
        by (apply (key_version_ne (mk_key (free_head sm) (N.lor ver 1)) k'); done).
      rewrite (get_None_vacant sm k' m ver) by (by rewrite Hi).
      eapply get_None_version.
      { simpl. rewrite Hi. apply list_lookup_insert_eq. by apply lookup_lt_Some in Hslot. }
      simpl. congruence.
    + apply get_slots. simpl. by rewrite list_lookup_insert_ne.
Qed.

(** [remove] of a valid key returns its value, invalidates it, and keeps
    every other key. *)
Lemma remove_some sm k sm' v :
  remove sm k = (sm', Some v) ->
  get sm k = Some v /\ get sm' k = None /\ forall k', k' <> k -> get sm' k' = get sm k'.
Proof.
  unfold remove.
  destruct (slots sm !! idx k) as [[c ver]|] eqn:Hs; [|discriminate].
  simpl. destruct (N.eqb_spec ver (version k)) as [Hv|]; [|discriminate].
  destruct c as [v'|m]; [|discriminate]. intros H. injection H as <- <-.
  assert (Hlt : idx k < length (slots sm)) by (by apply lookup_lt_Some in Hs).
  split_and!.
  - apply get_Some. by rewrite Hs, Hv.
  - eapply get_None_vacant. simpl. by rewrite list_lookup_insert_eq.
  - intros k' Hne. destruct (decide (idx k' = idx k)) as [Hi|Hi].
    + pose proof (key_version_ne k k' Hi Hne) as Hkv.
      rewrite (get_None_version sm k' (mk_slot (Occupied v') ver)) by (rewrite ?Hi; simpl; congruence).
      eapply get_None_vacant. simpl. rewrite Hi. by apply list_lookup_insert_eq.
    + apply get_slots. simpl. by rewrite list_lookup_insert_ne.
Qed.

(** [remove] of a key that is not valid changes nothing. *)
Lemma remove_none sm k sm' : remove sm k = (sm', None) -> sm' = sm /\ get sm k = None.
Proof.
  unfold remove, get.
  destruct (slots sm !! idx k) as [[c ver]|]; [|intros H; by injection H as <-].
  simpl. destruct (ver =? version k)%N; [|intros H; by injection H as <-].
  destruct c; [discriminate|]. intros H. by injection H as <-.
Qed.

Lemma remove_get_Some sm k v :
  get sm k = Some v ->
  remove sm k = (mk_slotmap (<[idx k := mk_slot (Vacant (free_head sm))
                                      ((version k + 1) mod u32_limit)%N]> (slots sm))
                            (idx k) (num_elems sm - 1), Some v).
Proof.
  intros Hg. apply get_Some in Hg. unfold remove. rewrite Hg. simpl.
  by rewrite N.eqb_refl.
Qed.

Lemma remove_num_elems sm k sm' r : remove sm k = (sm', r) -> num_elems sm' <= num_elems sm.
Proof.
  unfold remove. destruct (slots sm !! idx k) as [[c ver]|]; [|intros H; by injection H as <-].
  simpl. destruct (ver =? version k)%N; [|intros H; by injection H as <-].
  destruct c; intros H; injection H as <-; simpl; lia.
Qed.

Lemma remove_get_None sm k : get sm k = None -> remove sm k = (sm, None).
Proof.
  unfold remove, get.
  destruct (slots sm !! idx k) as [[c ver]|]; [|done].
  simpl. destruct (ver =? version k)%N; [|done]. by destruct c.
Qed.

(** [sm[k] = v] on a valid key. *)
Lemma index_set_spec sm k v sm' :
  index_set sm k v = Ok sm' ->
  (exists o, get sm k = Some o) /\ get sm' k = Some v /\
  forall k', k' <> k -> get sm' k' = get sm k'.
Proof.
  unfold index_set. destruct (get sm k) as [o|] eqn:Hg; [|discriminate].
  pose proof Hg as Hg'. apply get_Some in Hg'. rewrite Hg'. intros H. injection H as <-.
  assert (Hlt : idx k < length (slots sm)) by (by apply lookup_lt_Some in Hg').
  split_and!; [eauto| |].
  - apply get_Some. simpl. by rewrite list_lookup_insert_eq.
  - intros k' Hne. destruct (decide (idx k' = idx k)) as [Hi|Hi].
    + pose proof (key_version_ne k k' Hi Hne) as Hkv.
      rewrite (get_None_version sm k' (mk_slot (Occupied o) (version k))) by (rewrite ?Hi; simpl; congruence).
      eapply get_None_version; [simpl; rewrite Hi; by apply list_lookup_insert_eq|].
      simpl. congruence.
    + apply get_slots. simpl. by rewrite list_lookup_insert_ne.
Qed.

Lemma index_set_ok sm k v o :
  get sm k = Some o ->
  index_set sm k v = Ok (mk_slotmap (<[idx k := mk_slot (Occupied v) (version k)]> (slots sm))
                                    (free_head sm) (num_elems sm)).
Proof.
  intros Hg. unfold index_set. rewrite Hg. apply get_Some in Hg. by rewrite Hg.
Qed.

(** ** [values_mut] and [iter] *)

Lemma try_map_slots_spec f ss ss' :
  try_map_slots f ss = Ok ss' ->
  length ss' = length ss /\
  forall i s, ss !! i = Some s ->
    match u s with
    | Vacant _ => ss' !! i = Some s
    | Occupied v => exists v', f v = Ok v' /\
                      ss' !! i = Some (mk_slot (Occupied v') (slot_version s))
    end.
Proof.
  revert ss'. induction ss as [|s ss IH]; intros ss' H; simpl in H.
  - injection H as <-. split; [done|]. by intros i s.
  - destruct (u s) as [v|m] eqn:Hu.
    + destruct (f v) as [v'|] eqn:Hf; [|discriminate]. simpl in H.
      destruct (try_map_slots f ss) as [ss''|] eqn:Hr; [|discriminate].
      simpl in H. injection H as <-.
      destruct (IH _ eq_refl) as [Hlen Hall]. simpl. split; [by rewrite Hlen|].
      intros [|i] s' Hs'; simpl in Hs'.
      * injection Hs' as <-. rewrite Hu. eauto.
      * by apply Hall.
    + destruct (try_map_slots f ss) as [ss''|] eqn:Hr; [|discriminate].
      simpl in H. injection H as <-.
      destruct (IH _ eq_refl) as [Hlen Hall]. simpl. split; [by rewrite Hlen|].
      intros [|i] s' Hs'; simpl in Hs'.
      * injection Hs' as <-. by rewrite Hu.
      * by apply Hall.
Qed.

Lemma values_try_map_inv f sm sm' :
  values_try_map f sm = Ok sm' ->
  exists ss, try_map_slots f (slots sm) = Ok ss /\ sm' = mk_slotmap ss (free_head sm) (num_elems sm).
Proof.
  unfold values_try_map. destruct (try_map_slots f (slots sm)) as [ss|]; [|discriminate].
  simpl. intros H. injection H as <-. eauto.
Qed.

Lemma values_try_map_get f sm sm' k :
  values_try_map f sm = Ok sm' ->
  (get sm k = None -> get sm' k = None) /\
  (forall v, get sm k = Some v -> exists v', f v = Ok v' /\ get sm' k = Some v').
Proof.
  intros (ss & H & ->)%values_try_map_inv.
  destruct (try_map_slots_spec f _ _ H) as [Hlen Hall]. split.
  - unfold get. simpl. destruct (slots sm !! idx k) as [s|] eqn:Hs.
    + pose proof (Hall _ _ Hs) as Hi. destruct (u s) as [v|m] eqn:Hu.
      * destruct Hi as (v' & _ & ->). simpl. by destruct (_ =? _)%N.
      * intros _. destruct s as [c ver]. simpl in Hu. subst c. rewrite Hi. simpl. by destruct (ver =? version k)%N.
    + intros _. rewrite lookup_ge_None_2; [done|]. apply lookup_ge_None in Hs. lia.
  - intros v Hg. apply get_Some in Hg. pose proof (Hall _ _ Hg) as (v' & Hf & Hs').
    exists v'. split; [done|]. by apply get_Some.
Qed.

(** [values_mut] with a body that succeeds on every live value runs to
    the end. *)
Lemma try_map_slots_ok f ss :
  (forall i s v, ss !! i = Some s -> u s = Occupied v -> exists v', f v = Ok v') ->
  exists ss', try_map_slots f ss = Ok ss'.
Proof.
  induction ss as [|s ss IH]; intros Hall; simpl; [eauto|].
  destruct IH as [ss' Hss']; [intros i s' v Hs'; apply (Hall (S i) s' v Hs')|].
  destruct (u s) as [v|m] eqn:Hu.
  - destruct (Hall 0 s v eq_refl Hu) as [v' ->]. simpl. rewrite Hss'. eauto.
  - rewrite Hss'. eauto.
Qed.

Lemma values_try_map_ok f sm :
  (forall k v, get sm k = Some v -> exists v', f v = Ok v') ->
  exists sm', values_try_map f sm = Ok sm'.
Proof.
  intros Hall. unfold values_try_map.
  destruct (try_map_slots_ok f (slots sm)) as [ss ->]; [|eauto].
  intros i [c ver] v Hs Hc. simpl in Hc. subst c.
  apply (Hall (mk_key i ver)). apply get_Some. done.
Qed.

Lemma values_try_map_wf f sm sm' : wf sm -> values_try_map f sm = Ok sm' -> wf sm'.
Proof.
  intros [[m0 Hsent] (l & Hc & Hnd & Hvac) Hpar Hbnd] (x & H & ->)%values_try_map_inv.
  destruct (try_map_slots_spec f _ _ H) as [Hlen Hall].
  (* every slot of the result comes from the slot at the same index *)
  assert (Hback : forall i s', x !! i = Some s' -> exists s, slots sm !! i = Some s /\
            slot_version s' = slot_version s /\ (vacant s' <-> vacant s) /\
            (vacant s -> s' = s)).
  { intros i s' Hs'. destruct (slots sm !! i) as [s|] eqn:Hs.
    - exists s. pose proof (Hall _ _ Hs) as Hi. unfold vacant.
      destruct (u s) as [v|m] eqn:Hu.
      + destruct Hi as (v' & _ & Hi). rewrite Hi in Hs'. injection Hs' as <-. simpl.
        split_and!; [done|done|done|intros []].
      + rewrite Hi in Hs'. injection Hs' as <-. rewrite Hu. done.
    - apply lookup_ge_None in Hs. apply lookup_lt_Some in Hs'. lia. }
  split; simpl.
  - exists m0. pose proof (Hall _ _ Hsent) as Hi. done.
  - exists l. split_and!; [|done|].
    + apply (free_chain_stable (slots sm)); [done|done|].
      intros i Hi. destruct (free_chain_vacant _ _ _ _ Hc Hi) as (m & ver & Hs).
      rewrite Hs. exact (Hall _ _ Hs).
    + intros i s' Hi Hs'. destruct (Hback i s' Hs') as (s & Hs & _ & Hv & _).
      rewrite Hv. by apply Hvac.
  - intros i s' Hs'. destruct (Hback i s' Hs') as (s & Hs & Hver & Hv & _).
    rewrite Hv, Hver. by apply (Hpar i).
  - intros i s' Hs'. destruct (Hback i s' Hs') as (s & Hs & Hver & _).
    rewrite Hver. by apply (Hbnd i).
Qed.

Lemma iter_from_In n ss k v :
  In (k, v) (iter_from n ss) <->
  n <= idx k /\ ss !! (idx k - n) = Some (mk_slot (Occupied v) (version k)).
Proof.
  revert n. induction ss as [|s ss IH]; intros n; simpl.
  - split; [done|]. intros [_ H]. by rewrite lookup_nil in H.
  - destruct s as [[w|m] ver]; simpl.
    + rewrite IH. split.
      * intros [Heq|[Hle Hs]].
        -- injection Heq as <- <-. simpl. rewrite Nat.sub_diag. done.
        -- split; [lia|]. replace (idx k - n) with (S (idx k - S n)) by lia. done.
      * intros [Hle Hs]. destruct (decide (idx k = n)) as [Heq|Hne].
        -- left. rewrite Heq, Nat.sub_diag in Hs. simpl in Hs. injection Hs as -> ->.
           destruct k. simpl in *. by subst.
        -- right. split; [lia|]. replace (idx k - n) with (S (idx k - S n)) in Hs by lia. done.
    + rewrite IH. split.
      * intros [Hle Hs]. split; [lia|]. replace (idx k - n) with (S (idx k - S n)) by lia. done.
      * intros [Hle Hs]. destruct (decide (idx k = n)) as [Heq|Hne].
        -- rewrite Heq, Nat.sub_diag in Hs. discriminate.
        -- split; [lia|]. replace (idx k - n) with (S (idx k - S n)) in Hs by lia. done.
Qed.

(** [iter] lists exactly the valid keys with their values. *)
Lemma iter_In sm k v : In (k, v) (iter sm) <-> get sm k = Some v.
Proof.
  unfold iter. rewrite iter_from_In, get_Some, Nat.sub_0_r. split; [by intros [_ ?]|].
  intros H. split; [lia|done].
Qed.

Lemma iter_from_keys_above n ss k v : In (k, v) (iter_from n ss) -> n <= idx k.
Proof. rewrite iter_from_In. by intros [? _]. Qed.

(** [iter] never lists a key twice. *)
Lemma iter_from_NoDup n ss : NoDup (map (fun e => idx (fst e)) (iter_from n ss)).
Proof.
  revert n. induction ss as [|s ss IH]; intros n; simpl; [constructor|].
  destruct (u s); simpl; [|done]. constructor; [|done].
  intros Hin. apply list_elem_of_In, in_map_iff in Hin as ([k w] & Heq & Hin).
  apply iter_from_keys_above in Hin. simpl in *. lia.
Qed.
(** ** Sums over the values *)

Lemma slot_val_occupied f v ver : slot_val f (mk_slot (Occupied v) ver) = f v.
Proof. reflexivity. Qed.

Lemma slot_val_vacant f m ver : slot_val f (mk_slot (Vacant m) ver) = 0.
Proof. reflexivity. Qed.

Lemma occ_sum_values_from f n ss :
  sum_list_with (slot_val f) ss = sum_list_with f (map snd (iter_from n ss)).
Proof.
  revert n. induction ss as [|s ss IH]; intros n; [done|]. simpl.
  unfold slot_val at 1. destruct (u s); simpl; by rewrite (IH (S n)).
Qed.

Lemma occ_sum_values f sm : occ_sum f sm = sum_list_with f (values sm).
Proof. apply occ_sum_values_from. Qed.

(** [SlotMap::new()] has no live key. *)
Lemma get_new k : get new k = None.
Proof. unfold get. simpl. destruct (idx k) as [|[|]]; simpl; [by case_match|done|done]. Qed.

(** A map with no live key sums to 0. *)
Lemma occ_sum_no_live f sm : (forall k, get sm k = None) -> occ_sum f sm = 0.
Proof.
  intros Hnone. rewrite occ_sum_values. unfold values.
  destruct (iter sm) as [|[k v] l] eqn:E; [done|]. exfalso.
  assert (Hin : In (k, v) (iter sm)) by (rewrite E; by left).
  apply iter_In in Hin. by rewrite Hnone in Hin.
Qed.

Lemma occ_sum_insert f sm v sm' k :
  wf sm -> insert sm v = Ok (sm', k) -> occ_sum f sm' = occ_sum f sm + f v.
Proof.
  intros Hwf Hins. unfold insert in Hins. destruct (_ =? u32_max)%N; [discriminate|].
  unfold occ_sum. destruct (free_head_cases sm Hwf)
    as [[Hnone _]|(m & ver & l & _ & Hslot & _)].
  - rewrite Hnone in Hins. injection Hins as <- _. simpl.
    rewrite sum_list_with_app. simpl. rewrite slot_val_occupied. lia.
  - rewrite Hslot in Hins. injection Hins as <- _. simpl.
    pose proof (sum_list_with_insert (slot_val f) _ _ _
      (mk_slot (Occupied v) (N.lor ver 1)) Hslot) as H.
    rewrite slot_val_occupied, slot_val_vacant in H. lia.
Qed.

Lemma occ_sum_remove f sm k sm' v :
  remove sm k = (sm', Some v) -> occ_sum f sm = occ_sum f sm' + f v.
Proof.
  intros Hrem. destruct (remove_some _ _ _ _ Hrem) as (Hg & _).
  rewrite (remove_get_Some _ _ _ Hg) in Hrem. injection Hrem as <-.
  apply get_Some in Hg. unfold occ_sum. simpl.
  pose proof (sum_list_with_insert (slot_val f) _ _ _
    (mk_slot (Vacant (free_head sm)) ((version k + 1) mod u32_limit)%N) Hg) as H.
  rewrite slot_val_occupied, slot_val_vacant in H. lia.
Qed.

Lemma occ_sum_index_set f sm k v sm' o :
  index_set sm k v = Ok sm' -> get sm k = Some o ->
  occ_sum f sm' + f o = occ_sum f sm + f v.
Proof.
  intros Hset Hg. pose proof (index_set_ok _ _ v _ Hg) as Hok.
  rewrite Hset in Hok. injection Hok as ->. apply get_Some in Hg.
  unfold occ_sum. simpl.
  pose proof (sum_list_with_insert (slot_val f) _ _ _
    (mk_slot (Occupied v) (version k)) Hg) as H. by rewrite !slot_val_occupied in H.
Qed.

Lemma occ_sum_try_map f g ss ss' :
  (forall v v', g v = Ok v' -> f v' = f v) -> try_map_slots g ss = Ok ss' ->
  sum_list_with (slot_val f) ss' = sum_list_with (slot_val f) ss.
Proof.
  intros Hg. revert ss'. induction ss as [|s ss IH]; intros ss' H; simpl in H.
  - by injection H as <-.
  - destruct (u s) as [v|m] eqn:Hu.
    + destruct (g v) as [v'|] eqn:Hv; [|discriminate]. simpl in H.
      destruct (try_map_slots g ss) as [ss''|]; [|discriminate]. simpl in H.
      injection H as <-. simpl. unfold slot_val at 1 3. rewrite Hu. simpl.
      rewrite (Hg _ _ Hv), (IH ss'') by done. done.
    + destruct (try_map_slots g ss) as [ss''|]; [|discriminate]. simpl in H.
      injection H as <-. simpl. by rewrite (IH ss'').
Qed.

Lemma occ_sum_values_try_map f g sm sm' :
  (forall v v', g v = Ok v' -> f v' = f v) -> values_try_map g sm = Ok sm' ->
  occ_sum f sm' = occ_sum f sm.
Proof.
  intros Hg H. unfold values_try_map in H.
  destruct (try_map_slots g (slots sm)) as [ss|] eqn:Hss; [|discriminate].
  simpl in H. injection H as <-. unfold occ_sum. simpl. by eapply occ_sum_try_map.
Qed.

(** ** Theorems *)

(** every operation that changes a slotmap keeps it well formed:
    the sentinel, the free chain, odd versions exactly on occupied
    slots, and the bounds. *)
Theorem slotmap_wf_preserved sm :
  wf sm ->
  (forall v sm' k, insert sm v = Ok (sm', k) -> wf sm') /\
  (forall k sm' r, remove sm k = (sm', r) -> wf sm') /\
  (forall k v sm', index_set sm k v = Ok sm' -> wf sm') /\
  (forall f sm', values_try_map f sm = Ok sm' -> wf sm').
Proof.
  intros Hwf. split_and!; intros *; [apply insert_wf|apply remove_wf|apply index_set_wf|
    apply values_try_map_wf]; done.
Qed.

(** insert then remove is a round trip: the new key reads the value,
    [remove] returns it, and afterwards the key is invalid and every other
    key reads what it read before the insert. *)
Theorem insert_remove_roundtrip sm v sm1 k :
  wf sm -> insert sm v = Ok (sm1, k) ->
  get sm1 k = Some v /\ get sm k = None /\
  exists sm2, remove sm1 k = (sm2, Some v) /\ get sm2 k = None /\
    forall k', k' <> k -> get sm2 k' = get sm k'.
Proof.
  intros Hwf Hins. pose proof (insert_new _ _ _ _ Hins) as Hnew.
  split_and!; [done|by eapply insert_fresh|].
  eexists. split; [by apply remove_get_Some|].
  destruct (remove_some sm1 k _ v (remove_get_Some _ _ _ Hnew)) as (_ & Hgone & Hother).
  split; [done|]. intros k' Hne. rewrite Hother by done. by eapply insert_other.
Qed.
End Ops.

(** ** Witnesses *)

Lemma slotmap_wf_preserved_witness :
  wf (@new nat) /\ forall v sm' k, insert (@new nat) v = Ok (sm', k) -> wf sm'.
Proof.
  split; [exact wf_new|]. apply (slotmap_wf_preserved (@new nat) wf_new).
Defined.

Lemma insert_remove_roundtrip_witness :
  exists sm1 k, insert (@new nat) 7 = Ok (sm1, k) /\ get sm1 k = Some 7 /\
    exists sm2, remove sm1 k = (sm2, Some 7) /\ get sm2 k = None.
Proof.
  destruct (insert (@new nat) 7) as [[sm1 k]|] eqn:E; [|discriminate].
  destruct (insert_remove_roundtrip new 7 sm1 k wf_new E) as (H1 & _ & sm2 & H2 & H3 & _).
  exists sm1, k. split_and!; [done|exact H1|]. exists sm2. split; [exact H2|exact H3].
Defined.

End SlotMap.
