(* ===== verification/Gpu.v ===== *)
(** * The device side and the [GpuMemory] trait ([src/src/lib.rs])

    wgpu is an external collaborator.  A [Buffer] is its usage flags, its
    size and its bytes.  A [Gpu] is the log of the calls the allocator made
    on the queue and the device: [write_buffer], [create_buffer_init] and
    [create_buffer].  That log is what "the second upload performs no
    transfer" is stated about.  [create_buffer_init] rounds the size up to
    [COPY_BUFFER_ALIGNMENT] (4) with the mask arithmetic wgpu uses, as
    documented by wgpu.

    [upload_or_resize] is the one function of [lib.rs] outside the trait.
    The trait itself is the [Class] [GpuMemory].  Its methods take the
    allocator state and return the new state, because every [&mut self]
    method is modelled by passing the state explicitly.  [is_empty] and
    [size] are its provided methods.  [gm_step] is the step relation of a
    client the trait allows: it calls the methods on indices it holds, and
    clones or forgets indices.

    The theorems: the padding rounds up to a multiple of 4, and
    [upload_or_resize] keeps a buffer well formed ([buf_wf]: exactly
    [size] bytes), at least as long as the data, holding the data at its
    start. *)

From S2P Require Import Prelude.

Module Gpu.

(** [wgpu::BufferUsages::COPY_DST] and [wgpu::COPY_BUFFER_ALIGNMENT]. *)
Definition COPY_DST : N := 8%N.
Definition COPY_BUFFER_ALIGNMENT : N := 4%N.

Record Buffer := mk_buffer {
  buf_usage : N;
  buf_size : N;
  buf_contents : list byte;
}.

(** The calls the allocator makes on the device and the queue. *)
Inductive Call :=
  | WriteBuffer (offset : N) (len : nat)
  | CreateBufferInit (size : N)
  | CreateBuffer (size : N).

#[export] Instance call_eq_dec : EqDecision Call.
Proof. solve_decision. Defined.

Record Gpu := mk_gpu { calls : list Call }.

Definition log_call (g : Gpu) (c : Call) : Gpu := mk_gpu (calls g ++ [c]).

(** [device.create_buffer]: a zero-filled buffer of the given size. *)
Definition create_buffer (g : Gpu) (size usage : N) : Gpu * Buffer :=
  (log_call g (CreateBuffer size),
   mk_buffer usage size (repeat Byte.x00 (N.to_nat size))).

(** The size [create_buffer_init] allocates:
    [((unpadded + align_mask) & !align_mask).max(COPY_BUFFER_ALIGNMENT)],
    and 0 for empty contents. *)
Definition padded_size (unpadded : N) : N :=
  if (unpadded =? 0)%N then 0%N
  else
    let align_mask := (COPY_BUFFER_ALIGNMENT - 1)%N in
    N.max (N.land (unpadded + align_mask) (N.lxor (N.ones 64) align_mask)) COPY_BUFFER_ALIGNMENT.

(** [device.create_buffer_init]: a buffer holding [contents], padded with
    zeros up to [padded_size]. *)
Definition create_buffer_init (g : Gpu) (usage : N) (contents : list byte) : Gpu * Buffer :=
  let size := padded_size (N.of_nat (length contents)) in
  (log_call g (CreateBufferInit size),
   mk_buffer usage size (contents ++ repeat Byte.x00 (N.to_nat size - length contents))).

(** [queue.write_buffer(buffer, 0, data)]: the first bytes are replaced. *)
Definition write_buffer (g : Gpu) (b : Buffer) (data : list byte) : Gpu * Buffer :=
  (log_call g (WriteBuffer 0 (length data)),
   mk_buffer (buf_usage b) (buf_size b) (data ++ drop (length data) (buf_contents b))).

(** [pub fn upload_or_resize(queue, device, buffer, data)] *)
Definition upload_or_resize (g : Gpu) (buffer : Buffer) (data : list byte) : Gpu * Buffer :=
  if (N.of_nat (length data) <=? buf_size buffer)%N
  then write_buffer g buffer data
  else create_buffer_init g (buf_usage buffer) data.

(** A buffer holds exactly [size] bytes. *)
Definition buf_wf (b : Buffer) : Prop := length (buf_contents b) = N.to_nat (buf_size b).

#[export] Instance buf_wf_dec b : Decision (buf_wf b).
Proof. unfold buf_wf. apply _. Defined.

(** ** The [GpuMemory<T>] trait

    [M] is the implementing type, [Index] and [Strategy] its associated
    types.  [T] enters only through [size_of::<T>()], the parameter
    [elem_size] of the provided method [size]. *)
Class GpuMemory (M Index Strategy : Type) := {
  gm_new : N -> Gpu -> Gpu * M;
  gm_mutated : M -> bool;
  gm_allocate : M -> nat -> Res (M * Index);
  gm_get : M -> Index -> Res (M * list byte);
  gm_len : M -> nat;
  gm_len_of : M -> Index -> Res nat;
  gm_resize : M -> Index -> nat -> Res (M * Index);
  gm_free : M -> Index -> Res M;
  gm_upload : M -> Gpu -> Res (M * Gpu);
  gm_optimize : M -> Strategy -> Gpu -> Res (M * Gpu);
  gm_buffer : M -> Buffer;
}.

Section Provided.
Context `{GpuMemory M Index Strategy}.

(** [fn is_empty(&self) -> bool { self.len() == 0 }] *)
Definition is_empty (m : M) : bool := gm_len m =? 0.

(** [fn size(&self) -> usize { self.len() * size_of::<T>() }] *)
Definition size (elem_size : nat) (m : M) : Res nat := usize_mul (gm_len m) elem_size.

(** The calls a client makes, with the arguments it passes. *)
Inductive gm_call :=
  | GmAllocate (count : nat)
  | GmClone (i : Index)
  | GmForget (i : Index)
  | GmFree (i : Index)
  | GmResize (i : Index) (n : nat)
  | GmGet (i : Index)
  | GmUpload (g : Gpu)
  | GmOptimize (st : Strategy) (g : Gpu).

(** A client of [M] as the trait's contract allows it, one call at a
    time, labelled with the call and its arguments: the client holds
    indices, which are [Clone], and calls the trait's methods on the
    indices it holds.  It may clone an index it holds, and may drop
    (forget) one without freeing it.  [free] and [resize] consume the
    index passed to them; [resize] gives back the updated one. *)
Inductive gm_step : gm_call -> M * list Index -> M * list Index -> Prop :=
  | gm_step_allocate m ixs count m' i :
      gm_allocate m count = Ok (m', i) -> gm_step (GmAllocate count) (m, ixs) (m', i :: ixs)
  | gm_step_clone m ixs i : In i ixs -> gm_step (GmClone i) (m, ixs) (m, i :: ixs)
  | gm_step_forget m ixs1 i ixs2 : gm_step (GmForget i) (m, ixs1 ++ i :: ixs2) (m, ixs1 ++ ixs2)
  | gm_step_free m ixs1 i ixs2 m' :
      gm_free m i = Ok m' -> gm_step (GmFree i) (m, ixs1 ++ i :: ixs2) (m', ixs1 ++ ixs2)
  | gm_step_resize m ixs1 i ixs2 n m' i' :
      gm_resize m i n = Ok (m', i') ->
      gm_step (GmResize i n) (m, ixs1 ++ i :: ixs2) (m', ixs1 ++ i' :: ixs2)
  | gm_step_get m ixs i m' v :
      In i ixs -> gm_get m i = Ok (m', v) -> gm_step (GmGet i) (m, ixs) (m', ixs)
  | gm_step_upload m ixs g m' g' :
      gm_upload m g = Ok (m', g') -> gm_step (GmUpload g) (m, ixs) (m', ixs)
  | gm_step_optimize m ixs st g m' g' :
      gm_optimize m st g = Ok (m', g') -> gm_step (GmOptimize st g) (m, ixs) (m', ixs).
End Provided.

(** ** Padding of [create_buffer_init] *)

(** Clearing the two low bits of a 64-bit value with the mask
    [!(COPY_BUFFER_ALIGNMENT - 1)] rounds it down to a multiple of 4. *)
Lemma land_align_mask x :
  (x < 2 ^ 64)%N -> N.land x (N.lxor (N.ones 64) 3) = (x / 4 * 4)%N.
Proof.
  intros Hx. apply N.bits_inj_iff. intros i.
  rewrite N.land_spec, N.lxor_spec.
  replace (x / 4 * 4)%N with (N.shiftl (N.shiftr x 2) 2)
    by (rewrite N.shiftl_mul_pow2, N.shiftr_div_pow2; reflexivity).
  destruct (N.lt_ge_cases i 2) as [Hi|Hi].
  - rewrite N.shiftl_spec_low, N.ones_spec_low by lia.
    assert (i = 0 \/ i = 1)%N as [->| ->] by lia; simpl; by rewrite andb_false_r.
  - rewrite N.shiftl_spec_high, N.shiftr_spec by lia.
    replace (i - 2 + 2)%N with i by lia.
    rewrite (N.bits_above_log2 3 i) by (change (N.log2 3) with 1%N; lia).
    destruct (N.lt_ge_cases i 64) as [H64|H64].
    + rewrite N.ones_spec_low by lia. by rewrite andb_true_r.
    + rewrite N.ones_spec_high by lia. destruct (N.eq_dec x 0) as [->|Hx0]; [reflexivity|].
      assert (N.log2 x < 64)%N by (apply N.log2_lt_pow2; lia).
      rewrite N.bits_above_log2; [reflexivity|lia].
Qed.

(** The padded size of non-empty contents is their length rounded up to a
    multiple of [COPY_BUFFER_ALIGNMENT]: a multiple of 4, at least the
    length, and less than 4 bytes more. *)
Theorem padded_size_spec n :
  (0 < n)%N -> (n + 3 < 2 ^ 64)%N ->
  padded_size n = ((n + 3) / 4 * 4)%N /\ (padded_size n mod 4 = 0)%N /\
  (n <= padded_size n < n + 4)%N.
Proof.
  intros Hn Hlim. unfold padded_size, COPY_BUFFER_ALIGNMENT.
  replace (n =? 0)%N with false by (symmetry; apply N.eqb_neq; lia).
  replace (4 - 1)%N with 3%N by reflexivity.
  rewrite land_align_mask by done.
  pose proof (N.div_mod (n + 3) 4 ltac:(lia)) as Hdm.
  pose proof (N.mod_lt (n + 3) 4 ltac:(lia)) as Hlt.
  rewrite N.max_l; [split; [reflexivity|split; [apply N.Div0.mod_mul|]]|];
    remember ((n + 3) / 4)%N as q; remember ((n + 3) mod 4)%N as r; lia.
Qed.

Lemma padded_size_spec_witness :
  (0 < 5)%N /\ (5 + 3 < 2 ^ 64)%N /\ padded_size 5 = 8%N /\ (5 <= padded_size 5 < 9)%N.
Proof.
  assert (H0 : (0 < 5)%N) by lia. assert (H1 : (5 + 3 < 2 ^ 64)%N) by concrete.
  destruct (padded_size_spec 5 H0 H1) as (Hp & _ & Hb).
  split; [exact H0|]. split; [exact H1|]. split; [exact Hp|exact Hb].
Defined.

(** ** Bounds of [upload_or_resize] *)

Lemma create_buffer_init_wf g u d :
  0 < length d -> (N.of_nat (length d) + 3 < 2 ^ 64)%N ->
  buf_wf (snd (create_buffer_init g u d)) /\
  (N.of_nat (length d) <= buf_size (snd (create_buffer_init g u d)))%N /\
  (buf_size (snd (create_buffer_init g u d)) < N.of_nat (length d) + 4)%N /\
  (buf_size (snd (create_buffer_init g u d)) mod 4 = 0)%N /\
  take (length d) (buf_contents (snd (create_buffer_init g u d))) = d.
Proof.
  intros Hd Hlim. unfold create_buffer_init, buf_wf; simpl.
  destruct (padded_size_spec (N.of_nat (length d))) as (_ & Hm & Hb); [lia|done|].
  split_and!; [|lia|lia|done|by rewrite take_app_length].
  rewrite length_app, repeat_length. lia.
Qed.

(** C29: [upload_or_resize] leaves a well-formed buffer that holds [data]
    at its start.  The buffer never shrinks below the data.  When it had
    to grow, its new size is [data.len()] rounded up to
    [COPY_BUFFER_ALIGNMENT]: a multiple of 4, less than 4 bytes past the
    data. *)
Theorem upload_or_resize_bounds g b d :
  buf_wf b -> (N.of_nat (length d) + 3 < 2 ^ 64)%N ->
  buf_wf (snd (upload_or_resize g b d)) /\
  (N.of_nat (length d) <= buf_size (snd (upload_or_resize g b d)))%N /\
  take (length d) (buf_contents (snd (upload_or_resize g b d))) = d /\
  ((buf_size b < N.of_nat (length d))%N ->
     (buf_size (snd (upload_or_resize g b d)) mod 4 = 0)%N /\
     (buf_size (snd (upload_or_resize g b d)) < N.of_nat (length d) + 4)%N).
Proof.
  intros Hwf Hlim. unfold upload_or_resize.
  destruct (N.leb_spec (N.of_nat (length d)) (buf_size b)) as [Hle|Hgt].
  - unfold write_buffer, buf_wf in *; simpl. rewrite take_app_length.
    split_and!; [|lia|done|lia]. rewrite length_app, length_drop. lia.
  - destruct (create_buffer_init_wf g (buf_usage b) d) as (? & ? & ? & ? & ?); [lia|done|].
    split_and!; done || lia.
Qed.

Lemma upload_or_resize_bounds_witness :
  buf_wf (mk_buffer 0 4 [Byte.x01; Byte.x02; Byte.x03; Byte.x04]) /\
  (N.of_nat (length (repeat Byte.x07 5)) + 3 < 2 ^ 64)%N /\
  buf_wf (snd (upload_or_resize (mk_gpu []) (mk_buffer 0 4 [Byte.x01; Byte.x02; Byte.x03; Byte.x04])
                 (repeat Byte.x07 5))) /\
  buf_size (snd (upload_or_resize (mk_gpu []) (mk_buffer 0 4 [Byte.x01; Byte.x02; Byte.x03; Byte.x04])
                   (repeat Byte.x07 5))) = 8%N.
Proof.
  assert (Hwf : buf_wf (mk_buffer 0 4 [Byte.x01; Byte.x02; Byte.x03; Byte.x04])) by reflexivity.
  assert (Hlim : (N.of_nat (length (repeat Byte.x07 5)) + 3 < 2 ^ 64)%N) by concrete.
  destruct (upload_or_resize_bounds (mk_gpu []) _ (repeat Byte.x07 5) Hwf Hlim) as (Hwf' & _).
  split_and!; [exact Hwf|exact Hlim|exact Hwf'|concrete].
Defined.

End Gpu.
