(* ===== verification/Simple.v ===== *)
(** * [SimpleGpuMemory<T>] ([src/src/simple.rs])

    The state is the record [SimpleGpuMemory], one field per field of the
    Rust struct ([_phantom] aside).  Every method is a function of the state
    that returns the new state, or a [Res] when the method can panic.  The
    [Section] variable [elem_size] is [size_of::<T>()].  Each definition
    follows its Rust method statement by statement: the checked [usize]
    arithmetic, the [SlotMap] indexing that panics, the [Vec] operations.

    [write_elem] is not a method.  It models what callers do with the slice
    [get] returns, [mem.get(&index)[i] = value], as the repository's tests
    do.

    [sorted_by_key] models [Itertools::sorted_by_key], a stable sort; it is
    library code.  The sort key is [range.len() as isize], negated for the
    descending order.  The negation cannot overflow because no range is
    longer than [isize::MAX] bytes, the largest a [Vec] can be.

    [strategy_default] and [strategy_fmt] are the derived [Default] and the
    text [impl Display for Strategy] writes. *)

From stdpp Require Import strings.
From S2P Require Import Prelude Range FreeList SlotMap Gpu.
Import FreeList SlotMap Gpu.

Module Simple.

(** [enum Strategy { Truncate, SortSizeDescending, SortSizeAscending }] *)
Inductive Strategy := Truncate | SortSizeDescending | SortSizeAscending.

#[export] Instance strategy_eq_dec : EqDecision Strategy.
Proof. solve_decision. Defined.

(** [#[derive(Default)]] with [#[default] Truncate]. *)
Definition strategy_default : Strategy := Truncate.

(** [impl Display for Strategy]: the text [fmt] writes. *)
Definition strategy_fmt (st : Strategy) : string :=
  match st with
  | Truncate => "Truncate"
  | SortSizeDescending => "SortSizeDescending"
  | SortSizeAscending => "SortSizeAscending"
  end.

(** [pub type AddressId = DefaultKey] *)
Definition AddressId := KeyData.

Record SimpleGpuMemory := mk_mem {
  buffer : Buffer;
  data : list byte;
  available_ranges : list AddressRange;
  used_ranges : SlotMap AddressRange;
  allocated_count : nat;
  mutated : bool;
}.

(** Functional updates of single fields. *)
Definition set_mutated (s : SimpleGpuMemory) (b : bool) : SimpleGpuMemory :=
  mk_mem (buffer s) (data s) (available_ranges s) (used_ranges s) (allocated_count s) b.

(** [range.len() as isize]: the two's-complement reading of a [usize]. *)
Definition as_isize (n : nat) : Z :=
  let z := (Z.of_nat n mod 2 ^ 64)%Z in
  if (z <? 2 ^ 63)%Z then z else (z - 2 ^ 64)%Z.

(** [_sort_asc] and [_sort_desc] *)
Definition sort_key (descending : bool) (e : AddressId * AddressRange) : Z :=
  if descending then Z.opp (as_isize (len (snd e))) else as_isize (len (snd e)).

(** [Itertools::sorted_by_key]: a stable sort by key.  Each element is
    inserted after every element whose key is not greater. *)
Fixpoint insert_by_key {A} (key : A -> Z) (x : A) (l : list A) : list A :=
  match l with
  | [] => [x]
  | y :: l' => if (key y <=? key x)%Z then y :: insert_by_key key x l' else x :: l
  end.

Definition sorted_by_key {A} (key : A -> Z) (l : list A) : list A :=
  fold_left (fun acc x => insert_by_key key x acc) l [].

Section WithElemSize.
Variable elem_size : nat.

(** [fn new(usages, device) -> Self] *)
Definition new (usages : N) (g : Gpu) : Gpu * SimpleGpuMemory :=
  let '(g', buf) := create_buffer g (N.of_nat elem_size) (N.lor usages COPY_DST) in
  (g', mk_mem buf [] [] SlotMap.new 0 false).

(** [fn len(&self) -> usize] *)
Definition len_ (s : SimpleGpuMemory) : nat := allocated_count s.

(** [fn mutated(&self) -> bool] and [fn buffer(&self) -> &wgpu::Buffer]:
    the fields, read. *)
Definition mutated_ (s : SimpleGpuMemory) : bool := mutated s.
Definition buffer_ (s : SimpleGpuMemory) : Buffer := buffer s.

(** The range [allocate] hands out, with the new [data] and free list:
    the last free range long enough, split from its tail, or new bytes. *)
Definition take_range (size : nat) (data : list byte) (ar : list AddressRange)
    : Res (list byte * list AddressRange * AddressRange) :=
  match rposition_find (fun r => size <=? len r) ar with
  | Some range_index =>
      match ar !! range_index with
      | Some r =>
          if negb (len r =? size) then
            new_end <- usize_sub (end_ r) size ;;
            Ok (data, <[range_index := start r ..< new_end]> ar, new_end ..< end_ r)
          else Ok (data, vec_remove range_index ar, r)
      | None => Panicked IndexOutOfBounds
      end
  | None =>
      let start := length data in
      guard (N.of_nat (start + size) <=? isize_max)%N CapacityOverflow ;;;
      let data' := data ++ repeat Byte.x00 size in
      Ok (data', ar, start ..< length data')
  end.

(** [fn allocate(&mut self, count: usize) -> Self::Index] *)
Definition allocate (s : SimpleGpuMemory) (count : nat) : Res (SimpleGpuMemory * AddressId) :=
  size <- usize_mul elem_size count ;;
  x <- take_range size (data s) (available_ranges s) ;;
  let '(data', ar', range) := x in
  allocated_count' <- usize_add (allocated_count s) count ;;
  y <- SlotMap.insert (used_ranges s) range ;;
  let '(used', key) := y in
  Ok (mk_mem (buffer s) data' ar' used' allocated_count' true, key).

(** [fn get(&mut self, index) -> &mut [T]]: the bytes of the view.  The
    guard is the length test of [bytemuck::cast_slice_mut] (a non-zero
    [size_of::<T>()] dividing the length).  Its first test, that the
    pointer [data.as_ptr() + range.start] is aligned to [align_of::<T>()],
    is not modelled: the model has no addresses.  So a [get] that panics
    on a misaligned pointer in Rust, such as a zero-length range of a
    [data] that never allocated (dangling pointer [0x1]), returns [Ok]
    here. *)
Definition get (s : SimpleGpuMemory) (index : AddressId) : Res (SimpleGpuMemory * list byte) :=
  range <- SlotMap.index (used_ranges s) index ;;
  view <- slice_range (start range) (end_ range) (data s) ;;
  guard (negb (elem_size =? 0) && (length view mod elem_size =? 0)) CastSlice ;;;
  Ok (set_mutated s true, view).

(** [mem.get(&index)[i] = value]: the caller's write of one element,
    [value] being the [size_of::<T>()] bytes of a [T]. *)
Definition write_elem (s : SimpleGpuMemory) (index : AddressId) (i : nat) (value : list byte)
    : Res SimpleGpuMemory :=
  x <- get s index ;;
  let '(s', view) := x in
  guard (i <? length view / elem_size) IndexOutOfBounds ;;;
  range <- SlotMap.index (used_ranges s') index ;;
  let off := start range + i * elem_size in
  Ok (mk_mem (buffer s') (take off (data s') ++ value ++ drop (off + elem_size) (data s'))
             (available_ranges s') (used_ranges s') (allocated_count s') (mutated s')).

(** [fn len_of(&self, index) -> usize] *)
Definition len_of (s : SimpleGpuMemory) (index : AddressId) : Res nat :=
  range <- SlotMap.index (used_ranges s) index ;;
  usize_div (len range) elem_size.

(** [fn free(&mut self, index)] *)
Definition free (s : SimpleGpuMemory) (index : AddressId) : Res SimpleGpuMemory :=
  match SlotMap.remove (used_ranges s) index with
  | (used', Some range) =>
      c <- usize_div (len range) elem_size ;;
      allocated_count' <- usize_sub (allocated_count s) c ;;
      Ok (mk_mem (buffer s) (data s) (make_range_available range (available_ranges s))
                 used' allocated_count' true)
  | (_, None) => Ok (set_mutated s true)
  end.

(** [fn resize(&mut self, index: &mut Self::Index, len: usize)] *)
Definition resize (s : SimpleGpuMemory) (index : AddressId) (len' : nat)
    : Res (SimpleGpuMemory * AddressId) :=
  size <- usize_mul len' elem_size ;;
  range <- SlotMap.index (used_ranges s) index ;;
  match Nat.compare (len range) size with
  | Lt =>
      s1 <- free s index ;;
      allocate s1 len'
  | Eq => Ok (s, index)
  | Gt =>
      free_end <- usize_sub (end_ range) size ;;
      let free_range := start range ..< free_end in
      c <- usize_div (len free_range) elem_size ;;
      allocated_count' <- usize_sub (allocated_count s) c ;;
      let ar' := make_range_available free_range (available_ranges s) in
      new_start <- usize_sub (end_ range) size ;;
      cur <- SlotMap.index (used_ranges s) index ;;
      used' <- SlotMap.index_set (used_ranges s) index (new_start ..< end_ cur) ;;
      Ok (mk_mem (buffer s) (data s) ar' used' allocated_count' true, index)
  end.

(** The body of the inner loop of [fix_sequence], for one used range. *)
Definition shift_if_after (range : AddressRange) (range_len : nat) (used_range : AddressRange)
    : Res AddressRange :=
  if end_ range <=? start used_range then
    st <- usize_sub (start used_range) range_len ;;
    en <- usize_sub (end_ used_range) range_len ;;
    Ok (st ..< en)
  else Ok used_range.

(** The outer loop of [fix_sequence], over the drained free ranges. *)
Fixpoint fix_sequence_loop (rs : list AddressRange) (used : SlotMap AddressRange)
    (data : list byte) : Res (SlotMap AddressRange * list byte) :=
  match rs with
  | [] => Ok (used, data)
  | range :: rs' =>
      used' <- values_try_map (shift_if_after range (len range)) used ;;
      data' <- vec_drain (start range) (end_ range) data ;;
      fix_sequence_loop rs' used' data'
  end.

(** [fn fix_sequence(&mut self)]: the free ranges in reverse order. *)
Definition fix_sequence (s : SimpleGpuMemory) : Res SimpleGpuMemory :=
  x <- fix_sequence_loop (rev (available_ranges s)) (used_ranges s) (data s) ;;
  let '(used', data') := x in
  Ok (mk_mem (buffer s) data' [] used' (allocated_count s) (mutated s)).

(** [fn size(&self)], the provided method at this type. *)
Definition size_ (s : SimpleGpuMemory) : Res nat := usize_mul (allocated_count s) elem_size.

(** The loop of [sort]: copy each range's bytes to the end of [new_data]
    and point its key at the copy. *)
Fixpoint sort_loop (data : list byte) (sorted : list (AddressId * AddressRange))
    (used : SlotMap AddressRange) (new_data : list byte)
    : Res (SlotMap AddressRange * list byte) :=
  match sorted with
  | [] => Ok (used, new_data)
  | (key, range) :: sorted' =>
      let st := length new_data in
      bytes <- slice_range (start range) (end_ range) data ;;
      let new_data' := new_data ++ bytes in
      used' <- SlotMap.index_set used key (st ..< length new_data') ;;
      sort_loop data sorted' used' new_data'
  end.

(** [fn sort(&mut self, descending: bool)] *)
Definition sort (s : SimpleGpuMemory) (descending : bool) : Res SimpleGpuMemory :=
  let sorted_ranges := sorted_by_key (sort_key descending) (SlotMap.iter (used_ranges s)) in
  _ <- size_ s ;;
  x <- sort_loop (data s) sorted_ranges (used_ranges s) [] ;;
  let '(used', new_data) := x in
  Ok (mk_mem (buffer s) new_data [] used' (allocated_count s) (mutated s)).

(** [fn upload(&mut self, queue, device)] *)
Definition upload (s : SimpleGpuMemory) (g : Gpu) : Res (SimpleGpuMemory * Gpu) :=
  if negb (mutated s) then Ok (s, g) else
  s1 <- fix_sequence s ;;
  let '(g', buf) := upload_or_resize g (buffer s1) (data s1) in
  Ok (mk_mem buf (data s1) (available_ranges s1) (used_ranges s1) (allocated_count s1) false, g').

(** [fn optimize(&mut self, strategy, queue, device)] *)
Definition optimize (s : SimpleGpuMemory) (strategy : Strategy) (g : Gpu)
    : Res (SimpleGpuMemory * Gpu) :=
  _ <- size_ s ;;
  match strategy with
  | Truncate =>
      s1 <- fix_sequence s ;;
      let '(g', buf) :=
        create_buffer_init g (N.lor (buf_usage (buffer s1)) COPY_DST) (data s1) in
      Ok (mk_mem buf (data s1) (available_ranges s1) (used_ranges s1)
                 (allocated_count s1) (mutated s1), g')
  | SortSizeDescending => s1 <- sort s true ;; Ok (s1, g)
  | SortSizeAscending => s1 <- sort s false ;; Ok (s1, g)
  end.

(** [fn buffer_slice(&self)]: the first [size()] bytes of the buffer. *)
Definition buffer_slice (s : SimpleGpuMemory) : Res (list byte) :=
  sz <- size_ s ;;
  Ok (take sz (buf_contents (buffer s))).
End WithElemSize.

(** [impl GpuMemory<T> for SimpleGpuMemory<T>] *)
#[export] Instance simple_gpu_memory (elem_size : nat)
    : GpuMemory SimpleGpuMemory AddressId Strategy := {
  gm_new := new elem_size;
  gm_mutated := mutated_;
  gm_allocate := allocate elem_size;
  gm_get := get elem_size;
  gm_len := len_;
  gm_len_of := len_of elem_size;
  gm_resize := resize elem_size;
  gm_free := free elem_size;
  gm_upload := upload;
  gm_optimize := optimize elem_size;
  gm_buffer := buffer_;
}.

End Simple.
