(* ===== verification/SimpleProps.v ===== *)
(** * Functional behaviour of [SimpleGpuMemory] on every branch

    The theorems state, for each method of [Simple], the result on each
    path of its code.  Their hypotheses are the conditions of that path
    and the absence of [usize] overflow.

    - [allocate]: last fit with the split taken from the tail, exact fit,
      and growth of [data]; and every panic it can raise, with its cause.
    - [free]: of a live key, and of a stale key (which only sets
      [mutated]); every other key keeps its view (handle isolation).
    - [get], [len_of] and [resize]: on a stale key they panic.
    - [resize]: equal size is a no-op.  Shrinking keeps the suffix of the
      view.  Growing frees first, so the new view does not hold the old
      contents.
    - [upload]: gated by [mutated], so a second upload is a no-op.
    - [write_elem] then [get]: the view read back has exactly the written
      element replaced. *)

From S2P Require Import Prelude Range FreeList SlotMap Gpu Simple.
Import FreeList SlotMap Gpu Simple.

Module SimpleProps.

(** [last_fit size ar i r]: [r], at index [i], is the last free range of
    length at least [size]. *)
Definition last_fit (size : nat) (ar : list AddressRange) (i : nat) (r : AddressRange) : Prop :=
  ar !! i = Some r /\ size <= len r /\
  forall j r', i < j -> ar !! j = Some r' -> len r' < size.

(** No free range is long enough. *)
Definition no_fit (size : nat) (ar : list AddressRange) : Prop :=
  forall j r', ar !! j = Some r' -> len r' < size.

Section WithElemSize.
Variable elem_size : nat.

(** The arithmetic of [allocate] does not overflow, and the [SlotMap] is
    not full. *)
Definition alloc_fits (s : SimpleGpuMemory) (count : nat) : Prop :=
  (N.of_nat (elem_size * count) < usize_limit)%N /\
  (N.of_nat (allocated_count s + count) < usize_limit)%N /\
  (N.of_nat (num_elems (used_ranges s)) + 1 < u32_max)%N.

Lemma last_fit_search size ar i r :
  last_fit size ar i r -> rposition_find (fun r => size <=? len r) ar = Some i.
Proof.
  intros (Hi & Hle & Hafter). apply (rposition_find_last _ _ i r Hi).
  - by apply Nat.leb_le.
  - intros j y Hj Hy. apply Nat.leb_gt. eauto.
Qed.

Lemma no_fit_search size ar :
  no_fit size ar -> rposition_find (fun r => size <=? len r) ar = None.
Proof. intros H. apply rposition_find_all_false. intros j y Hy. apply Nat.leb_gt. eauto. Qed.

Lemma insert_ok {V} (sm : SlotMap V) v :
  (N.of_nat (num_elems sm + 1) <> u32_max)%N -> exists sm' k, insert sm v = Ok (sm', k).
Proof.
  intros H. unfold insert. apply N.eqb_neq in H. rewrite H.
  destruct (slots sm !! free_head sm); eauto.
Qed.

(** The common tail of the three branches of [allocate]. *)
Lemma allocate_from_take s count data' ar' range :
  SlotMap.wf (used_ranges s) -> alloc_fits s count ->
  take_range (elem_size * count) (data s) (available_ranges s) = Ok (data', ar', range) ->
  exists s' k, allocate elem_size s count = Ok (s', k) /\
    SlotMap.get (used_ranges s') k = Some range /\ SlotMap.get (used_ranges s) k = None /\
    available_ranges s' = ar' /\ data s' = data' /\
    allocated_count s' = allocated_count s + count /\ mutated s' = true /\
    forall k', k' <> k -> SlotMap.get (used_ranges s') k' = SlotMap.get (used_ranges s) k'.
Proof.
  intros Hwf (Hmul & Hadd & Hnum) Htake.
  destruct (insert_ok (used_ranges s) range) as (sm' & k & Hins); [lia|].
  exists (mk_mem (buffer s) data' ar' sm' (allocated_count s + count) true), k.
  split.
  - unfold allocate. rewrite usize_mul_ok by done. cbn [res_bind].
    rewrite Htake. cbn [res_bind]. rewrite usize_add_ok by done. cbn [res_bind].
    by rewrite Hins.
  - simpl. split_and!; [by eapply insert_new|by eapply insert_fresh|done..|].
    intros k' Hne. by eapply insert_other.
Qed.

(** [allocate] keeps [used_ranges] a well-formed slotmap. *)
Lemma allocate_wf s count s' k :
  SlotMap.wf (used_ranges s) -> allocate elem_size s count = Ok (s', k) ->
  SlotMap.wf (used_ranges s').
Proof.
  intros Hwf. unfold allocate.
  destruct (usize_mul _ _); [|discriminate]. cbn [res_bind].
  destruct (take_range _ _ _) as [[[d ar] r]|]; [|discriminate]. cbn [res_bind].
  destruct (usize_add _ _); [|discriminate]. cbn [res_bind].
  destruct (insert _ _) as [[sm' k']|] eqn:Hins; [|discriminate]. cbn [res_bind].
  intros H. injection H as <- _. simpl. by eapply insert_wf.
Qed.

Lemma take_range_exact size data ar i r :
  last_fit size ar i r -> len r = size ->
  take_range size data ar = Ok (data, vec_remove i ar, r).
Proof.
  intros Hfit Heq. unfold take_range. rewrite (last_fit_search _ _ _ _ Hfit).
  destruct Hfit as (Hi & _). rewrite Hi, Heq, Nat.eqb_refl. done.
Qed.

Lemma take_range_grow size data ar :
  no_fit size ar -> (N.of_nat (length data + size) <= isize_max)%N ->
  take_range size data ar =
    Ok (data ++ repeat Byte.x00 size, ar, length data ..< length data + size).
Proof.
  intros Hno Hcap. unfold take_range. rewrite no_fit_search by done.
  apply N.leb_le in Hcap. rewrite Hcap. simpl.
  by rewrite length_app, repeat_length.
Qed.

(** [take_range] panics only when it must grow [data] past [isize::MAX]:
    the index it searched is in range and [end - size] cannot underflow. *)
Lemma take_range_panics size data ar p :
  take_range size data ar = Panicked p ->
  p = CapacityOverflow /\ no_fit size ar /\ (isize_max < N.of_nat (length data + size))%N.
Proof.
  unfold take_range. destruct (rposition_find _ ar) as [i|] eqn:Hp.
  - apply rposition_find_spec in Hp as (r & Hi & Hfit & _). rewrite Hi.
    apply Nat.leb_le in Hfit. destruct (negb _); [|discriminate].
    rewrite usize_sub_ok by (unfold len in Hfit; lia). discriminate.
  - destruct (N.of_nat _ <=? isize_max)%N eqn:Hcap; [discriminate|]. intros H. injection H as <-.
    split_and!; [done| |by apply N.leb_gt].
    intros j r' Hr'. apply Nat.leb_gt. exact (rposition_find_None _ _ Hp j r' Hr').
Qed.

(** C19: [allocate] is last fit and takes its range from the tail: when
    the last free range that is long enough, [r] at index [i], is longer
    than the request, the new allocation is the last [count] elements of
    [r].  [r] keeps its start and loses [size] bytes at its end, in
    place.  [data] is unchanged, the count grows by [count], the key is
    fresh, and no other key changes. *)
Theorem allocate_split_tail s count i r :
  SlotMap.wf (used_ranges s) -> alloc_fits s count ->
  last_fit (elem_size * count) (available_ranges s) i r -> elem_size * count < len r ->
  exists s' k, allocate elem_size s count = Ok (s', k) /\
    SlotMap.get (used_ranges s') k = Some (end_ r - elem_size * count ..< end_ r) /\
    SlotMap.get (used_ranges s) k = None /\
    available_ranges s' = <[i := start r ..< end_ r - elem_size * count]> (available_ranges s) /\
    data s' = data s /\ allocated_count s' = allocated_count s + count /\ mutated s' = true /\
    forall k', k' <> k -> SlotMap.get (used_ranges s') k' = SlotMap.get (used_ranges s) k'.
Proof.
  intros Hwf Hfits Hfit Hlt. apply allocate_from_take; [done..|].
  unfold take_range. rewrite (last_fit_search _ _ _ _ Hfit).
  destruct Hfit as (Hi & _). rewrite Hi.
  replace (negb (len r =? elem_size * count)) with true
    by (symmetry; apply negb_true_iff, Nat.eqb_neq; lia).
  rewrite usize_sub_ok by (unfold len in *; lia). done.
Qed.

(** C20: When the last free range that is long enough has exactly the
    requested length, it is removed from the free list and used whole. *)
Theorem allocate_exact_fit s count i r :
  SlotMap.wf (used_ranges s) -> alloc_fits s count ->
  last_fit (elem_size * count) (available_ranges s) i r -> len r = elem_size * count ->
  exists s' k, allocate elem_size s count = Ok (s', k) /\
    SlotMap.get (used_ranges s') k = Some r /\ SlotMap.get (used_ranges s) k = None /\
    available_ranges s' = vec_remove i (available_ranges s) /\
    data s' = data s /\ allocated_count s' = allocated_count s + count /\ mutated s' = true /\
    forall k', k' <> k -> SlotMap.get (used_ranges s') k' = SlotMap.get (used_ranges s) k'.
Proof.
  intros Hwf Hfits Hfit Heq. apply allocate_from_take; [done..|].
  by apply take_range_exact.
Qed.

(** C21: When no free range is long enough, [data] grows by [size] zero bytes
    and the allocation is the new tail of [data]. *)
Theorem allocate_grow s count :
  SlotMap.wf (used_ranges s) -> alloc_fits s count ->
  no_fit (elem_size * count) (available_ranges s) ->
  (N.of_nat (length (data s) + elem_size * count) <= isize_max)%N ->
  exists s' k, allocate elem_size s count = Ok (s', k) /\
    SlotMap.get (used_ranges s') k = Some (length (data s) ..< length (data s) + elem_size * count) /\
    SlotMap.get (used_ranges s) k = None /\
    available_ranges s' = available_ranges s /\
    data s' = data s ++ repeat Byte.x00 (elem_size * count) /\
    allocated_count s' = allocated_count s + count /\ mutated s' = true /\
    forall k', k' <> k -> SlotMap.get (used_ranges s') k' = SlotMap.get (used_ranges s) k'.
Proof.
  intros Hwf Hfits Hno Hcap. apply allocate_from_take; [done..|].
  by apply take_range_grow.
Qed.

(** C23: The only panics of [allocate] are its three overflows, each
    with its cause and in the order the code checks them: [size_of * count]
    or the element count overflowing [usize]; no free range fitting and
    [data] growing past [isize::MAX]; the [SlotMap] reaching [u32::MAX]
    elements.  It never indexes out of bounds. *)
Theorem allocate_errors s count :
  match allocate elem_size s count with
  | Ok _ => True
  | Panicked p =>
      (p = ArithOverflow /\ ((usize_limit <= N.of_nat (elem_size * count))%N \/
         (usize_limit <= N.of_nat (allocated_count s + count))%N)) \/
      (p = CapacityOverflow /\ (N.of_nat (elem_size * count) < usize_limit)%N /\
         no_fit (elem_size * count) (available_ranges s) /\
         (isize_max < N.of_nat (length (data s) + elem_size * count))%N) \/
      (p = SlotMapOverflow /\ (N.of_nat (elem_size * count) < usize_limit)%N /\
         (N.of_nat (allocated_count s + count) < usize_limit)%N /\
         N.of_nat (num_elems (used_ranges s) + 1) = u32_max)
  end.
Proof.
  unfold allocate, usize_mul, usize_add.
  destruct (fits_usize (elem_size * count)) eqn:Hm; cbn [res_bind];
    [|left; split; [done|left; apply N.ltb_ge; exact Hm]].
  apply fits_usize_spec in Hm.
  destruct (take_range _ _ _) as [[[d' ar'] nr]|p] eqn:Ht; cbn [res_bind];
    [|right; left; apply take_range_panics in Ht as (-> & ? & ?); by split_and!].
  destruct (fits_usize (allocated_count s + count)) eqn:Ha; cbn [res_bind];
    [|left; split; [done|right; apply N.ltb_ge; exact Ha]].
  apply fits_usize_spec in Ha. unfold SlotMap.insert.
  destruct (N.of_nat _ =? u32_max)%N eqn:Hn; [right; right; split_and!; [done..|by apply N.eqb_eq]|].
  by destruct (slots _ !! _).
Qed.

(** ** [free] *)

(** C22: [free] of a live key: the key becomes invalid, the range goes back
    through [make_range_available], and the count drops by the range's
    element count. *)
Theorem free_live s k r :
  SlotMap.get (used_ranges s) k = Some r -> elem_size <> 0 ->
  len r / elem_size <= allocated_count s ->
  exists s', free elem_size s k = Ok s' /\
    SlotMap.get (used_ranges s') k = None /\
    (forall k', k' <> k -> SlotMap.get (used_ranges s') k' = SlotMap.get (used_ranges s) k') /\
    available_ranges s' = make_range_available r (available_ranges s) /\
    data s' = data s /\ allocated_count s' = allocated_count s - len r / elem_size /\
    mutated s' = true.
Proof.
  intros Hg Hsz Hcnt. pose proof (remove_get_Some _ _ _ Hg) as Hrem.
  destruct (remove_some _ _ _ _ Hrem) as (_ & Hgone & Hother).
  eexists. split.
  - unfold free. rewrite Hrem. rewrite usize_div_ok by done. cbn [res_bind].
    rewrite usize_sub_ok by done. reflexivity.
  - simpl. split_and!; done.
Qed.

(** What [free] does to [used_ranges] and [data]. *)
Lemma free_used s k s' :
  free elem_size s k = Ok s' ->
  (exists r, remove (used_ranges s) k = (used_ranges s', r)) /\ data s' = data s /\
  allocated_count s' <= allocated_count s.
Proof.
  unfold free. destruct (remove (used_ranges s) k) as [sm' [r|]] eqn:Hrem.
  - intros H. destruct (usize_div _ _) as [c|]; [|discriminate]. cbn [res_bind] in H.
    destruct (usize_sub _ _) as [c'|] eqn:Hs; [|discriminate]. cbn [res_bind] in H.
    apply usize_sub_inv in Hs as [-> _]. injection H as <-. simpl. split_and!; eauto; lia.
  - intros H. injection H as <-. simpl. split_and!; eauto.
    destruct (remove_none _ _ _ Hrem) as [-> _]. eauto.
Qed.

Lemma free_wf s k s' :
  SlotMap.wf (used_ranges s) -> free elem_size s k = Ok s' -> SlotMap.wf (used_ranges s').
Proof. intros Hwf Hfree. destruct (free_used _ _ _ Hfree) as ((r & Hrem) & _). by eapply remove_wf. Qed.

(** [free] leaves the range of every other key as it was. *)
Lemma free_get_other s k s' k' :
  free elem_size s k = Ok s' -> k' <> k ->
  SlotMap.get (used_ranges s') k' = SlotMap.get (used_ranges s) k'.
Proof.
  intros Hfree Hne. destruct (free_used _ _ _ Hfree) as ((r & Hrem) & _).
  destruct r as [v|].
  - destruct (remove_some _ _ _ _ Hrem) as (_ & _ & Hother). by apply Hother.
  - by destruct (remove_none _ _ _ Hrem) as [-> _].
Qed.

(** [free] of a key that is not live only sets [mutated]. *)
Lemma free_stale s k :
  SlotMap.get (used_ranges s) k = None -> free elem_size s k = Ok (set_mutated s true).
Proof. intros Hg. unfold free. by rewrite remove_get_None. Qed.

(** C33: [get], [len_of] and [resize] index [used_ranges] and panic on a key
    that is not live. *)
Theorem stale_key_panics s k n :
  SlotMap.get (used_ranges s) k = None ->
  (N.of_nat (n * elem_size) < usize_limit)%N ->
  Simple.get elem_size s k = Panicked InvalidKey /\
  len_of elem_size s k = Panicked InvalidKey /\
  resize elem_size s k n = Panicked InvalidKey.
Proof.
  intros Hg Hfit. unfold Simple.get, len_of, resize.
  rewrite index_None by done. rewrite usize_mul_ok by done. cbn [res_bind].
  done.
Qed.

(** ** [get] *)

Lemma get_ok s k r :
  SlotMap.get (used_ranges s) k = Some r -> start r <= end_ r -> end_ r <= length (data s) ->
  elem_size <> 0 -> len r mod elem_size = 0 ->
  Simple.get elem_size s k = Ok (set_mutated s true, take (len r) (drop (start r) (data s))).
Proof.
  intros Hg Hse Hend Hsz Hmod. unfold Simple.get.
  apply index_ok in Hg. rewrite Hg. cbn [res_bind].
  rewrite slice_range_ok by done. cbn [res_bind].
  rewrite length_take, length_drop, Nat.min_l by (unfold len; lia).
  apply Nat.eqb_neq in Hsz. rewrite Hsz. apply Nat.eqb_eq in Hmod.
  unfold len in Hmod. by rewrite Hmod.
Qed.

Lemma get_inv s k s1 view :
  Simple.get elem_size s k = Ok (s1, view) ->
  exists r, SlotMap.get (used_ranges s) k = Some r /\ start r <= end_ r <= length (data s) /\
    view = take (len r) (drop (start r) (data s)) /\ elem_size <> 0 /\
    len r mod elem_size = 0 /\ s1 = set_mutated s true.
Proof.
  unfold Simple.get, slice_range. intros H.
  destruct (index (used_ranges s) k) as [r|] eqn:Hi; [|discriminate]. apply index_ok in Hi.
  cbn [res_bind] in H.
  destruct ((start r <=? end_ r) && (end_ r <=? length (data s))) eqn:Hb; [|discriminate].
  apply andb_true_iff in Hb as [Hb1 Hb2]. apply Nat.leb_le in Hb1, Hb2.
  cbn [guard res_bind] in H.
  destruct (negb (elem_size =? 0) && _) eqn:Hc; [|discriminate].
  apply andb_true_iff in Hc as [Hc1 Hc2]. apply negb_true_iff, Nat.eqb_neq in Hc1.
  apply Nat.eqb_eq in Hc2. cbn [guard res_bind] in H. injection H as <- <-.
  exists r. rewrite length_take, length_drop, Nat.min_l in Hc2 by lia.
  split_and!; try done; unfold len; lia.
Qed.

(** C18: Handle isolation for [free]: freeing one key changes no other
    key's view.  Every other key whose [get] succeeded before still
    succeeds after the [free], with the same bytes. *)
Theorem free_keeps_other_views s k s' k' s1 view :
  free elem_size s k = Ok s' -> k' <> k -> Simple.get elem_size s k' = Ok (s1, view) ->
  exists s1', Simple.get elem_size s' k' = Ok (s1', view).
Proof.
  intros Hfree Hne Hget.
  destruct (get_inv _ _ _ _ Hget) as (r & Hg & Hr & -> & Hsz & Hmod & _).
  destruct (free_used _ _ _ Hfree) as (_ & Hd & _).
  rewrite <- (free_get_other _ _ _ _ Hfree Hne) in Hg. rewrite <- Hd in Hr |- *.
  eexists. apply get_ok; [done|lia|lia|done|done].
Qed.

(** ** [resize] *)

(** C32: Resizing to the current length does nothing, not even set [mutated]. *)
Theorem resize_equal s k r n :
  SlotMap.get (used_ranges s) k = Some r -> len r = n * elem_size ->
  (N.of_nat (n * elem_size) < usize_limit)%N ->
  resize elem_size s k n = Ok (s, k).
Proof.
  intros Hg Hlen Hfit. unfold resize. rewrite usize_mul_ok by done. cbn [res_bind].
  apply index_ok in Hg. rewrite Hg. cbn [res_bind]. rewrite Hlen, Nat.compare_refl. done.
Qed.

(** C30: Shrinking keeps the last [n] elements: the view after [resize] is
    the suffix of the view before, and the freed leading part goes back
    through [make_range_available].  The key is kept. *)
Theorem resize_shrink_keeps_suffix s k s1 view n :
  Simple.get elem_size s k = Ok (s1, view) ->
  n * elem_size < length view ->
  (N.of_nat (n * elem_size) < usize_limit)%N ->
  (length view - n * elem_size) / elem_size <= allocated_count s ->
  exists s' s2, resize elem_size s k n = Ok (s', k) /\
    Simple.get elem_size s' k = Ok (s2, drop (length view - n * elem_size) view) /\
    data s' = data s /\
    allocated_count s' = allocated_count s - (length view - n * elem_size) / elem_size /\
    exists r, available_ranges s' =
      make_range_available (start r ..< end_ r - n * elem_size) (available_ranges s).
Proof.
  intros Hget Hlt Hfit Hcnt.
  destruct (get_inv _ _ _ _ Hget) as (r & Hg & [Hse Hend] & -> & Hsz & Hmod & _).
  rewrite length_take, length_drop, Nat.min_l in * by (unfold len; lia).
  assert (Hfl : len (start r ..< end_ r - n * elem_size) = len r - n * elem_size) by (unfold len; simpl; lia).
  eexists _, _. split_and!.
  - unfold resize. rewrite usize_mul_ok by done. cbn [res_bind].
    pose proof Hg as Hi. apply index_ok in Hi. rewrite Hi. cbn [res_bind].
    replace (Nat.compare (len r) (n * elem_size)) with Gt by (symmetry; apply Nat.compare_gt_iff; lia).
    rewrite usize_sub_ok by (unfold len in *; lia). cbn [res_bind].
    rewrite Hfl, usize_div_ok by done. cbn [res_bind].
    rewrite usize_sub_ok by done. cbn [res_bind].
    rewrite (index_set_ok _ _ _ _ Hg). reflexivity.
  - rewrite (get_ok _ _ (end_ r - n * elem_size ..< end_ r)); simpl.
    + do 2 f_equal. rewrite skipn_firstn_comm, drop_drop.
      unfold len in *. simpl. f_equal; [lia|f_equal; lia].
    + apply get_Some. simpl. apply list_lookup_insert_eq.
      apply get_Some in Hg. by apply lookup_lt_Some in Hg.
    + lia.
    + done.
    + done.
    + unfold len in *. simpl.
      replace (end_ r - (end_ r - n * elem_size)) with (n * elem_size) by lia.
      apply Nat.Div0.mod_mul.
  - reflexivity.
  - done.
  - exists r. reflexivity.
Qed.

(** C31: Growing does not copy: [resize] frees the range and allocates a new
    one.  With an empty free list, the freed range is the only free range
    and is too short, so the new range is fresh zero bytes at the end of
    [data]: the old contents are gone. *)
Theorem resize_grow_discards s k r n :
  SlotMap.wf (used_ranges s) -> SlotMap.get (used_ranges s) k = Some r ->
  available_ranges s = [] -> len r < elem_size * n -> elem_size <> 0 ->
  len r / elem_size <= allocated_count s -> alloc_fits s n ->
  (N.of_nat (length (data s) + elem_size * n) <= isize_max)%N ->
  exists s' k' s2, resize elem_size s k n = Ok (s', k') /\
    Simple.get elem_size s' k' = Ok (s2, repeat Byte.x00 (elem_size * n)).
Proof.
  intros Hwf Hg Hempty Hlt Hsz Hcnt Hfits Hcap.
  destruct (free_live s k r Hg Hsz Hcnt) as (s1 & Hfree & _ & _ & Har & Hdata & Hac & _).
  pose proof (free_used _ _ _ Hfree) as ((r' & Hrem) & _ & _).
  assert (Hfits1 : alloc_fits s1 n).
  { destruct Hfits as (H1 & H2 & H3). pose proof (remove_num_elems _ _ _ _ Hrem).
    split_and!; [done|rewrite Hac; lia|lia]. }
  destruct (allocate_grow s1 n) as (s' & k' & Halloc & Hk' & _ & _ & Hdata' & _);
    [by eapply free_wf|done| |by rewrite Hdata|].
  { rewrite Har, Hempty. intros [|j] r'' Hj; [|done]. simpl in Hj. by injection Hj as <-. }
  exists s', k', (set_mutated s' true). split.
  - unfold resize. rewrite usize_mul_ok by (destruct Hfits; by rewrite Nat.mul_comm).
    cbn [res_bind]. apply index_ok in Hg. rewrite Hg. cbn [res_bind].
    replace (Nat.compare (len r) (n * elem_size)) with Lt
      by (symmetry; apply Nat.compare_lt_iff; lia).
    rewrite Hfree. cbn [res_bind]. done.
  - rewrite (get_ok _ _ _ Hk'); simpl; rewrite ?Hdata', ?Hdata.
    + replace (length (data s) + elem_size * n - length (data s)) with (elem_size * n) by lia.
      rewrite drop_app_length. f_equal. f_equal. apply take_ge. rewrite repeat_length. unfold len. simpl. lia.
    + lia.
    + rewrite length_app, repeat_length. lia.
    + done.
    + unfold len. simpl. replace (length (data s) + elem_size * n - length (data s))
        with (n * elem_size) by lia. apply Nat.Div0.mod_mul.
Qed.

(** ** [upload] *)

Lemma upload_or_resize_spec g b d :
  take (length d) (buf_contents (snd (upload_or_resize g b d))) = d /\
  exists c, calls (fst (upload_or_resize g b d)) = calls g ++ [c].
Proof.
  unfold upload_or_resize, write_buffer, create_buffer_init.
  destruct (_ <=? _)%N; simpl; (split; [by rewrite take_app_length|eauto]).
Qed.

(** C34: Upload is gated by [mutated]: it always leaves [mutated] false, so
    a second upload with nothing in between returns the same state and
    makes no call on the device or the queue. *)
Theorem upload_idempotent s g s' g' :
  upload s g = Ok (s', g') -> mutated s' = false /\ upload s' g' = Ok (s', g').
Proof.
  unfold upload. destruct (mutated s) eqn:Hm; simpl.
  - destruct (fix_sequence s) as [s1|]; [|discriminate]. cbn [res_bind].
    destruct (upload_or_resize g (buffer s1) (data s1)). intros H. injection H as <- <-. done.
  - intros H. injection H as <- <-. by rewrite Hm.
Qed.

(** C35: A mutated upload compacts the free list away, writes [data] to the
    start of the device buffer, and makes exactly one call. *)
Theorem upload_writes_data s g s' g' :
  mutated s = true -> upload s g = Ok (s', g') ->
  take (length (data s')) (buf_contents (buffer s')) = data s' /\
  available_ranges s' = [] /\ exists c, calls g' = calls g ++ [c].
Proof.
  intros Hm. unfold upload. rewrite Hm. simpl.
  destruct (fix_sequence s) as [s1|] eqn:Hfix; [|discriminate]. cbn [res_bind].
  pose proof (upload_or_resize_spec g (buffer s1) (data s1)) as [Hpre Hcall].
  destruct (upload_or_resize g (buffer s1) (data s1)) as [g1 b1]. intros H.
  injection H as <- <-. simpl in *. split_and!; [done| |done].
  unfold fix_sequence in Hfix.
  destruct (fix_sequence_loop _ _ _) as [[u d]|]; [|discriminate].
  cbn [res_bind] in Hfix. by injection Hfix as <-.
Qed.

(** C28: Writing element [i] through the slice [get] returns, then calling
    [get] again, reads back the view with the [i]-th element replaced by
    the bytes written and every other byte unchanged. *)
Theorem write_elem_get s k i v s' :
  length v = elem_size -> write_elem elem_size s k i v = Ok s' ->
  exists view, Simple.get elem_size s k = Ok (set_mutated s true, view) /\
    Simple.get elem_size s' k =
      Ok (set_mutated s' true,
          take (i * elem_size) view ++ v ++ drop (i * elem_size + elem_size) view).
Proof.
  intros Hv. unfold write_elem.
  destruct (Simple.get elem_size s k) as [[s1 view]|p] eqn:Hg; [|discriminate]. cbn [res_bind].
  destruct (get_inv _ _ _ _ Hg) as (r & Hr & Hb & -> & Hsz & Hmod & ->).
  destruct (i <? _) eqn:Hi; [|discriminate]. apply Nat.ltb_lt in Hi.
  rewrite length_take, length_drop, Nat.min_l in Hi by (unfold len; lia).
  pose proof (Nat.Div0.mul_div_le (len r) elem_size) as Hmd.
  assert (Hfit : i * elem_size + elem_size <= len r) by nia.
  simpl. rewrite (proj2 (index_ok _ _ _) Hr). simpl. intros Hw. injection Hw as <-.
  exists (take (len r) (drop (start r) (data s))). split; [done|].
  rewrite get_ok with (r := r) by
    (first [done | simpl; rewrite ?length_app, ?length_take, ?length_drop; unfold len in *; lia]).
  simpl. rewrite <- Hv, <- slice_splice by (unfold len in *; lia). done.
Qed.

End WithElemSize.

(** ** Witnesses, with 4-byte elements *)

Local Notation ex_buf := (buffer (Simple.new 4 0 (mk_gpu [])).2) (only parsing).
Local Notation ex_mem d ar := (mk_mem ex_buf d ar SlotMap.new 0 false) (only parsing).


Lemma allocate_split_tail_witness :
  SlotMap.wf (used_ranges (ex_mem (repeat Byte.x00 8) [0 ..< 8])) /\
  alloc_fits 4 (ex_mem (repeat Byte.x00 8) [0 ..< 8]) 1 /\
  last_fit (4 * 1) [0 ..< 8] 0 (0 ..< 8) /\ 4 * 1 < len (0 ..< 8) /\
  exists s' k, allocate 4 (ex_mem (repeat Byte.x00 8) [0 ..< 8]) 1 = Ok (s', k) /\
    SlotMap.get (used_ranges s') k = Some (4 ..< 8) /\ available_ranges s' = [0 ..< 4].
Proof.
  assert (Hwf : SlotMap.wf (used_ranges (ex_mem (repeat Byte.x00 8) [0 ..< 8]))) by exact SlotMap.wf_new.
  assert (Hfits : alloc_fits 4 (ex_mem (repeat Byte.x00 8) [0 ..< 8]) 1) by concrete.
  assert (Hfit : last_fit (4 * 1) [0 ..< 8] 0 (0 ..< 8)).
  { split_and!; [reflexivity|concrete|]. intros [|j] r' Hj Hr'; [lia|discriminate]. }
  split_and!; [exact Hwf|exact Hfits|exact Hfit|concrete|].
  destruct (allocate_split_tail 4 _ 1 0 (0 ..< 8) Hwf Hfits Hfit) as (s' & k & H1 & H2 & _ & H3 & _);
    [concrete|].
  exists s', k. split_and!; [exact H1|exact H2|exact H3].
Defined.

Lemma allocate_exact_fit_witness :
  SlotMap.wf (used_ranges (ex_mem (repeat Byte.x00 4) [0 ..< 4])) /\
  alloc_fits 4 (ex_mem (repeat Byte.x00 4) [0 ..< 4]) 1 /\
  last_fit (4 * 1) [0 ..< 4] 0 (0 ..< 4) /\ len (0 ..< 4) = 4 * 1 /\
  exists s' k, allocate 4 (ex_mem (repeat Byte.x00 4) [0 ..< 4]) 1 = Ok (s', k) /\
    SlotMap.get (used_ranges s') k = Some (0 ..< 4) /\ available_ranges s' = [].
Proof.
  assert (Hwf : SlotMap.wf (used_ranges (ex_mem (repeat Byte.x00 4) [0 ..< 4]))) by exact SlotMap.wf_new.
  assert (Hfits : alloc_fits 4 (ex_mem (repeat Byte.x00 4) [0 ..< 4]) 1) by concrete.
  assert (Hfit : last_fit (4 * 1) [0 ..< 4] 0 (0 ..< 4)).
  { split_and!; [reflexivity|concrete|]. intros [|j] r' Hj Hr'; [lia|discriminate]. }
  split_and!; [exact Hwf|exact Hfits|exact Hfit|reflexivity|].
  destruct (allocate_exact_fit 4 _ 1 0 (0 ..< 4) Hwf Hfits Hfit) as (s' & k & H1 & H2 & _ & H3 & _);
    [reflexivity|].
  exists s', k. split_and!; [exact H1|exact H2|exact H3].
Defined.

Lemma allocate_grow_witness :
  SlotMap.wf (used_ranges (ex_mem [] [])) /\ alloc_fits 4 (ex_mem [] []) 1 /\
  no_fit (4 * 1) [] /\ (N.of_nat (0 + 4 * 1) <= isize_max)%N /\
  exists s' k, allocate 4 (ex_mem [] []) 1 = Ok (s', k) /\
    SlotMap.get (used_ranges s') k = Some (0 ..< 4) /\ data s' = repeat Byte.x00 4.
Proof.
  assert (Hwf : SlotMap.wf (used_ranges (ex_mem [] []))) by exact SlotMap.wf_new.
  assert (Hfits : alloc_fits 4 (ex_mem [] []) 1) by concrete.
  assert (Hno : no_fit (4 * 1) []) by (intros j r' Hr'; discriminate).
  assert (Hcap : (N.of_nat (0 + 4 * 1) <= isize_max)%N) by concrete.
  split_and!; [exact Hwf|exact Hfits|exact Hno|exact Hcap|].
  destruct (allocate_grow 4 _ 1 Hwf Hfits Hno Hcap) as (s' & k & H1 & H2 & _ & _ & H3 & _).
  exists s', k. split_and!; [exact H1|exact H2|exact H3].
Defined.

(** The one-element allocation of [ex_mem [] []]: [0..4], in a fresh
    [data] of 4 bytes, with an empty free list. *)
Lemma ex_alloc_one :
  exists s k, allocate 4 (ex_mem [] []) 1 = Ok (s, k) /\ SlotMap.wf (used_ranges s) /\
    SlotMap.get (used_ranges s) k = Some (0 ..< 4) /\ available_ranges s = [] /\
    length (data s) = 4 /\ allocated_count s = 1 /\ mutated s = true.
Proof.
  destruct (allocate 4 (ex_mem [] []) 1) as [[s k]|] eqn:E; [|vm_compute in E; discriminate].
  exists s, k. split; [done|]. split; [exact (allocate_wf 4 (ex_mem [] []) 1 s k SlotMap.wf_new E)|].
  vm_compute in E. injection E as <- <-. split_and!; reflexivity.
Qed.

Lemma free_live_witness :
  exists s k, SlotMap.get (used_ranges s) k = Some (0 ..< 4) /\ 4 <> 0 /\
    len (0 ..< 4) / 4 <= allocated_count s /\
    exists s', free 4 s k = Ok s' /\ SlotMap.get (used_ranges s') k = None /\
      available_ranges s' = [0 ..< 4] /\ allocated_count s' = 0.
Proof.
  destruct ex_alloc_one as (s & k & _ & _ & Hg & Har & _ & Hc & _).
  assert (Hcnt : len (0 ..< 4) / 4 <= allocated_count s) by (rewrite Hc; concrete).
  exists s, k. split_and!; [exact Hg|lia|exact Hcnt|].
  destruct (free_live 4 s k (0 ..< 4) Hg ltac:(lia) Hcnt) as (s' & H1 & H2 & _ & H3 & _ & H4 & _).
  exists s'. split_and!; [exact H1|exact H2|rewrite H3, Har; reflexivity|rewrite H4, Hc; reflexivity].
Defined.

Lemma stale_key_panics_witness :
  SlotMap.get (used_ranges (ex_mem [] [])) (mk_key 0 0) = None /\
  (N.of_nat (1 * 4) < usize_limit)%N /\
  resize 4 (ex_mem [] []) (mk_key 0 0) 1 = Panicked InvalidKey.
Proof.
  assert (Hg : SlotMap.get (used_ranges (ex_mem [] [])) (mk_key 0 0) = None) by reflexivity.
  assert (Hf : (N.of_nat (1 * 4) < usize_limit)%N) by concrete.
  split_and!; [exact Hg|exact Hf|]. apply (stale_key_panics 4 _ _ 1 Hg Hf).
Defined.

Lemma resize_equal_witness :
  exists s k, SlotMap.get (used_ranges s) k = Some (0 ..< 4) /\ len (0 ..< 4) = 1 * 4 /\
    (N.of_nat (1 * 4) < usize_limit)%N /\ resize 4 s k 1 = Ok (s, k).
Proof.
  destruct ex_alloc_one as (s & k & _ & _ & Hg & _).
  assert (Hf : (N.of_nat (1 * 4) < usize_limit)%N) by concrete.
  exists s, k. split_and!; [exact Hg|reflexivity|exact Hf|].
  apply (resize_equal 4 s k (0 ..< 4) 1 Hg eq_refl Hf).
Defined.

Lemma resize_shrink_keeps_suffix_witness :
  exists s k s1 view, Simple.get 4 s k = Ok (s1, view) /\ length view = 8 /\
    1 * 4 < length view /\ (N.of_nat (1 * 4) < usize_limit)%N /\
    (length view - 1 * 4) / 4 <= allocated_count s /\
    exists s' s2, resize 4 s k 1 = Ok (s', k) /\ Simple.get 4 s' k = Ok (s2, drop 4 view).
Proof.
  destruct (allocate 4 (ex_mem [] []) 2) as [[s k]|] eqn:E; [|vm_compute in E; discriminate].
  assert (Hac : allocated_count s = 2) by (vm_compute in E; injection E as <- _; reflexivity).
  destruct (Simple.get 4 s k) as [[s1 view]|] eqn:Eg;
    [|vm_compute in E; injection E as <- <-; vm_compute in Eg; discriminate].
  assert (Hl : length view = 8)
    by (vm_compute in E; injection E as <- <-; vm_compute in Eg; injection Eg as _ <-; reflexivity).
  assert (Hc : (length view - 1 * 4) / 4 <= allocated_count s) by (rewrite Hl, Hac; concrete).
  assert (Hf : (N.of_nat (1 * 4) < usize_limit)%N) by concrete.
  do 4 eexists. split_and!; [exact Eg|exact Hl|rewrite Hl; lia|exact Hf|exact Hc|].
  destruct (resize_shrink_keeps_suffix 4 _ _ _ _ 1 Eg ltac:(rewrite Hl; lia) Hf Hc)
    as (s' & s2 & H1 & H2 & _).
  exists s', s2. rewrite Hl in H2. split; [exact H1|exact H2].
Defined.

Lemma resize_grow_discards_witness :
  exists s k, SlotMap.wf (used_ranges s) /\ SlotMap.get (used_ranges s) k = Some (0 ..< 4) /\
    available_ranges s = [] /\ len (0 ..< 4) < 4 * 2 /\ 4 <> 0 /\
    len (0 ..< 4) / 4 <= allocated_count s /\ alloc_fits 4 s 2 /\
    (N.of_nat (length (data s) + 4 * 2) <= isize_max)%N /\
    exists s' k' s2, resize 4 s k 2 = Ok (s', k') /\
      Simple.get 4 s' k' = Ok (s2, repeat Byte.x00 8).
Proof.
  destruct ex_alloc_one as (s & k & E & Hwf & Hg & Har & Hlen & Hc & _).
  assert (Hcnt : len (0 ..< 4) / 4 <= allocated_count s) by (rewrite Hc; concrete).
  assert (Hfits : alloc_fits 4 s 2) by (vm_compute in E; injection E as <- _; concrete).
  assert (Hcap : (N.of_nat (length (data s) + 4 * 2) <= isize_max)%N) by (rewrite Hlen; concrete).
  exists s, k. split_and!; [exact Hwf|exact Hg|exact Har|concrete|lia|exact Hcnt|exact Hfits|exact Hcap|].
  apply (resize_grow_discards 4 s k (0 ..< 4) 2 Hwf Hg Har ltac:(concrete) ltac:(lia) Hcnt Hfits Hcap).
Defined.

Lemma upload_idempotent_witness :
  exists s s' g', allocate 4 (ex_mem [] []) 1 = Ok s /\ upload s.1 (mk_gpu []) = Ok (s', g') /\
    mutated s' = false /\ upload s' g' = Ok (s', g').
Proof.
  destruct ex_alloc_one as (s & k & E & _).
  destruct (upload s (mk_gpu [])) as [[s' g']|] eqn:Eu;
    [|vm_compute in E; injection E as <- _; vm_compute in Eu; discriminate].
  exists (s, k), s', g'. split_and!; [exact E|exact Eu|..];
    apply (upload_idempotent s (mk_gpu []) s' g' Eu).
Defined.

Lemma upload_writes_data_witness :
  exists s s' g', allocate 4 (ex_mem [] []) 1 = Ok s /\ mutated s.1 = true /\
    upload s.1 (mk_gpu []) = Ok (s', g') /\
    take (length (data s')) (buf_contents (buffer s')) = data s' /\ available_ranges s' = [].
Proof.
  destruct ex_alloc_one as (s & k & E & _ & _ & _ & _ & _ & Hm).
  destruct (upload s (mk_gpu [])) as [[s' g']|] eqn:Eu;
    [|vm_compute in E; injection E as <- _; vm_compute in Eu; discriminate].
  destruct (upload_writes_data s (mk_gpu []) s' g' Hm Eu) as (H1 & H2 & _).
  exists (s, k), s', g'. split_and!; [exact E|exact Hm|exact Eu|exact H1|exact H2].
Defined.

Lemma write_elem_get_witness :
  exists s k s', allocate 4 (ex_mem [] []) 2 = Ok (s, k) /\
    length [Byte.x01; Byte.x02; Byte.x03; Byte.x04] = 4 /\
    write_elem 4 s k 1 [Byte.x01; Byte.x02; Byte.x03; Byte.x04] = Ok s' /\
    Simple.get 4 s' k = Ok (set_mutated s' true,
      [Byte.x00; Byte.x00; Byte.x00; Byte.x00; Byte.x01; Byte.x02; Byte.x03; Byte.x04]).
Proof.
  destruct (allocate 4 (ex_mem [] []) 2) as [[s k]|] eqn:E; [|vm_compute in E; discriminate].
  destruct (write_elem 4 s k 1 [Byte.x01; Byte.x02; Byte.x03; Byte.x04]) as [s'|p] eqn:Ew;
    [|vm_compute in E; injection E as <- <-; vm_compute in Ew; discriminate].
  destruct (write_elem_get 4 s k 1 [Byte.x01; Byte.x02; Byte.x03; Byte.x04] s' eq_refl Ew) as (view & Hg & Hg').
  exists s, k, s'. split_and!; [reflexivity|reflexivity|exact Ew|]. rewrite Hg'.
  vm_compute in E. injection E as <- <-. vm_compute in Hg. injection Hg as <-. reflexivity.
Defined.


(** Two one-element allocations, [0..4] and [4..8]; freeing the first
    keeps the view of the second. *)
Lemma free_keeps_other_views_witness :
  exists s0 s k k' s' s1 view,
    allocate 4 (ex_mem [] []) 1 = Ok (s0, k) /\ allocate 4 s0 1 = Ok (s, k') /\
    free 4 s k = Ok s' /\ k' <> k /\ Simple.get 4 s k' = Ok (s1, view) /\
    exists s1', Simple.get 4 s' k' = Ok (s1', view).
Proof.
  destruct (allocate 4 (ex_mem [] []) 1) as [[s0 k]|] eqn:E0; [|vm_compute in E0; discriminate].
  assert (H0 := E0). vm_compute in H0. injection H0 as Hs0 <-.
  destruct (allocate 4 s0 1) as [[s k']|] eqn:E1; [|subst s0; vm_compute in E1; discriminate].
  assert (H1 := E1). subst s0. vm_compute in H1. injection H1 as Hs <-.
  destruct (free 4 s (mk_key 1 1)) as [s'|] eqn:E2; [|subst s; vm_compute in E2; discriminate].
  destruct (Simple.get 4 s (mk_key 2 1)) as [[s1 view]|] eqn:E3; [|subst s; vm_compute in E3; discriminate].
  assert (Hne : mk_key 2 1 <> mk_key 1 1) by discriminate.
  do 7 eexists. split_and!; [exact E0|exact E1|exact E2|exact Hne|exact E3|].
  exact (free_keeps_other_views 4 _ _ s' _ s1 view E2 Hne E3).
Defined.

End SimpleProps.
