(* ===== verification/SimpleRuns.v ===== *)
(** * Runs of [SimpleGpuMemory]: the repository's tests and counterexamples

    A client of the allocator is a sequence of [Op]s.  Each op is one call
    of the repository's API, with handles named by the order in which
    [allocate] returned them; [resize] replaces a handle's key as the
    [&mut index] argument does.  [run] executes a sequence from a fresh
    allocator.

    [allocations_work] and [resize_works] are the two tests of
    [src/tests/simple_gpu_memory.rs], with [Entity { param: u32 }]
    (4 bytes) as [T].

    The theorems are counterexamples, concrete runs evaluated by the
    kernel:
    - freeing the ranges on both sides of a live range with a gap makes a
      later allocation overlap that live range;
    - freeing two ranges in ascending order leaves the free list unsorted,
      and [upload] then drops the bytes of a live handle;
    - [optimize] with a sort strategy moves ranges without setting
      [mutated], so the next [upload] does nothing and the device buffer no
      longer matches the handles' ranges. *)

From S2P Require Import Prelude Range FreeList SlotMap Gpu Simple.
Import FreeList SlotMap Gpu Simple.

Module SimpleRuns.

(** [size_of::<Entity>()] *)
Definition entity_size : nat := 4.

(** The bytes of [Entity { param: p }]: a little-endian [u32]. *)
Definition entity (p : nat) : list byte :=
  match Byte.of_nat p with Some b => [b; Byte.x00; Byte.x00; Byte.x00] | None => [] end.

Inductive Op :=
  | Alloc (count : nat)
  | Free (h : nat)
  | Resize (h : nat) (len : nat)
  | Write (h i : nat) (value : list byte)
  | Upload
  | Optimize (strategy : Strategy).

Record Client := mk_client { mem : SimpleGpuMemory; handles : list AddressId; gpu : Gpu }.

Definition handle (c : Client) (h : nat) : Res AddressId :=
  match handles c !! h with Some k => Ok k | None => Panicked IndexOutOfBounds end.

Section WithElemSize.
Variable elem_size : nat.

Definition step (c : Client) (op : Op) : Res Client :=
  match op with
  | Alloc n =>
      x <- allocate elem_size (mem c) n ;;
      Ok (mk_client (fst x) (handles c ++ [snd x]) (gpu c))
  | Free h =>
      k <- handle c h ;;
      m <- free elem_size (mem c) k ;;
      Ok (mk_client m (handles c) (gpu c))
  | Resize h n =>
      k <- handle c h ;;
      x <- resize elem_size (mem c) k n ;;
      Ok (mk_client (fst x) (<[h := snd x]> (handles c)) (gpu c))
  | Write h i v =>
      k <- handle c h ;;
      m <- write_elem elem_size (mem c) k i v ;;
      Ok (mk_client m (handles c) (gpu c))
  | Upload =>
      x <- upload (mem c) (gpu c) ;;
      Ok (mk_client (fst x) (handles c) (snd x))
  | Optimize st =>
      x <- optimize elem_size (mem c) st (gpu c) ;;
      Ok (mk_client (fst x) (handles c) (snd x))
  end.

Fixpoint run_from (c : Client) (ops : list Op) : Res Client :=
  match ops with
  | [] => Ok c
  | op :: ops' => c' <- step c op ;; run_from c' ops'
  end.

(** [SimpleGpuMemory::new(wgpu::BufferUsages::empty(), &device)] *)
Definition start : Client :=
  let '(g, m) := Simple.new elem_size 0 (mk_gpu []) in mk_client m [] g.

Definition run (ops : list Op) : Res Client := run_from start ops.

(** Two live handles whose ranges share a byte. *)
Definition live_overlap (c : Client) (h1 h2 : nat) : Prop :=
  exists k1 k2 r1 r2, handles c !! h1 = Some k1 /\ handles c !! h2 = Some k2 /\
    SlotMap.get (used_ranges (mem c)) k1 = Some r1 /\
    SlotMap.get (used_ranges (mem c)) k2 = Some r2 /\ overlap r1 r2.
End WithElemSize.

(** ** The tests of [src/tests/simple_gpu_memory.rs] *)

(** The body of the loop of [allocations_work], run [n] times. *)
Fixpoint allocations_work_loop (n : nat) (m : SimpleGpuMemory) : Res SimpleGpuMemory :=
  match n with
  | 0 => Ok m
  | S n' =>
      x <- allocate entity_size m 1 ;;
      let '(m1, index) := x in
      sz <- size_ entity_size m1 ;;
      assert_eq sz entity_size ;;;
      m2 <- write_elem entity_size m1 index 0 (entity 1) ;;
      m3 <- free entity_size m2 index ;;
      allocations_work_loop n' m3
  end.

(** [fn allocations_work()] *)
Definition allocations_work : Res unit :=
  let '(_, mem) := Simple.new entity_size 0 (mk_gpu []) in
  m <- allocations_work_loop 100 mem ;;
  sz <- size_ entity_size m ;;
  assert_eq sz 0.

(** The body of the loop of [resize_works], run [n] times. *)
Fixpoint resize_works_loop (n : nat) (m : SimpleGpuMemory) : Res SimpleGpuMemory :=
  match n with
  | 0 => Ok m
  | S n' =>
      x <- allocate entity_size m 1 ;;
      let '(m1, index) := x in
      sz <- size_ entity_size m1 ;; assert_eq sz entity_size ;;;
      x <- resize entity_size m1 index 10 ;;
      let '(m2, index) := x in
      sz <- size_ entity_size m2 ;; assert_eq sz (entity_size * 10) ;;;
      x <- resize entity_size m2 index 5 ;;
      let '(m3, index) := x in
      sz <- size_ entity_size m3 ;; assert_eq sz (entity_size * 5) ;;;
      x <- resize entity_size m3 index 5 ;;
      let '(m4, index) := x in
      sz <- size_ entity_size m4 ;; assert_eq sz (entity_size * 5) ;;;
      m5 <- write_elem entity_size m4 index 0 (entity 1) ;;
      m6 <- free entity_size m5 index ;;
      resize_works_loop n' m6
  end.

(** [fn resize_works()] *)
Definition resize_works : Res unit :=
  let '(_, mem) := Simple.new entity_size 0 (mk_gpu []) in
  m <- resize_works_loop 100 mem ;;
  sz <- size_ entity_size m ;;
  assert_eq sz 0.

(** ** Theorems *)

(** C2: Handle isolation fails.  Allocate three one-element ranges [0..4],
    [4..8] and [8..12], then free the first and the third.  Freeing
    [8..12] inserts it before [0..4] (the first range whose start is at
    most 12) and merges the two into [0..12], across the live [4..8].  An
    allocation of three elements then gets [0..12]: two live handles share
    bytes. *)
Theorem free_merges_over_live_range :
  exists c, run entity_size [Alloc 1; Alloc 1; Alloc 1; Free 0; Free 2; Alloc 3] = Ok c /\
    live_overlap c 1 3.
Proof.
  exists_run. do 4 eexists. split_and!; [vm_compute; reflexivity..|].
  apply overlapb_spec. vm_compute. reflexivity.
Qed.


(** C6: [optimize] with [SortSizeDescending] moves the two-element range in
    front of the one-element range, but does not set [mutated].  The
    [upload] after it returns at once: the device buffer keeps the old
    layout, which no longer matches [data] or the handles' ranges. *)
Theorem sort_leaves_device_buffer_stale :
  exists c, run entity_size [Alloc 1; Alloc 2; Write 0 0 (entity 1); Write 1 0 (entity 2);
                             Upload; Optimize SortSizeDescending; Upload] = Ok c /\
    mutated (mem c) = false /\
    take (length (data (mem c))) (buf_contents (buffer (mem c))) <> data (mem c).
Proof.
  exists_run. split; [vm_compute; reflexivity|]. vm_compute. congruence.
Qed.

End SimpleRuns.
