(* ===== verification/SimpleInv.v ===== *)
(** * The size invariant of [SimpleGpuMemory]

    The spec requires that after any sequence of operations
    [allocated_count] equals the sum of [len_of] over the live handles, so
    that [size() == allocated_count * size_of::<T>()] is the number of live
    bytes.  [count_inv] states it on the model: the slotmap is well formed,
    every live range is a whole number of elements long, and
    [allocated_count] is the sum over [values()] of [len / size_of::<T>()].

    Every method that returns keeps it, on every branch: [allocate],
    [free], [resize], [get], the caller's write, [upload] and [optimize].
    [fix_sequence] and [sort] move ranges but keep their lengths.  So every
    client run of [SimpleRuns] keeps it.  [T] is not zero-sized, as the
    division by [size_of::<T>()] in [free] and [len_of] requires. *)

From S2P Require Import Prelude Range FreeList SlotMap Gpu Simple SimpleProps SimpleRuns.
Import FreeList SlotMap Gpu Simple SimpleProps.

Module SimpleInv.

(** [insert_by_key] and [sorted_by_key] only reorder. *)
Lemma insert_by_key_perm {A} (key : A -> Z) x l : insert_by_key key x l ≡ₚ x :: l.
Proof.
  induction l as [|y l IH]; simpl; [done|].
  destruct (key y <=? key x)%Z; [|done]. rewrite IH. apply Permutation_swap.
Qed.

Lemma sorted_by_key_perm {A} (key : A -> Z) l : sorted_by_key key l ≡ₚ l.
Proof.
  unfold sorted_by_key. rewrite <- (app_nil_r l) at 2. generalize (@nil A) as acc.
  induction l as [|x l IH]; intros acc; simpl; [done|].
  rewrite IH, insert_by_key_perm. symmetry. apply Permutation_middle.
Qed.

(** The keys [iter] lists are distinct. *)
Lemma iter_keys_NoDup {V} (sm : SlotMap V) : NoDup (map fst (iter sm)).
Proof.
  apply NoDup_ListNoDup, (NoDup_map_inv idx), NoDup_ListNoDup.
  rewrite map_map. apply iter_from_NoDup.
Qed.

(** The inner loop of [fix_sequence] moves both ends by the same amount. *)
Lemma shift_if_after_len range rl r r' :
  shift_if_after range rl r = Ok r' -> len r' = len r.
Proof.
  unfold shift_if_after. destruct (end_ range <=? start r).
  - destruct (usize_sub (start r) rl) as [st|] eqn:H1; [|discriminate]. cbn [res_bind].
    destruct (usize_sub (end_ r) rl) as [en|] eqn:H2; [|discriminate]. cbn [res_bind].
    apply usize_sub_inv in H1 as [-> ?], H2 as [-> ?]. intros Heq. injection Heq as <-.
    unfold len. simpl. lia.
  - intros H. by injection H as <-.
Qed.

Section WithElemSize.
Variable elem_size : nat.

(** The element count a range holds, [len_of] of its key. *)
Definition elems (r : AddressRange) : nat := len r / elem_size.

Definition count_inv (s : SimpleGpuMemory) : Prop :=
  SlotMap.wf (used_ranges s) /\
  (forall k r, SlotMap.get (used_ranges s) k = Some r -> len r mod elem_size = 0) /\
  allocated_count s = occ_sum elems (used_ranges s).

Hypothesis elem_size_pos : elem_size <> 0.

Lemma count_inv_same s s' :
  used_ranges s' = used_ranges s -> allocated_count s' = allocated_count s ->
  count_inv s -> count_inv s'.
Proof. intros Hu Hc. unfold count_inv. by rewrite Hu, Hc. Qed.

(** The range [take_range] hands out is exactly [size] bytes long. *)
Lemma take_range_len size d ar d' ar' r :
  take_range size d ar = Ok (d', ar', r) -> len r = size.
Proof.
  unfold take_range.
  destruct (rposition_find _ ar) as [i|] eqn:Hf.
  - apply rposition_find_spec in Hf as (x & Hx & Hle & _). rewrite Hx.
    apply Nat.leb_le in Hle.
    destruct (negb (len x =? size)) eqn:Hne.
    + destruct (usize_sub (end_ x) size) as [ne|] eqn:Hs; [|discriminate].
      apply usize_sub_inv in Hs as [-> _]. intros H. injection H as _ _ <-.
      unfold len in *. simpl. lia.
    + apply negb_false_iff, Nat.eqb_eq in Hne. intros H. by injection H as _ _ <-.
  - destruct (N.of_nat _ <=? _)%N; [|discriminate]. simpl. intros H.
    injection H as _ _ <-. unfold len. simpl. rewrite length_app, repeat_length. lia.
Qed.

Lemma allocate_count_inv s count s' k :
  count_inv s -> allocate elem_size s count = Ok (s', k) -> count_inv s'.
Proof.
  intros (Hwf & Hmod & Hsum) Ha. pose proof (allocate_wf _ _ _ _ _ Hwf Ha) as Hwf'.
  unfold allocate in Ha.
  destruct (usize_mul _ _) as [size|] eqn:Hm; [|discriminate]. cbn [res_bind] in Ha.
  apply usize_mul_inv in Hm as [-> _].
  destruct (take_range _ _ _) as [[[d ar] r]|] eqn:Ht; [|discriminate]. cbn [res_bind] in Ha.
  apply take_range_len in Ht.
  destruct (usize_add _ _) as [c|] eqn:Hc; [|discriminate]. cbn [res_bind] in Ha.
  apply usize_add_inv in Hc as [-> _].
  destruct (insert _ _) as [[used' k']|] eqn:Hins; [|discriminate]. cbn [res_bind] in Ha.
  injection Ha as <- <-. split_and!; simpl; [done| |].
  - intros k'' r'' Hg. destruct (decide (k'' = k')) as [->|Hne].
    + rewrite (insert_new _ _ _ _ Hins) in Hg. injection Hg as <-.
      rewrite Ht, Nat.mul_comm. apply Nat.Div0.mod_mul.
    + rewrite (insert_other _ _ _ _ _ Hwf Hins Hne) in Hg. eauto.
  - rewrite (occ_sum_insert _ _ _ _ _ Hwf Hins), <- Hsum. unfold elems.
    rewrite Ht, Nat.mul_comm, Nat.div_mul by done. done.
Qed.

Lemma free_count_inv s k s' :
  count_inv s -> free elem_size s k = Ok s' -> count_inv s'.
Proof.
  intros (Hwf & Hmod & Hsum). unfold free.
  destruct (remove (used_ranges s) k) as [used' [r|]] eqn:Hrem.
  - destruct (usize_div _ _) as [c|] eqn:Hd; [|discriminate]. cbn [res_bind].
    apply usize_div_inv in Hd as [-> _].
    destruct (usize_sub _ _) as [c'|] eqn:Hs; [|discriminate]. cbn [res_bind].
    apply usize_sub_inv in Hs as [-> _]. intros H. injection H as <-.
    destruct (remove_some _ _ _ _ Hrem) as (_ & Hgone & Hother).
    split_and!; simpl; [by eapply remove_wf| |].
    + intros k' r' Hg. destruct (decide (k' = k)) as [->|Hne]; [congruence|].
      rewrite Hother in Hg by done. eauto.
    + rewrite Hsum, (occ_sum_remove elems _ _ _ _ Hrem). unfold elems. lia.
  - intros H. injection H as <-. by split_and!.
Qed.
(** Taking [b] whole elements off a whole number of elements. *)
Lemma div_sub_mul a b : a mod elem_size = 0 -> b * elem_size <= a ->
  (a - b * elem_size) / elem_size = a / elem_size - b.
Proof.
  intros Hm Hle. pose proof (Nat.Div0.div_exact a elem_size) as [_ Hx].
  specialize (Hx Hm). remember (a / elem_size) as q.
  rewrite Hx in *. replace (elem_size * q - b * elem_size) with ((q - b) * elem_size) by nia.
  rewrite Nat.div_mul by done. done.
Qed.

Lemma resize_count_inv s k n s' k' :
  count_inv s -> resize elem_size s k n = Ok (s', k') -> count_inv s'.
Proof.
  intros Hinv Hr. pose proof Hinv as (Hwf & Hmod & Hsum). unfold resize in Hr.
  destruct (usize_mul _ _) as [size|] eqn:Hm; [|discriminate]. cbn [res_bind] in Hr.
  apply usize_mul_inv in Hm as [-> _].
  destruct (index _ _) as [r|] eqn:Hi; [|discriminate]. cbn [res_bind] in Hr.
  apply index_ok in Hi.
  destruct (Nat.compare (len r) (n * elem_size)) eqn:Hc.
  - by injection Hr as <- _.
  - destruct (free elem_size s k) as [s1|] eqn:Hf; [|discriminate]. cbn [res_bind] in Hr.
    eapply allocate_count_inv; [|exact Hr]. by eapply free_count_inv.
  - apply Nat.compare_gt_iff in Hc. unfold len in Hc.
    destruct (usize_sub (end_ r) (n * elem_size)) as [fe|] eqn:Hfe; cbn [res_bind] in Hr;
      [|discriminate]. apply usize_sub_inv in Hfe as [-> _].
    destruct (usize_div _ _) as [c|] eqn:Hd; [|discriminate]. cbn [res_bind] in Hr.
    apply usize_div_inv in Hd as [-> _].
    destruct (usize_sub (allocated_count s) _) as [c'|] eqn:Hs; [|discriminate].
    cbn [res_bind] in Hr. apply usize_sub_inv in Hs as [-> _].
    destruct (index_set _ _ _) as [used'|] eqn:Hset; [|discriminate]. cbn [res_bind] in Hr.
    injection Hr as <- <-. destruct (index_set_spec _ _ _ _ Hset) as (_ & Hnew & Hother).
    pose proof (occ_sum_index_set elems _ _ _ _ _ Hset Hi) as Hocc.
    pose proof (Hmod k r Hi) as Hmr.
    split_and!; simpl; [by eapply index_set_wf| |].
    + intros k'' r'' Hg. destruct (decide (k'' = k)) as [->|Hne].
      * rewrite Hnew in Hg. injection Hg as <-. unfold len. simpl.
        replace (end_ r - (end_ r - n * elem_size)) with (n * elem_size) by lia.
        apply Nat.Div0.mod_mul.
      * rewrite Hother in Hg by done. eauto.
    + unfold elems, len in *. simpl in Hocc.
      replace (end_ r - (end_ r - n * elem_size)) with (n * elem_size) in Hocc by lia.
      rewrite Nat.div_mul in Hocc by done. simpl.
      replace (end_ r - n * elem_size - start r) with (end_ r - start r - n * elem_size) by lia.
      rewrite div_sub_mul by (done || lia).
      assert (n <= (end_ r - start r) / elem_size).
      { rewrite <- (Nat.div_mul n elem_size) at 1 by done. apply Nat.Div0.div_le_mono. lia. }
      lia.
Qed.
(** A [values_mut] pass that keeps every length keeps the invariant. *)
Lemma values_try_map_count_inv g s s' :
  (forall r r', g r = Ok r' -> len r' = len r) ->
  values_try_map g (used_ranges s) = Ok (used_ranges s') ->
  allocated_count s' = allocated_count s -> count_inv s -> count_inv s'.
Proof.
  intros Hg Hmap Hc (Hwf & Hmod & Hsum). split_and!.
  - by eapply values_try_map_wf.
  - intros k r' Hr'. destruct (SlotMap.get (used_ranges s) k) as [r|] eqn:Hr.
    + destruct (proj2 (values_try_map_get _ _ _ k Hmap) r Hr) as (r'' & Hgr & Hget).
      rewrite Hget in Hr'. injection Hr' as <-. rewrite (Hg _ _ Hgr). eauto.
    + by rewrite (proj1 (values_try_map_get _ _ _ k Hmap) Hr) in Hr'.
  - rewrite Hc, Hsum. symmetry. apply (occ_sum_values_try_map _ g _ _); [|done].
    intros r r' H. unfold elems. by rewrite (Hg _ _ H).
Qed.

Lemma fix_sequence_count_inv s s' :
  count_inv s -> fix_sequence s = Ok s' -> count_inv s'.
Proof.
  unfold fix_sequence. intros Hinv.
  destruct (fix_sequence_loop _ _ _) as [[used' d']|] eqn:Hl; [|discriminate].
  cbn [res_bind]. intros H. injection H as <-.
  remember (rev (available_ranges s)) as rs eqn:Hrs. clear Hrs.
  revert s Hinv Hl. induction rs as [|range rs IH]; intros s Hinv Hl; simpl in Hl.
  - injection Hl as <- <-. by apply (count_inv_same s).
  - destruct (values_try_map _ _) as [u1|] eqn:Hm; [|discriminate]. cbn [res_bind] in Hl.
    destruct (vec_drain _ _ _) as [d1|]; [|discriminate]. cbn [res_bind] in Hl.
    apply (IH (mk_mem (buffer s) d1 [] u1 (allocated_count s) (mutated s))); [|done].
    apply (values_try_map_count_inv (shift_if_after range (len range)) s); [|done|done|done].
    apply shift_if_after_len.
Qed.
Lemma slice_range_length a b (d bytes : list byte) :
  slice_range a b d = Ok bytes -> length bytes = b - a.
Proof.
  unfold slice_range. destruct ((a <=? b) && (b <=? length d)) eqn:Hb; [|discriminate].
  apply andb_true_iff in Hb as [Hb1 Hb2]. apply Nat.leb_le in Hb1, Hb2.
  simpl. intros H. injection H as <-. rewrite length_take, length_drop. lia.
Qed.

(** The copy loop of [sort] gives each key a range of the same length. *)
Lemma sort_loop_count_inv d sorted used nd used' nd' :
  NoDup (map fst sorted) ->
  (forall k r, In (k, r) sorted -> SlotMap.get used k = Some r) ->
  SlotMap.wf used -> (forall k r, SlotMap.get used k = Some r -> len r mod elem_size = 0) ->
  sort_loop d sorted used nd = Ok (used', nd') ->
  SlotMap.wf used' /\ (forall k r, SlotMap.get used' k = Some r -> len r mod elem_size = 0) /\
  forall f, (forall r r', len r = len r' -> f r = f r') -> occ_sum f used' = occ_sum f used.
Proof.
  revert used nd. induction sorted as [|[key range] sorted IH];
    intros used nd Hnd Hin Hwf Hmod Hl; simpl in Hl.
  - by injection Hl as <- <-.
  - destruct (slice_range _ _ d) as [bytes|] eqn:Hs; [|discriminate]. cbn [res_bind] in Hl.
    apply slice_range_length in Hs.
    destruct (index_set _ _ _) as [used1|] eqn:Hset; [|discriminate]. cbn [res_bind] in Hl.
    simpl in Hnd. apply NoDup_cons in Hnd as [Hkey Hnd].
    assert (Hg : SlotMap.get used key = Some range) by (apply Hin; by left).
    destruct (index_set_spec _ _ _ _ Hset) as (_ & Hnew & Hother).
    assert (Hlen : len (length nd ..< length (nd ++ bytes)) = len range)
      by (unfold len; simpl; rewrite length_app, Hs; lia).
    destruct (IH used1 (nd ++ bytes)) as (Hwf' & Hmod' & Hocc'); [done| | | |done|].
    + intros k r Hkr. rewrite Hother; [apply Hin; by right|].
      intros ->. apply Hkey. apply list_elem_of_In, in_map_iff. by exists (key, r).
    + by eapply index_set_wf.
    + intros k r Hkr. destruct (decide (k = key)) as [->|Hne].
      * rewrite Hnew in Hkr. injection Hkr as <-. rewrite Hlen. eauto.
      * rewrite Hother in Hkr by done. eauto.
    + split_and!; [done|done|]. intros f Hf. rewrite (Hocc' f Hf).
      pose proof (occ_sum_index_set f _ _ _ _ _ Hset Hg) as Hocc.
      rewrite (Hf _ _ Hlen) in Hocc. lia.
Qed.

Lemma sort_count_inv s desc s' :
  count_inv s -> sort elem_size s desc = Ok s' -> count_inv s'.
Proof.
  intros (Hwf & Hmod & Hsum). unfold sort.
  destruct (size_ _ _); [|discriminate]. cbn [res_bind].
  destruct (sort_loop _ _ _ _) as [[used' nd]|] eqn:Hl; [|discriminate]. cbn [res_bind].
  intros H. injection H as <-.
  pose proof (sorted_by_key_perm (sort_key desc) (iter (used_ranges s))) as Hperm.
  assert (Hnd : NoDup (map fst (sorted_by_key (sort_key desc) (iter (used_ranges s)))))
    by (rewrite Hperm; apply iter_keys_NoDup).
  assert (Hin : forall k r, In (k, r) (sorted_by_key (sort_key desc) (iter (used_ranges s))) ->
                  SlotMap.get (used_ranges s) k = Some r)
    by (intros k r Hkr; apply iter_In; by apply (Permutation_in _ Hperm) in Hkr).
  destruct (sort_loop_count_inv _ _ _ _ _ _ Hnd Hin Hwf Hmod Hl) as (Hwf' & Hmod' & Hocc).
  split_and!; simpl; [done|done|]. rewrite Hocc; [done|]. intros r r' Hr. unfold elems. by rewrite Hr.
Qed.
Lemma get_count_inv s k s1 view :
  count_inv s -> Simple.get elem_size s k = Ok (s1, view) -> count_inv s1.
Proof.
  intros Hinv Hg. destruct (get_inv _ _ _ _ _ Hg) as (_ & _ & _ & _ & _ & _ & ->).
  by apply (count_inv_same s).
Qed.

Lemma write_elem_count_inv s k i v s' :
  count_inv s -> write_elem elem_size s k i v = Ok s' -> count_inv s'.
Proof.
  intros Hinv. unfold write_elem.
  destruct (Simple.get elem_size s k) as [[s1 view]|] eqn:Hg; [|discriminate].
  cbn [res_bind]. apply (get_count_inv _ _ _ _ Hinv) in Hg.
  destruct (guard _ _); [|discriminate]. cbn [res_bind].
  destruct (index _ _); [|discriminate]. cbn [res_bind].
  intros H. injection H as <-. by apply (count_inv_same s1).
Qed.

Lemma upload_count_inv s g s' g' :
  count_inv s -> upload s g = Ok (s', g') -> count_inv s'.
Proof.
  intros Hinv. unfold upload. destruct (negb (mutated s)).
  - intros H. by injection H as <- _.
  - destruct (fix_sequence s) as [s1|] eqn:Hf; [|discriminate]. cbn [res_bind].
    apply (fix_sequence_count_inv _ _ Hinv) in Hf.
    destruct (upload_or_resize _ _ _). intros H. injection H as <- _.
    by apply (count_inv_same s1).
Qed.

Lemma optimize_count_inv s st g s' g' :
  count_inv s -> optimize elem_size s st g = Ok (s', g') -> count_inv s'.
Proof.
  intros Hinv. unfold optimize. destruct (size_ _ _); [|discriminate]. cbn [res_bind].
  destruct st.
  - destruct (fix_sequence s) as [s1|] eqn:Hf; [|discriminate]. cbn [res_bind].
    apply (fix_sequence_count_inv _ _ Hinv) in Hf.
    destruct (create_buffer_init _ _ _). intros H. injection H as <- _.
    by apply (count_inv_same s1).
  - destruct (sort _ s true) as [s1|] eqn:Hs; [|discriminate]. cbn [res_bind].
    intros H. injection H as <- _. by eapply sort_count_inv.
  - destruct (sort _ s false) as [s1|] eqn:Hs; [|discriminate]. cbn [res_bind].
    intros H. injection H as <- _. by eapply sort_count_inv.
Qed.

(** Every call a client makes keeps the invariant. *)
Lemma step_count_inv c op c' :
  count_inv (SimpleRuns.mem c) -> SimpleRuns.step elem_size c op = Ok c' -> count_inv (SimpleRuns.mem c').
Proof.
  intros Hinv. destruct op as [n|h|h n|h i v| |st]; simpl.
  - destruct (allocate _ _ _) as [[m k]|] eqn:Ha; [|discriminate]. simpl.
    intros H. injection H as <-. by eapply allocate_count_inv.
  - destruct (SimpleRuns.handle c h); [|discriminate]. cbn [res_bind].
    destruct (free _ _ _) eqn:Hf; [|discriminate]. cbn [res_bind].
    intros H. injection H as <-. by eapply free_count_inv.
  - destruct (SimpleRuns.handle c h); [|discriminate]. cbn [res_bind].
    destruct (resize _ _ _ _) as [[m k]|] eqn:Hr; [|discriminate]. cbn [res_bind].
    intros H. injection H as <-. by eapply resize_count_inv.
  - destruct (SimpleRuns.handle c h); [|discriminate]. cbn [res_bind].
    destruct (write_elem _ _ _ _ _) eqn:Hw; [|discriminate]. cbn [res_bind].
    intros H. injection H as <-. by eapply write_elem_count_inv.
  - destruct (upload _ _) as [[m g]|] eqn:Hu; [|discriminate]. cbn [res_bind].
    intros H. injection H as <-. by eapply upload_count_inv.
  - destruct (optimize _ _ _ _) as [[m g]|] eqn:Ho; [|discriminate]. cbn [res_bind].
    intros H. injection H as <-. by eapply optimize_count_inv.
Qed.

Lemma count_inv_new usages g : count_inv (Simple.new elem_size usages g).2.
Proof.
  unfold Simple.new. destruct (create_buffer _ _ _). simpl.
  split_and!; [exact wf_new| |reflexivity].
  intros k r Hg. unfold SlotMap.get in Hg. simpl in Hg.
  destruct (idx k) as [|[|]]; simpl in Hg; [|done|done].
  revert Hg. by case_match.
Qed.

Lemma count_inv_start : count_inv (SimpleRuns.mem (SimpleRuns.start elem_size)).
Proof.
  unfold SimpleRuns.start. destruct (Simple.new elem_size 0 (mk_gpu [])) as [g m] eqn:E.
  change m with (g, m).2. rewrite <- E. apply count_inv_new.
Qed.

Lemma run_from_count_inv c ops c' :
  count_inv (SimpleRuns.mem c) -> SimpleRuns.run_from elem_size c ops = Ok c' -> count_inv (SimpleRuns.mem c').
Proof.
  revert c. induction ops as [|op ops IH]; intros c Hinv H; simpl in H.
  - by injection H as <-.
  - destruct (SimpleRuns.step _ c op) as [c1|] eqn:Hs; [|discriminate]. cbn [res_bind] in H.
    apply (IH c1); [|done]. by eapply step_count_inv.
Qed.
(** ** Theorems *)

(** C10: The size invariant of the spec holds after every run of calls from
    a fresh allocator: [len()] (the [allocated_count]) is the sum over
    [values()] of the live ranges' element counts, every live range is a
    whole number of elements long, and [len_of] of a live key is its
    range's element count. *)
Theorem run_size_invariant ops c :
  SimpleRuns.run elem_size ops = Ok c ->
  len_ (SimpleRuns.mem c) = sum_list_with elems (values (used_ranges (SimpleRuns.mem c))) /\
  forall k r, SlotMap.get (used_ranges (SimpleRuns.mem c)) k = Some r ->
    len r mod elem_size = 0 /\ len_of elem_size (SimpleRuns.mem c) k = Ok (elems r).
Proof.
  intros Hrun. apply run_from_count_inv in Hrun as (_ & Hmod & Hsum); [|apply count_inv_start].
  split; [by rewrite <- occ_sum_values|].
  intros k r Hg. split; [eauto|]. unfold len_of.
  rewrite (proj2 (index_ok _ _ _) Hg). cbn [res_bind]. by apply usize_div_ok.
Qed.
End WithElemSize.

(** ** Witnesses *)

Lemma run_size_invariant_witness :
  4 <> 0 /\ exists c, SimpleRuns.run 4 [SimpleRuns.Alloc 1; SimpleRuns.Alloc 2; SimpleRuns.Free 0;
    SimpleRuns.Resize 1 1; SimpleRuns.Upload] = Ok c /\ len_ (SimpleRuns.mem c) = 1 /\
    len_ (SimpleRuns.mem c) = sum_list_with (elems 4) (values (used_ranges (SimpleRuns.mem c))).
Proof.
  split; [lia|].
  destruct (SimpleRuns.run 4 _) as [c|] eqn:E; [|vm_compute in E; discriminate].
  exists c. split_and!; [done| |].
  - vm_compute in E. by injection E as <-.
  - exact (proj1 (run_size_invariant 4 ltac:(lia) _ c E)).
Defined.


End SimpleInv.
