(* ===== verification/SimpleKeys.v ===== *)
(** * Stale keys of [SimpleGpuMemory] come back after [2^31] reuses

    [AddressId] is the [slotmap] crate's [DefaultKey]: a slot index and a
    [u32] version.  [free] bumps the version of the slot with
    [wrapping_add(1)]; the next [allocate] that reuses the slot sets it to
    [version | 1].  A freed key stays invalid only as long as the version
    has not come round: after [2^31] free/allocate cycles on the same slot
    the version is back where it started, and the key freed in the first
    cycle names the live allocation again.

    [churn] is one cycle of a client that frees its handle and allocates
    one element again, as the loop of the test [allocations_work] does.
    [churn_n n] runs [n] cycles, counted in [N].  [one_slot b v] is the
    state of the allocator during the run: one live 4-byte range [0..4]
    in slot 1 with version [v]. *)

From S2P Require Import Prelude Range FreeList SlotMap Gpu Simple.
Import FreeList SlotMap Gpu Simple.

Module SimpleKeys.

Section WithElemSize.
Variable elem_size : nat.

(** [mem.free(index); index = mem.allocate(1);] *)
Definition churn (s : SimpleGpuMemory) (k : AddressId) : Res (SimpleGpuMemory * AddressId) :=
  s1 <- free elem_size s k ;;
  allocate elem_size s1 1.

(** [n] cycles of [churn]. *)
Definition churn_n (n : N) (s : SimpleGpuMemory) (k : AddressId) : Res (SimpleGpuMemory * AddressId) :=
  N.iter n (fun r => x <- r ;; churn (fst x) (snd x)) (Ok (s, k)).
End WithElemSize.

(** One live range [0..4] in slot 1, at version [v]. *)
Definition one_slot (b : Buffer) (v : N) : SimpleGpuMemory :=
  mk_mem b (repeat Byte.x00 4) []
    (mk_slotmap [mk_slot (Vacant 0) 0%N; mk_slot (Occupied (0 ..< 4)) v] 2 1) 1 true.

(** The version [free] then [allocate] give the slot. *)
Definition next_version (v : N) : N := N.lor ((v + 1) mod u32_limit) 1.

(** The fresh allocator, with 4-byte elements. *)
Definition fresh : SimpleGpuMemory := snd (Simple.new 4 0 (mk_gpu [])).

(** ** Theorems *)

Lemma allocate_fresh : allocate 4 fresh 1 = Ok (one_slot (buffer fresh) 1, mk_key 1 1).
Proof. vm_compute. reflexivity. Qed.

Lemma churn_one_slot b v :
  churn 4 (one_slot b v) (mk_key 1 v) = Ok (one_slot b (next_version v), mk_key 1 (next_version v)).
Proof. unfold churn, free, remove. simpl. rewrite N.eqb_refl. reflexivity. Qed.

Lemma churn_n_succ n s k :
  churn_n 4 (N.succ n) s k = (x <- churn_n 4 n s k ;; churn 4 (fst x) (snd x)).
Proof. unfold churn_n. by rewrite N.iter_succ. Qed.

Lemma next_version_below n : (n + 1 < 2 ^ 31)%N -> next_version (2 * n + 1) = (2 * (n + 1) + 1)%N.
Proof.
  intros Hn. unfold next_version, u32_limit.
  rewrite N.mod_small by lia. replace (2 * n + 1 + 1)%N with (2 * (n + 1))%N by lia.
  apply lor_even_1.
Qed.

Lemma churn_n_below n :
  (n < 2 ^ 31)%N -> churn_n 4 n (one_slot (buffer fresh) 1) (mk_key 1 1) =
    Ok (one_slot (buffer fresh) (2 * n + 1), mk_key 1 (2 * n + 1)).
Proof.
  induction n as [|n IH] using N.peano_ind; intros Hn; [reflexivity|].
  rewrite churn_n_succ, IH by lia. simpl. rewrite churn_one_slot, next_version_below by lia.
  do 3 f_equal; lia.
Qed.

Lemma churn_n_wrap :
  churn_n 4 (2 ^ 31) (one_slot (buffer fresh) 1) (mk_key 1 1) =
    Ok (one_slot (buffer fresh) 1, mk_key 1 1).
Proof.
  replace (2 ^ 31)%N with (N.succ (2 ^ 31 - 1)) by reflexivity.
  rewrite churn_n_succ, churn_n_below by (vm_compute; reflexivity). simpl.
  rewrite churn_one_slot. reflexivity.
Qed.

(** C7: A freed [AddressId] comes back.  Allocate one element in a fresh
    allocator and keep its key [k].  After one [free] the key is stale
    and no longer names a range.  Freeing and allocating again keeps
    handing out keys different from [k], and [k] stays stale, for fewer
    than [2^31] cycles.  After exactly [2^31] cycles the slot's [u32]
    version has wrapped round, the allocation is handed out under [k]
    itself, and the stale handle [k] names the live range [0..4] again,
    against the handle isolation the spec requires. *)
Theorem freed_key_revived :
  exists s k, allocate 4 fresh 1 = Ok (s, k) /\
    (exists s1, free 4 s k = Ok s1 /\ SlotMap.get (used_ranges s1) k = None) /\
    (forall n, (0 < n < 2 ^ 31)%N -> exists s' k', churn_n 4 n s k = Ok (s', k') /\
       k' <> k /\ SlotMap.get (used_ranges s') k = None) /\
    exists s', churn_n 4 (2 ^ 31) s k = Ok (s', k) /\
      SlotMap.get (used_ranges s') k = Some (0 ..< 4).
Proof.
  exists (one_slot (buffer fresh) 1), (mk_key 1 1). split_and!.
  - exact allocate_fresh.
  - eexists. split; [vm_compute; reflexivity|reflexivity].
  - intros n Hn. rewrite churn_n_below by lia. eexists _, _. split; [reflexivity|].
    split.
    + intros [= Hv]. lia.
    + unfold SlotMap.get; simpl. replace (2 * n + 1 =? 1)%N with false by (symmetry; apply N.eqb_neq; lia).
      reflexivity.
  - eexists. split; [exact churn_n_wrap|reflexivity].
Qed.

End SimpleKeys.
