(* ===== verification/SimpleCompact.v ===== *)
(** * Compaction keeps every live view

    [fix_sequence] (called by [upload] and by [optimize Truncate]) drains
    the free ranges from [data], from the last one to the first, and
    moves down every live range that lies above the drained one.  The
    spec promises that afterwards "data contains only live bytes, tightly
    packed in their original relative order", and its round-trip
    compaction test requires every live handle's content to be unchanged.

    That holds whenever the state has the shape the spec requires of the
    free list ([compactable]): the free list is [separated] (sorted,
    coalesced, no empty entry), every range lies inside [data], and no live
    range overlaps a free one.  [make_range_available] does not keep that
    shape ([FreeList]), which is how [SimpleRuns.upload_drops_live_bytes]
    loses live bytes; on a [compactable] state the compaction itself is
    correct: it equals [compact_ref], the bytes of [data] at the
    positions no free range covers, in their order
    ([fix_sequence_compacts]).

    [views_kept] is what one compaction step keeps, and it composes, so
    the loop is proved one drained range at a time.  When the free and live
    ranges tile [data] ([tiled]: [compactable], live ranges pairwise apart,
    free and live lengths adding up to the length of [data]), the
    compaction leaves [data] holding only live bytes, tightly packed
    ([truncate_packs_live]).  [allocate] keeps the tiling
    ([allocate_keeps_tiled]): each branch of [take_range] shrinks or
    removes a free entry, or grows [data], and the range it hands out
    overlaps no free and no live range.

    [window r d] is the bytes of [d] in [r], what [get] returns. *)

From S2P Require Import Prelude Range FreeList SlotMap Gpu Simple SimpleRuns SimpleInv.
Import FreeList SlotMap Gpu Simple.

Module SimpleCompact.

(** [&data[r]] without its bounds check. *)
Definition window (r : AddressRange) (d : list byte) : list byte := take (len r) (drop (start r) d).

(** A live range and a free range share no byte. *)
Definition apart (f u : AddressRange) : Prop := end_ u <= start f \/ end_ f <= start u.

#[export] Instance apart_dec f u : Decision (apart f u).
Proof. unfold apart. apply _. Defined.

(** The shape the spec requires before a compaction. *)
Definition compactable (s : SimpleGpuMemory) : Prop :=
  separated (available_ranges s) /\
  Forall (fun f => end_ f <= length (data s)) (available_ranges s) /\
  Forall (fun ku => start ku.2 <= end_ ku.2 <= length (data s) /\
                    Forall (fun f => apart f ku.2) (available_ranges s))
         (SlotMap.iter (used_ranges s)).

#[export] Instance compactable_dec s : Decision (compactable s).
Proof. unfold compactable. apply _. Defined.

(** What a compaction keeps, from [used] over [d] to [used'] over [d']:
    every live key keeps a range of the same length, inside [d'], with the
    same bytes; no key appears; two live ranges one before the other stay
    in that order; and the total live length is unchanged. *)
Definition views_kept (used used' : SlotMap AddressRange) (d d' : list byte) : Prop :=
  (forall k u, SlotMap.get used k = Some u -> exists u', SlotMap.get used' k = Some u' /\
     len u' = len u /\ start u' <= end_ u' <= length d' /\ window u' d' = window u d) /\
  (forall k u', SlotMap.get used' k = Some u' -> exists u, SlotMap.get used k = Some u) /\
  (forall k1 k2 u1 u2 u1' u2', SlotMap.get used k1 = Some u1 -> SlotMap.get used k2 = Some u2 ->
     SlotMap.get used' k1 = Some u1' -> SlotMap.get used' k2 = Some u2' ->
     end_ u1 <= start u2 -> end_ u1' <= start u2') /\
  occ_sum len used' = occ_sum len used.

(** No two live ranges share a byte. *)
Definition live_apart (s : SimpleGpuMemory) : Prop :=
  Forall (fun e1 => Forall (fun e2 => e1.1 = e2.1 \/ apart e1.2 e2.2) (SlotMap.iter (used_ranges s)))
         (SlotMap.iter (used_ranges s)).

#[export] Instance live_apart_dec s : Decision (live_apart s).
Proof. unfold live_apart. apply _. Defined.

(** Every byte of [data] is counted once, as free or as live. *)
Definition accounted (s : SimpleGpuMemory) : Prop :=
  length (data s) = sum_list_with len (available_ranges s) + occ_sum len (used_ranges s).

(** The free and live ranges tile [data]: the shape the spec requires
    before a compaction, live ranges pairwise apart, and the free and live
    lengths adding up to the length of [data]. *)
Definition tiled (s : SimpleGpuMemory) : Prop := compactable s /\ live_apart s /\ accounted s.

#[export] Instance tiled_dec s : Decision (tiled s).
Proof. unfold tiled, accounted. apply _. Defined.

(** The reference compaction: the bytes of [d] at the positions no free
    range of [ar] covers, in their order. *)
Definition compact_ref (d : list byte) (ar : list AddressRange) : list byte :=
  select_from (fun p => negb (bool_decide (covered p ar))) 0 d.

(** ** One drained free range *)

(** The loop body on one live range [u] that does not overlap the drained
    free range [f]: it succeeds, keeps the length and the bytes of [u],
    and keeps [u] apart from every free range below [f]. *)
Lemma shift_step f d u :
  start f <= end_ f <= length d -> start u <= end_ u <= length d -> apart f u ->
  exists u1, shift_if_after f (len f) u = Ok u1 /\ len u1 = len u /\
    start u1 <= end_ u1 <= length (take (start f) d ++ drop (end_ f) d) /\
    window u1 (take (start f) d ++ drop (end_ f) d) = window u d /\
    forall f', end_ f' <= start f -> apart f' u -> apart f' u1.
Proof.
  intros Hf Hu Hap. unfold shift_if_after, window, apart, len in *.
  rewrite length_app, length_take, length_drop.
  destruct (Nat.leb_spec (end_ f) (start u)) as [Hle|Hgt].
  - rewrite !usize_sub_ok by lia. cbn [res_bind].
    eexists. split; [reflexivity|]. simpl. split_and!; [lia|lia|lia| |intros; lia].
    replace (end_ u - (end_ f - start f) - (start u - (end_ f - start f))) with (end_ u - start u) by lia.
    apply drain_window_above; lia.
  - eexists. split; [reflexivity|]. split_and!; [done|lia|lia| |done].
    apply drain_window_below; lia.
Qed.

(** How the loop body moves a live range [u] apart from the drained free
    range [f]: down by [len f] when it lies above [f], not at all when it
    lies below. *)
Lemma shift_if_after_cases f u v :
  apart f u -> shift_if_after f (len f) u = Ok v ->
  (end_ f <= start u /\ v = start u - len f ..< end_ u - len f) \/ (end_ u <= start f /\ v = u).
Proof.
  unfold shift_if_after, apart. intros Hap.
  destruct (Nat.leb_spec (end_ f) (start u)) as [Hle|Hgt].
  - destruct (usize_sub (start u) _) as [st|] eqn:H1; [|discriminate]. cbn [res_bind].
    destruct (usize_sub (end_ u) _) as [en|] eqn:H2; [|discriminate]. cbn [res_bind].
    apply usize_sub_inv in H1 as [-> _], H2 as [-> _]. intros H. injection H as <-. by left.
  - intros H. injection H as <-. right. split; [lia|done].
Qed.

(** The loop body keeps two live ranges in their order. *)
Lemma shift_keeps_before f u1 u2 v1 v2 :
  start f <= end_ f -> start u1 <= end_ u1 -> start u2 <= end_ u2 ->
  apart f u1 -> apart f u2 -> end_ u1 <= start u2 ->
  shift_if_after f (len f) u1 = Ok v1 -> shift_if_after f (len f) u2 = Ok v2 -> end_ v1 <= start v2.
Proof.
  intros Hf Hu1 Hu2 H1 H2 Hb S1 S2.
  destruct (shift_if_after_cases _ _ _ H1 S1) as [[? ->]|[? ->]],
    (shift_if_after_cases _ _ _ H2 S2) as [[? ->]|[? ->]]; unfold len in *; simpl; lia.
Qed.

Lemma views_kept_refl used d :
  (forall k u, SlotMap.get used k = Some u -> start u <= end_ u <= length d) -> views_kept used used d d.
Proof.
  intros Hin. split_and!; [|eauto| |done].
  - intros k u Hg. exists u. pose proof (Hin k u Hg). split_and!; done || lia.
  - intros k1 k2 u1 u2 u1' u2' H1 H2 H1' H2' Hb. rewrite H1 in H1'. rewrite H2 in H2'. by simplify_eq.
Qed.

Lemma views_kept_trans used0 used1 used2 d0 d1 d2 :
  views_kept used0 used1 d0 d1 -> views_kept used1 used2 d1 d2 -> views_kept used0 used2 d0 d2.
Proof.
  intros (Hf1 & Hb1 & Ho1 & Hs1) (Hf2 & Hb2 & Ho2 & Hs2). split_and!.
  - intros k u Hg. destruct (Hf1 k u Hg) as (w & Hw & Hl & _ & Hwin).
    destruct (Hf2 k w Hw) as (w' & Hw' & Hl' & Hfit & Hwin').
    exists w'. split_and!; [done|lia|lia|lia|congruence].
  - intros k u' Hg. destruct (Hb2 k u' Hg) as [w Hw]. eauto.
  - intros k1 k2 a1 a2 a1' a2' H1 H2 H1' H2' Hb.
    destruct (Hf1 k1 a1 H1) as (w1 & Hw1 & _), (Hf1 k2 a2 H2) as (w2 & Hw2 & _).
    apply (Ho2 k1 k2 w1 w2 a1' a2' Hw1 Hw2 H1' H2'), (Ho1 k1 k2 a1 a2 w1 w2 H1 H2 Hw1 Hw2 Hb).
  - congruence.
Qed.

(** One iteration of the outer loop, on every live range at once. *)
Lemma drain_step f ar used d :
  start f <= end_ f <= length d -> (forall f', In f' ar -> end_ f' <= start f) ->
  (forall k u, SlotMap.get used k = Some u ->
     start u <= end_ u <= length d /\ forall f', In f' (ar ++ [f]) -> apart f' u) ->
  exists used1, values_try_map (shift_if_after f (len f)) used = Ok used1 /\
    views_kept used used1 d (take (start f) d ++ drop (end_ f) d) /\
    forall k u1, SlotMap.get used1 k = Some u1 ->
      start u1 <= end_ u1 <= length (take (start f) d ++ drop (end_ f) d) /\
      forall f', In f' ar -> apart f' u1.
Proof.
  intros Hf Hbelow Hlive.
  assert (Hone : forall u, (start u <= end_ u <= length d /\ forall f', In f' (ar ++ [f]) -> apart f' u) ->
            exists u1, shift_if_after f (len f) u = Ok u1 /\ len u1 = len u /\
              start u1 <= end_ u1 <= length (take (start f) d ++ drop (end_ f) d) /\
              window u1 (take (start f) d ++ drop (end_ f) d) = window u d /\
              forall f', In f' ar -> apart f' u1).
  { intros u [Hu Hap]. destruct (shift_step f d u Hf Hu) as (u1 & Hs & Hl & Hfit & Hw & Hk);
      [apply Hap, in_app_iff; right; by left|].
    exists u1. do 4 (split; [done|]). intros f' Hf'. apply Hk; [by apply Hbelow|].
    apply Hap, in_app_iff. by left. }
  destruct (values_try_map_ok (shift_if_after f (len f)) used) as [used1 Hv].
  { intros k u Hg. destruct (Hone u (Hlive k u Hg)) as (u1 & Hs & _). eauto. }
  assert (Himg : forall k u, SlotMap.get used k = Some u ->
            exists u1, SlotMap.get used1 k = Some u1 /\ shift_if_after f (len f) u = Ok u1).
  { intros k u Hg. destruct (proj2 (values_try_map_get _ _ _ k Hv) u Hg) as (u1 & Hs & Hg1). eauto. }
  assert (Hback : forall k u1, SlotMap.get used1 k = Some u1 -> exists u, SlotMap.get used k = Some u).
  { intros k u1 Hg1. destruct (SlotMap.get used k) as [u|] eqn:Hg; [eauto|].
    by rewrite (proj1 (values_try_map_get _ _ _ k Hv) Hg) in Hg1. }
  exists used1. split; [done|]. split; [split_and!|].
  - intros k u Hg. destruct (Himg k u Hg) as (u1 & Hg1 & Hs).
    destruct (Hone u (Hlive k u Hg)) as (u1' & Hs' & Hl & Hfit & Hw & _).
    rewrite Hs in Hs'. injection Hs' as <-. eauto.
  - exact Hback.
  - intros k1 k2 u1 u2 v1 v2 H1 H2 H1' H2' Hb.
    destruct (Himg k1 u1 H1) as (w1 & Hw1 & S1), (Himg k2 u2 H2) as (w2 & Hw2 & S2).
    rewrite Hw1 in H1'. rewrite Hw2 in H2'. simplify_eq.
    destruct (Hlive k1 u1 H1) as [? Ha1], (Hlive k2 u2 H2) as [? Ha2].
    assert (Hff : In f (ar ++ [f])) by (apply in_app_iff; right; by left).
    apply (shift_keeps_before f u1 u2); [lia|lia|lia|by apply Ha1|by apply Ha2|done..].
  - exact (occ_sum_values_try_map len _ _ _ (SimpleInv.shift_if_after_len f (len f)) Hv).
  - intros k u1 Hg1. destruct (Hback k u1 Hg1) as [u Hg]. destruct (Himg k u Hg) as (u1' & Hg1' & Hs).
    rewrite Hg1 in Hg1'. injection Hg1' as <-.
    destruct (Hone u (Hlive k u Hg)) as (v & Hs' & _ & Hfit & _ & Hap).
    rewrite Hs in Hs'. injection Hs' as <-. done.
Qed.

(** The outer loop of [fix_sequence] over the free list [ar], sorted in
    ascending order, drains it from its last entry to its first. *)
Lemma fix_sequence_loop_views ar used d :
  (forall i j fi fj, i < j -> ar !! i = Some fi -> ar !! j = Some fj -> end_ fi <= start fj) ->
  (forall f, In f ar -> start f <= end_ f <= length d) ->
  (forall k u, SlotMap.get used k = Some u -> start u <= end_ u <= length d /\ forall f, In f ar -> apart f u) ->
  exists used' d', fix_sequence_loop (rev ar) used d = Ok (used', d') /\
    length d' = length d - sum_list_with len ar /\ views_kept used used' d d'.
Proof.
  revert used d. induction ar as [|f ar IH] using rev_ind; intros used d Hsort Hin Hlive.
  - exists used, d. split_and!; [done|simpl; lia|].
    apply views_kept_refl. intros k u Hg. exact (proj1 (Hlive k u Hg)).
  - assert (Hf : start f <= end_ f <= length d) by (apply Hin, in_app_iff; right; by left).
    assert (Hbelow : forall f', In f' ar -> end_ f' <= start f).
    { intros f' Hf'. apply list_elem_of_In, list_elem_of_lookup in Hf' as [i Hi].
      apply (Hsort i (length ar)); [by apply lookup_lt_Some in Hi|by apply lookup_app_l_Some|].
      by apply list_lookup_middle. }
    destruct (drain_step f ar used d Hf Hbelow Hlive) as (used1 & Hv & Hk1 & Hlive1).
    set (d1 := take (start f) d ++ drop (end_ f) d).
    assert (Hd1 : length d1 = length d - len f)
      by (unfold d1, len; rewrite length_app, length_take, length_drop; lia).
    destruct (IH used1 d1) as (used' & d' & Hloop & Hlen & Hk2); [| |exact Hlive1|].
    + intros i j fi fj Hij Hi Hj. apply (Hsort i j); [done|by apply lookup_app_l_Some..].
    + intros f' Hf'. split; [apply Hin, in_app_iff; by left|].
      pose proof (Hbelow f' Hf'). unfold len in Hd1. lia.
    + exists used', d'. rewrite rev_app_distr. simpl. rewrite Hv. cbn [res_bind].
      rewrite vec_drain_ok by lia. cbn [res_bind]. split; [exact Hloop|]. split.
      * rewrite Hlen, Hd1, sum_list_with_app. simpl. lia.
      * exact (views_kept_trans used used1 used' d d1 d' Hk1 Hk2).
Qed.

Lemma separated_In ar f : separated ar -> In f ar -> start f < end_ f.
Proof.
  induction ar as [|r ar IH]; intros Hs Hf; [done|].
  destruct Hs as (Hr & _ & Hs). destruct Hf as [<-|Hf]; [done|]. by apply IH.
Qed.

Lemma covered_snoc p ar f : covered p (ar ++ [f]) <-> covered p ar \/ in_range p f.
Proof.
  rewrite covered_app, covered_cons. unfold covered at 3.
  split; [intros [?|[?|H]]; [by left|by right|by inversion H]|tauto].
Qed.

(** Draining the last free range [f] from [d], then compacting the ranges
    below it, is the compaction of all of them. *)
Lemma drain_compact_ref f ar d :
  (forall f', In f' ar -> end_ f' <= start f) -> start f <= end_ f <= length d ->
  compact_ref (take (start f) d ++ drop (end_ f) d) ar = compact_ref d (ar ++ [f]).
Proof.
  intros Hbelow Hf. unfold compact_ref.
  assert (Hnot : forall p, start f <= p -> ~ covered p ar).
  { intros p Hp Hc. apply List.Exists_exists in Hc as (f' & Hf' & Hin).
    pose proof (Hbelow f' Hf'). unfold in_range in Hin. lia. }
  assert (Hd : take (start f) d ++ take (end_ f - start f) (drop (start f) d) ++ drop (end_ f) d = d).
  { replace (drop (end_ f) d) with (drop (end_ f - start f) (drop (start f) d))
      by (rewrite drop_drop; f_equal; lia).
    by rewrite !take_drop. }
  symmetry. rewrite <- Hd at 1. symmetry.
  rewrite !select_from_app, !length_take, length_drop, !Nat.min_l by lia. simpl.
  rewrite (select_from_none _ (start f) (take (end_ f - start f) (drop (start f) d))),
    (select_from_all _ (start f) (drop (end_ f) d)),
    (select_from_all _ (start f + (end_ f - start f)) (drop (end_ f) d)).
  - simpl. f_equal. apply select_from_ext. intros i Hi. f_equal. apply bool_decide_ext.
    rewrite covered_snoc. unfold in_range. rewrite length_take in Hi.
    split; [by left|]. intros [?|?]; [done|lia].
  - intros i Hi. apply negb_true_iff, bool_decide_eq_false_2. rewrite covered_snoc.
    unfold in_range. intros [Hc|?]; [apply (Hnot i); [lia|done]|lia].
  - intros i Hi. apply negb_true_iff, bool_decide_eq_false_2. apply Hnot. lia.
  - intros i Hi. rewrite length_take, length_drop, Nat.min_l in Hi by lia.
    apply negb_false_iff, bool_decide_eq_true_2. apply covered_snoc. right. unfold in_range. lia.
Qed.

(** The drain loop over a free list sorted in ascending order computes
    the reference compaction. *)
Lemma fix_sequence_loop_compacts ar used d used' d' :
  (forall i j fi fj, i < j -> ar !! i = Some fi -> ar !! j = Some fj -> end_ fi <= start fj) ->
  (forall f, In f ar -> start f <= end_ f <= length d) ->
  fix_sequence_loop (rev ar) used d = Ok (used', d') -> d' = compact_ref d ar.
Proof.
  revert used d. induction ar as [|f ar IH] using rev_ind; intros used d Hsort Hin Hloop.
  - injection Hloop as _ <-. symmetry. apply select_from_all. intros i _.
    apply negb_true_iff, bool_decide_eq_false_2. intros Hc. by inversion Hc.
  - assert (Hf : start f <= end_ f <= length d) by (apply Hin, in_app_iff; right; by left).
    assert (Hbelow : forall f', In f' ar -> end_ f' <= start f).
    { intros f' Hf'. apply list_elem_of_In, list_elem_of_lookup in Hf' as [i Hi].
      apply (Hsort i (length ar)); [by apply lookup_lt_Some in Hi|by apply lookup_app_l_Some|].
      by apply list_lookup_middle. }
    rewrite rev_app_distr in Hloop. simpl in Hloop.
    destruct (values_try_map _ used) as [used1|]; [|discriminate]. cbn [res_bind] in Hloop.
    rewrite vec_drain_ok in Hloop by lia. cbn [res_bind] in Hloop.
    rewrite <- drain_compact_ref by done. apply (IH used1); [| |exact Hloop].
    + intros i j fi fj Hij Hi Hj. apply (Hsort i j); [done|by apply lookup_app_l_Some..].
    + intros f' Hf'. split; [apply Hin, in_app_iff; by left|].
      pose proof (Hbelow f' Hf'). rewrite length_app, length_take, length_drop. lia.
Qed.

(** The free list of a [compactable] state is sorted in ascending order
    and lies in [data], as the drain loop needs. *)
Lemma compactable_free s :
  compactable s ->
  (forall i j fi fj, i < j -> available_ranges s !! i = Some fi -> available_ranges s !! j = Some fj ->
     end_ fi <= start fj) /\
  (forall f, In f (available_ranges s) -> start f <= end_ f <= length (data s)).
Proof.
  intros (Hsep & Hfree & _). rewrite List.Forall_forall in Hfree. split.
  - intros i j fi fj Hij Hi Hj. pose proof (separated_starts _ Hsep i j fi fj Hij Hi Hj). lia.
  - intros f Hf. pose proof (separated_In _ f Hsep Hf). pose proof (Hfree f Hf). lia.
Qed.

(** [fix_sequence] on a [compactable] state. *)
Lemma fix_sequence_views s :
  compactable s ->
  exists used' d', fix_sequence s = Ok (mk_mem (buffer s) d' [] used' (allocated_count s) (mutated s)) /\
    length d' = length (data s) - sum_list_with len (available_ranges s) /\
    views_kept (used_ranges s) used' (data s) d'.
Proof.
  intros Hc. destruct (compactable_free s Hc) as [Hsort Hin].
  destruct Hc as (_ & _ & Hused). rewrite List.Forall_forall in Hused.
  destruct (fix_sequence_loop_views (available_ranges s) (used_ranges s) (data s))
    as (used' & d' & Hloop & Hlen & Hviews); [done|done| |].
  - intros k u Hg. apply iter_In, Hused in Hg as [Hu Hap]. rewrite List.Forall_forall in Hap. done.
  - exists used', d'. unfold fix_sequence. rewrite Hloop. done.
Qed.

(** ** [allocate] keeps the shape *)

(** [compactable], stated on lookups and on [SlotMap.get]. *)
Lemma compactable_spec s :
  compactable s <->
  separated (available_ranges s) /\
  (forall j f, available_ranges s !! j = Some f -> end_ f <= length (data s)) /\
  (forall k u, SlotMap.get (used_ranges s) k = Some u ->
     start u <= end_ u <= length (data s) /\
     forall j f, available_ranges s !! j = Some f -> apart f u).
Proof.
  unfold compactable. split.
  - intros (Hs & Hf & Hu). rewrite Forall_lookup in Hf. rewrite List.Forall_forall in Hu.
    do 2 (split; [done|]). intros k u Hg.
    apply iter_In, Hu in Hg as [? Hap]. by rewrite Forall_lookup in Hap.
  - intros (Hs & Hf & Hu). rewrite Forall_lookup, List.Forall_forall.
    do 2 (split; [done|]). intros [k u] Hin.
    apply iter_In, Hu in Hin as [? Hap]. by rewrite Forall_lookup.
Qed.

(** A range apart from [f] stays apart from every sub-range of [f]. *)
Lemma apart_sub f f' u : start f <= start f' -> end_ f' <= end_ f -> apart f u -> apart f' u.
Proof. unfold apart. lia. Qed.

(** A sub-range of one entry of a separated list is apart from every other entry. *)
Lemma apart_others ar i j r f u :
  separated ar -> ar !! i = Some r -> ar !! j = Some f -> j <> i ->
  start r <= start u -> end_ u <= end_ r -> apart f u.
Proof.
  intros Hs Hi Hj Hne ??. unfold apart.
  destruct (Nat.lt_total i j) as [Hlt|[->|Hlt]]; [|done|].
  - pose proof (separated_starts ar Hs i j r f Hlt Hi Hj). lia.
  - pose proof (separated_starts ar Hs j i f r Hlt Hj Hi). lia.
Qed.

(** The three outcomes of [take_range]: the tail of a longer free range,
    a free range of exactly the size, removed, or new zero bytes. *)
Lemma take_range_cases size d ar d' ar' nr :
  take_range size d ar = Ok (d', ar', nr) ->
  (exists i r, ar !! i = Some r /\ size < len r /\ d' = d /\
     ar' = <[i := start r ..< end_ r - size]> ar /\ nr = end_ r - size ..< end_ r) \/
  (exists i r, ar !! i = Some r /\ len r = size /\ d' = d /\ ar' = vec_remove i ar /\ nr = r) \/
  (d' = d ++ repeat Byte.x00 size /\ ar' = ar /\ nr = length d ..< length d + size).
Proof.
  unfold take_range. destruct (rposition_find _ ar) as [i|] eqn:Hp.
  - apply rposition_find_spec in Hp as (r & Hi & Hfit & _). rewrite Hi.
    apply Nat.leb_le in Hfit. destruct (len r =? size) eqn:E; simpl.
    + intros H. injection H as <- <- <-. apply Nat.eqb_eq in E. right; left. eauto 10.
    + destruct (usize_sub (end_ r) size) as [e|] eqn:Hs; [|discriminate].
      apply usize_sub_inv in Hs as [-> _]. intros H. injection H as <- <- <-.
      apply Nat.eqb_neq in E. left. exists i, r. split_and!; [done|lia|done..].
  - destruct (N.of_nat _ <=? isize_max)%N; [|discriminate]. simpl.
    intros H. injection H as <- <- <-. right; right. by rewrite length_app, repeat_length.
Qed.

(** What [take_range] does to the free list and [data]: the free list
    stays separated and inside [data], every new entry lies in an old one,
    [data] only grows, and the range handed out lies in [data], apart from
    every free range. *)
Lemma take_range_keeps_shape size d ar d' ar' nr :
  separated ar -> (forall j f, ar !! j = Some f -> end_ f <= length d) ->
  take_range size d ar = Ok (d', ar', nr) ->
  separated ar' /\ (forall j f', ar' !! j = Some f' -> end_ f' <= length d') /\
  length d <= length d' /\ start nr <= end_ nr <= length d' /\
  (forall j f', ar' !! j = Some f' -> apart f' nr) /\
  (forall j f', ar' !! j = Some f' -> exists i f, ar !! i = Some f /\ start f <= start f' /\ end_ f' <= end_ f).
Proof.
  intros Hsep Hfree Ht.
  destruct (take_range_cases _ _ _ _ _ _ Ht)
    as [(i & r & Hi & Hlt & -> & -> & ->)|[(i & r & Hi & Hlen & -> & -> & ->)|(-> & -> & ->)]];
    unfold len in *.
  - pose proof (Hfree i r Hi).
    assert (Hsub : forall j f', <[i := start r ..< end_ r - size]> ar !! j = Some f' ->
              f' = start r ..< end_ r - size \/ (j <> i /\ ar !! j = Some f')).
    { intros j f' Hj. apply list_lookup_insert_Some in Hj as [(<- & <- & _)|[Hne Hj]]; [by left|by right]. }
    split_and!; [apply (separated_shrink _ _ r); [done|done|lia]| |lia|simpl; lia..| |].
    + intros j f' [->|[_ Hj]]%Hsub; [simpl; lia|by apply Hfree in Hj].
    + intros j f' [->|[Hne Hj]]%Hsub; [unfold apart; simpl; lia|].
      apply (apart_others ar i j r); simpl; [done..|lia|lia].
    + intros j f' [->|[_ Hj]]%Hsub; [exists i, r; simpl; split_and!; [done|lia|lia]|].
      exists j, f'. split_and!; [done|lia|lia].
  - pose proof (Hfree i r Hi).
    assert (start r < end_ r).
    { apply (separated_In ar); [done|]. apply list_elem_of_In, list_elem_of_lookup. eauto. }
    split_and!; [by apply separated_remove| |lia|lia|lia| |];
      intros j f' Hj; apply lookup_vec_remove_Some in Hj as (j' & Hne & Hj).
    + by apply Hfree in Hj.
    + apply (apart_others ar i j' r); [done..|lia|lia].
    + exists j', f'. split_and!; [done|lia|lia].
  - rewrite length_app, repeat_length.
    split_and!; [done| |lia|simpl; lia|simpl; lia| |]; intros j f' Hj; pose proof (Hfree j f' Hj).
    + lia.
    + unfold apart. simpl. lia.
    + exists j, f'. split_and!; [done|lia|lia].
Qed.

(** A property of every live range survives [SlotMap.insert] of a range
    that has it too. *)
Lemma insert_keeps_all used used' key nr (P : AddressRange -> Prop) :
  SlotMap.wf used -> SlotMap.insert used nr = Ok (used', key) ->
  P nr -> (forall k u, SlotMap.get used k = Some u -> P u) ->
  forall k u, SlotMap.get used' k = Some u -> P u.
Proof.
  intros Hwf Hi Hnr Hold k u Hg. destruct (decide (k = key)) as [->|Hne].
  - rewrite (SlotMap.insert_new _ _ _ _ Hi) in Hg. by injection Hg as <-.
  - rewrite (SlotMap.insert_other _ _ _ _ _ Hwf Hi Hne) in Hg. eauto.
Qed.

Lemma apart_sym u v : apart u v -> apart v u.
Proof. unfold apart. lia. Qed.

(** [live_apart], stated on [SlotMap.get]. *)
Lemma live_apart_spec s :
  live_apart s <-> forall k1 k2 u1 u2, k1 <> k2 -> SlotMap.get (used_ranges s) k1 = Some u1 ->
    SlotMap.get (used_ranges s) k2 = Some u2 -> apart u1 u2.
Proof.
  unfold live_apart. rewrite List.Forall_forall. split.
  - intros H k1 k2 u1 u2 Hne H1 H2. apply iter_In in H1, H2.
    specialize (H _ H1). rewrite List.Forall_forall in H.
    destruct (H _ H2) as [?|?]; [simpl in *; congruence|done].
  - intros H [k1 u1] H1. rewrite List.Forall_forall. intros [k2 u2] H2. apply iter_In in H1, H2.
    destruct (decide (k1 = k2)) as [->|Hne]; [by left|right; simpl; eauto].
Qed.

(** The range [take_range] hands out is apart from every range inside
    [d] that is apart from every free range. *)
Lemma take_range_apart size d ar d' ar' nr u :
  take_range size d ar = Ok (d', ar', nr) -> end_ u <= length d ->
  (forall j f, ar !! j = Some f -> apart f u) -> apart nr u.
Proof.
  intros Ht Hu Hap.
  destruct (take_range_cases _ _ _ _ _ _ Ht)
    as [(i & r & Hi & Hlt & _ & _ & ->)|[(i & r & Hi & _ & _ & _ & ->)|(_ & _ & ->)]].
  - apply (apart_sub r); [simpl; unfold len in Hlt; lia|simpl; lia|exact (Hap i r Hi)].
  - exact (Hap i r Hi).
  - left. simpl. lia.
Qed.

(** [take_range] hands out [size] bytes, taken from the free list or
    added to [data]. *)
Lemma take_range_accounts size d ar d' ar' nr :
  take_range size d ar = Ok (d', ar', nr) ->
  len nr = size /\ length d' + sum_list_with len ar = length d + sum_list_with len ar' + size.
Proof.
  intros Ht.
  destruct (take_range_cases _ _ _ _ _ _ Ht)
    as [(i & r & Hi & Hlt & -> & -> & ->)|[(i & r & Hi & Hlen & -> & -> & ->)|(-> & -> & ->)]].
  - pose proof (sum_list_with_insert len ar i r (start r ..< end_ r - size) Hi) as Hs.
    assert (Hl : len (start r ..< end_ r - size) = len r - size) by (unfold len in *; simpl; lia).
    rewrite Hl in Hs. split; [unfold len in *; simpl; lia|lia].
  - pose proof (sum_list_with_vec_remove len ar i r Hi). split; [done|lia].
  - rewrite length_app, repeat_length. split; [unfold len; simpl; lia|lia].
Qed.

(** [tiled] reads only the length of [data], the free list and the live
    ranges. *)
Lemma tiled_fields s s' :
  length (data s') = length (data s) -> available_ranges s' = available_ranges s ->
  used_ranges s' = used_ranges s -> tiled s -> tiled s'.
Proof. intros Hd Ha Hu. unfold tiled, compactable, live_apart, accounted. by rewrite Hd, Ha, Hu. Qed.

(** [fix_sequence] on a tiled state leaves no free range and the live
    ranges packed: whatever the other fields, the result is tiled. *)
Lemma fix_sequence_tiled s :
  tiled s ->
  exists used' d', fix_sequence s = Ok (mk_mem (buffer s) d' [] used' (allocated_count s) (mutated s)) /\
    views_kept (used_ranges s) used' (data s) d' /\ forall b c m, tiled (mk_mem b d' [] used' c m).
Proof.
  intros (Hc & Hla & Hacc).
  destruct (fix_sequence_views s Hc) as (used' & d' & Hfix & Hlen & Hviews).
  exists used', d'. split_and!; [done|done|]. destruct Hviews as (Hf & Hb & Ho & Hocc).
  intros b c m. split_and!.
  - apply compactable_spec. simpl. split_and!; [done|by intros j f Hj|].
    intros k u' Hg'. split; [|by intros j f Hj]. destruct (Hb k u' Hg') as [u Hg].
    destruct (Hf k u Hg) as (u'' & Hg'' & _ & Hfit & _). rewrite Hg' in Hg''. by injection Hg'' as <-.
  - rewrite live_apart_spec in Hla |- *. simpl. intros k1 k2 u1' u2' Hne H1' H2'.
    destruct (Hb k1 u1' H1') as [u1 H1], (Hb k2 u2' H2') as [u2 H2].
    destruct (Hla k1 k2 u1 u2 Hne H1 H2) as [H|H];
      [left; exact (Ho k2 k1 u2 u1 u2' u1' H2 H1 H2' H1' H)|right; exact (Ho k1 k2 u1 u2 u1' u2' H1 H2 H1' H2' H)].
  - unfold accounted in *. simpl. lia.
Qed.

(** C15: The compaction is the reference one.  On a state of the shape
    the spec requires, [fix_sequence] (the loop of [upload] and of
    [optimize Truncate]) succeeds, empties the free list, and leaves as
    [data] exactly the bytes of the old [data] at the positions no free
    range covers, in their order ([compact_ref]): draining the free
    ranges from the last to the first, with the shifts of the live ranges
    above each, computes the reference compaction. *)
Theorem fix_sequence_compacts s :
  compactable s ->
  exists s', fix_sequence s = Ok s' /\ available_ranges s' = [] /\
    data s' = compact_ref (data s) (available_ranges s).
Proof.
  intros Hc. destruct (compactable_free s Hc) as [Hsort Hin].
  destruct (fix_sequence_views s Hc) as (used' & d' & Hfix & _). eexists. split_and!; [exact Hfix|done|].
  unfold fix_sequence in Hfix. destruct (fix_sequence_loop _ _ _) as [[u d1]|] eqn:Hl; [|discriminate].
  cbn [res_bind] in Hfix. injection Hfix as -> ->. simpl.
  exact (fix_sequence_loop_compacts _ _ _ _ _ Hsort Hin Hl).
Qed.

Section WithElemSize.
Variable elem_size : nat.

(** The pieces of a successful [allocate]. *)
Lemma allocate_inv s count s' k :
  allocate elem_size s count = Ok (s', k) ->
  exists size nr, take_range size (data s) (available_ranges s) = Ok (data s', available_ranges s', nr) /\
    SlotMap.insert (used_ranges s) nr = Ok (used_ranges s', k).
Proof.
  unfold allocate. destruct (usize_mul elem_size count) as [size|]; [|discriminate]. cbn [res_bind].
  destruct (take_range _ _ _) as [[[d' ar'] nr]|] eqn:Ht; [|discriminate]. cbn [res_bind].
  destruct (usize_add _ _) as [c'|]; [|discriminate]. cbn [res_bind].
  destruct (SlotMap.insert _ _) as [[used' key]|] eqn:Hi; [|discriminate]. cbn [res_bind].
  intros Ha. injection Ha as <- <-. simpl. eauto.
Qed.

(** [allocate] keeps the shape the spec requires of the free list: whichever
    branch [take_range] takes (a split tail, an exact fit removed, or new
    bytes), the range it hands out overlaps no free range. *)
Lemma allocate_keeps_compactable s count s' k :
  SlotMap.wf (used_ranges s) -> compactable s ->
  allocate elem_size s count = Ok (s', k) -> compactable s'.
Proof.
  rewrite !compactable_spec. intros Hwf (Hsep & Hfree & Hused) (size & nr & Ht & Hi)%allocate_inv.
  pose proof (take_range_keeps_shape _ _ _ _ _ _ Hsep Hfree Ht) as Hsh.
  destruct Hsh as (Hsep' & Hfree' & Hgrow & Hnr & Hap & Hsub).
  split_and!; [done|done|].
  apply (insert_keeps_all _ _ _ _ (fun u => start u <= end_ u <= length (data s') /\
           forall j f, available_ranges s' !! j = Some f -> apart f u) Hwf Hi); [done|].
  intros k1 u1 Hg. destruct (Hused k1 u1 Hg) as [Hu Hold]. split; [lia|].
  intros j f' Hj. destruct (Hsub j f' Hj) as (i & f & Hf & ? & ?).
  by apply (apart_sub f); [..|apply (Hold i)].
Qed.

(** C13: Compaction is correct on a state of the shape the spec requires.
    When the free list is sorted and coalesced, every range lies in
    [data] and no live range overlaps a free one, [optimize Truncate]
    empties the free list, shrinks [data] by exactly the free bytes,
    uploads the new [data], and every live key keeps a range of the same
    length whose bytes are the bytes it had: every live handle's content
    is unchanged.  No key appears, two live ranges keep their relative
    order, and the total live length is unchanged ([views_kept]). *)
Theorem truncate_keeps_views s g :
  compactable s -> (N.of_nat (allocated_count s * elem_size) < usize_limit)%N ->
  exists s' g', optimize elem_size s Truncate g = Ok (s', g') /\
    available_ranges s' = [] /\
    length (data s') = length (data s) - sum_list_with len (available_ranges s) /\
    take (length (data s')) (buf_contents (buffer s')) = data s' /\
    views_kept (used_ranges s) (used_ranges s') (data s) (data s').
Proof.
  intros Hc Hsz. destruct (fix_sequence_views s Hc) as (used' & d' & Hfix & Hlen & Hviews).
  unfold optimize, size_. rewrite usize_mul_ok by done. cbn [res_bind]. rewrite Hfix. cbn [res_bind].
  unfold create_buffer_init. simpl.
  eexists _, _. split; [reflexivity|]. simpl. split_and!; [done|done|apply take_app_length|done].
Qed.

(** [allocate] keeps the free and live ranges tiling [data].  On a
    state whose free list has the shape the spec requires, whose live
    ranges are pairwise apart, and whose free and live lengths add up to
    the length of [data], a successful [allocate] leaves a state with the
    same three properties: the range it hands out overlaps no free and no
    live range, and its bytes move from the free list (or from the new
    tail of [data]) to the live ranges. *)
Lemma allocate_keeps_tiled s count s' k :
  SlotMap.wf (used_ranges s) -> tiled s -> allocate elem_size s count = Ok (s', k) -> tiled s'.
Proof.
  intros Hwf (Hc & Hla & Hacc) Ha. split; [exact (allocate_keeps_compactable s count s' k Hwf Hc Ha)|].
  destruct (allocate_inv _ _ _ _ Ha) as (size & nr & Ht & Hi).
  destruct (take_range_accounts _ _ _ _ _ _ Ht) as [Hlen Hsum].
  pose proof (proj1 (compactable_spec s) Hc) as (_ & _ & Hused).
  assert (Hold : forall k' u, k' <> k -> SlotMap.get (used_ranges s') k' = Some u ->
            apart nr u /\ SlotMap.get (used_ranges s) k' = Some u).
  { intros k' u Hne Hg. rewrite (SlotMap.insert_other _ _ _ _ _ Hwf Hi Hne) in Hg. split; [|done].
    destruct (Hused k' u Hg) as [? Hap]. apply (take_range_apart _ _ _ _ _ _ _ Ht); [lia|done]. }
  pose proof (SlotMap.insert_new _ _ _ _ Hi) as Hk. split.
  - rewrite live_apart_spec in Hla |- *. intros k1 k2 u1 u2 Hne H1 H2.
    destruct (decide (k1 = k)) as [->|Hne1]; [|destruct (decide (k2 = k)) as [->|Hne2]].
    + rewrite Hk in H1. injection H1 as <-. exact (proj1 (Hold k2 u2 (not_eq_sym Hne) H2)).
    + rewrite Hk in H2. injection H2 as <-. apply apart_sym. exact (proj1 (Hold k1 u1 Hne1 H1)).
    + apply (Hla k1 k2 u1 u2 Hne); [exact (proj2 (Hold k1 u1 Hne1 H1))|exact (proj2 (Hold k2 u2 Hne2 H2))].
  - unfold accounted in *. rewrite (occ_sum_insert len _ _ _ _ Hwf Hi). lia.
Qed.

(** C14: Compaction packs the live bytes.  On a state whose free and live
    ranges tile [data], [optimize Truncate] leaves no free range, live
    ranges that are pairwise apart and inside [data], and a [data] exactly
    as long as the live ranges together: [data] holds only live bytes,
    tightly packed, as the spec promises. *)
Theorem truncate_packs_live s g :
  tiled s -> (N.of_nat (allocated_count s * elem_size) < usize_limit)%N ->
  exists s' g', optimize elem_size s Truncate g = Ok (s', g') /\
    available_ranges s' = [] /\ live_apart s' /\
    (forall k u, SlotMap.get (used_ranges s') k = Some u -> start u <= end_ u <= length (data s')) /\
    length (data s') = occ_sum len (used_ranges s').
Proof.
  intros Ht Hsz. destruct (fix_sequence_tiled s Ht) as (used' & d' & Hfix & _ & Ht').
  unfold optimize, size_. rewrite usize_mul_ok by done. cbn [res_bind]. rewrite Hfix. cbn [res_bind].
  destruct (create_buffer_init _ _ _) as [g' buf]. eexists _, _. split; [reflexivity|].
  destruct (Ht' buf (allocated_count s) (mutated s)) as (Hc & Hla & Hacc).
  apply compactable_spec in Hc as (_ & _ & Hused). unfold accounted in Hacc. simpl in *.
  split_and!; [done|done|intros k u Hg; apply (Hused k u Hg)|lia].
Qed.
End WithElemSize.

(** Three one-element allocations, the first freed: the free list is
    [[0..4]] and the live ranges are [4..8] and [8..12]. *)
Lemma truncate_keeps_views_witness :
  exists c, SimpleRuns.run 4 [SimpleRuns.Alloc 1; SimpleRuns.Alloc 1; SimpleRuns.Alloc 1; SimpleRuns.Free 0] = Ok c /\
    compactable (SimpleRuns.mem c) /\
    (N.of_nat (allocated_count (SimpleRuns.mem c) * 4) < usize_limit)%N /\
    exists s' g', optimize 4 (SimpleRuns.mem c) Truncate (mk_gpu []) = Ok (s', g') /\
      length (data s') = 8.
Proof.
  destruct (SimpleRuns.run 4 _) as [c|] eqn:E; [|vm_compute in E; discriminate].
  assert (Hc : compactable (SimpleRuns.mem c))
    by (vm_compute in E; injection E as <-; apply (bool_decide_unpack _); vm_compute; reflexivity).
  assert (Hsz : (N.of_nat (allocated_count (SimpleRuns.mem c) * 4) < usize_limit)%N)
    by (vm_compute in E; injection E as <-; concrete).
  exists c. split_and!; [reflexivity|exact Hc|exact Hsz|].
  destruct (truncate_keeps_views 4 (SimpleRuns.mem c) (mk_gpu []) Hc Hsz) as (s' & g' & Ho & _ & Hlen & _).
  exists s', g'. split; [exact Ho|]. rewrite Hlen. vm_compute in E. injection E as <-. reflexivity.
Defined.


(** The same three allocations with the first freed: the state is tiled,
    and [optimize Truncate] packs the two live elements into 8 bytes. *)
Lemma truncate_packs_live_witness :
  exists c, SimpleRuns.run 4 [SimpleRuns.Alloc 1; SimpleRuns.Alloc 1; SimpleRuns.Alloc 1; SimpleRuns.Free 0] = Ok c /\
    tiled (SimpleRuns.mem c) /\ (N.of_nat (allocated_count (SimpleRuns.mem c) * 4) < usize_limit)%N /\
    exists s' g', optimize 4 (SimpleRuns.mem c) Truncate (mk_gpu []) = Ok (s', g') /\
      length (data s') = occ_sum len (used_ranges s') /\ live_apart s'.
Proof.
  destruct (SimpleRuns.run 4 _) as [c|] eqn:E; [|vm_compute in E; discriminate].
  assert (Ht : tiled (SimpleRuns.mem c))
    by (vm_compute in E; injection E as <-; apply (bool_decide_unpack _); vm_compute; reflexivity).
  assert (Hsz : (N.of_nat (allocated_count (SimpleRuns.mem c) * 4) < usize_limit)%N)
    by (vm_compute in E; injection E as <-; concrete).
  exists c. split_and!; [reflexivity|exact Ht|exact Hsz|].
  destruct (truncate_packs_live 4 (SimpleRuns.mem c) (mk_gpu []) Ht Hsz) as (s' & g' & Ho & _ & Hla & _ & Hlen).
  exists s', g'. split_and!; [exact Ho|exact Hlen|exact Hla].
Defined.
(** Three one-element allocations, the first freed: the compaction keeps
    bytes 4 to 11 of the 12, the two live elements. *)
Lemma fix_sequence_compacts_witness :
  exists c, SimpleRuns.run 4 [SimpleRuns.Alloc 1; SimpleRuns.Alloc 1; SimpleRuns.Alloc 1; SimpleRuns.Free 0] = Ok c /\
    compactable (SimpleRuns.mem c) /\
    exists s', fix_sequence (SimpleRuns.mem c) = Ok s' /\
      data s' = compact_ref (data (SimpleRuns.mem c)) (available_ranges (SimpleRuns.mem c)) /\
      data s' = drop 4 (data (SimpleRuns.mem c)).
Proof.
  destruct (SimpleRuns.run 4 _) as [c|] eqn:E; [|vm_compute in E; discriminate].
  assert (Hc : compactable (SimpleRuns.mem c))
    by (vm_compute in E; injection E as <-; apply (bool_decide_unpack _); vm_compute; reflexivity).
  exists c. split_and!; [reflexivity|exact Hc|].
  destruct (fix_sequence_compacts _ Hc) as (s' & Hf & _ & Hd).
  exists s'. split_and!; [exact Hf|exact Hd|]. rewrite Hd. vm_compute in E. injection E as <-. reflexivity.
Defined.

End SimpleCompact.
