(* ===== verification/SimpleSort.v ===== *)
(** * The layout [sort] produces

    [optimize] with [SortSizeDescending] or [SortSizeAscending] calls
    [sort], which orders the live entries of the slotmap with
    [Itertools::sorted_by_key] (a stable sort on [range.len() as isize],
    negated for the descending order), copies their bytes one after the
    other into a new [data], and points each key at its copy.  The spec
    describes exactly that: "stable-sort all live handles by their
    element-range length, rebuild data by concatenating each handle's bytes
    in that sorted order, reassigning each handle's range to its new
    contiguous position; clears the free list".

    [sort_layout] proves it: there is an order [l] of the live entries,
    sorted by length, such that the new [data] is the concatenation of
    their old bytes and each key's new range starts at [offset i l], the
    total length of the entries before it.  No range is longer than
    [isize::MAX], so the key [range.len() as isize] is the length. *)

From Stdlib Require Import Sorted.
From S2P Require Import Prelude Range FreeList SlotMap Gpu Simple SimpleRuns SimpleInv SimpleCompact.
Import FreeList SlotMap Gpu Simple SimpleInv SimpleCompact.

Module SimpleSort.

(** The position of the [i]-th entry of [l] in the new [data]. *)
Definition offset (i : nat) (l : list (AddressId * AddressRange)) : nat :=
  sum_list_with (fun kr => len kr.2) (take i l).

(** The order [sort] promises, on lengths. *)
Definition by_len (descending : bool) (a b : AddressId * AddressRange) : Prop :=
  if descending then len b.2 <= len a.2 else len a.2 <= len b.2.

(** ** Stable insertion sort *)

Section Insertion.
Context {A : Type} (key : A -> Z).

Lemma insert_by_key_hd y x l :
  HdRel (fun a b => (key a <= key b)%Z) y l -> (key y <= key x)%Z ->
  HdRel (fun a b => (key a <= key b)%Z) y (insert_by_key key x l).
Proof.
  destruct l as [|z l]; simpl; intros Hhd Hyx; [by constructor|].
  destruct (key z <=? key x)%Z; constructor; [by apply HdRel_inv in Hhd|done].
Qed.

Lemma insert_by_key_sorted x l :
  Sorted (fun a b => (key a <= key b)%Z) l ->
  Sorted (fun a b => (key a <= key b)%Z) (insert_by_key key x l).
Proof.
  induction 1 as [|y l Hs IH Hhd]; simpl; [by repeat constructor|].
  destruct (Z.leb_spec (key y) (key x)) as [Hle|Hgt].
  - constructor; [done|]. by apply insert_by_key_hd.
  - constructor; [by constructor|]. constructor. lia.
Qed.

Lemma sorted_by_key_sorted l : Sorted (fun a b => (key a <= key b)%Z) (sorted_by_key key l).
Proof.
  unfold sorted_by_key.
  assert (Hgen : forall acc, Sorted (fun a b => (key a <= key b)%Z) acc ->
            Sorted (fun a b => (key a <= key b)%Z) (fold_left (fun acc x => insert_by_key key x acc) l acc)).
  { induction l as [|x l IH]; intros acc Hacc; simpl; [done|]. by apply IH, insert_by_key_sorted. }
  apply Hgen. constructor.
Qed.
End Insertion.

(** A [Sorted] list stays sorted under a weaker order on its elements. *)
Lemma Sorted_weaken {A} (R R' : A -> A -> Prop) (P : A -> Prop) l :
  Forall P l -> (forall a b, P a -> P b -> R a b -> R' a b) -> Sorted R l -> Sorted R' l.
Proof.
  intros HP Himp Hs. induction Hs as [|a l Hs IH Hhd]; [constructor|].
  apply Forall_cons in HP as [Ha Hl]. constructor; [by apply IH|].
  destruct Hhd as [|b l' Hab]; constructor. apply Himp; [done| |done].
  by apply Forall_cons in Hl as [? _].
Qed.

(** [range.len() as isize] is the length for ranges inside a [Vec]. *)
Lemma as_isize_small n : (Z.of_nat n < 2 ^ 63)%Z -> as_isize n = Z.of_nat n.
Proof.
  intros Hn. unfold as_isize. rewrite Z.mod_small by lia.
  destruct (Z.ltb_spec (Z.of_nat n) (2 ^ 63)); lia.
Qed.

(** ** Offsets *)

Lemma offset_S i l kr : l !! i = Some kr -> offset (S i) l = offset i l + len kr.2.
Proof. intros Hi. unfold offset. rewrite (take_S_r _ _ _ Hi), sum_list_with_app. simpl. lia. Qed.

Lemma offset_mono i j l : i <= j -> offset i l <= offset j l.
Proof.
  intros Hij. unfold offset. replace j with (i + (j - i)) by lia.
  rewrite <- take_take_drop, sum_list_with_app. lia.
Qed.

(** The [i]-th entry ends before the end of the whole layout. *)
Lemma offset_end i l kr : l !! i = Some kr -> offset i l + len kr.2 <= offset (length l) l.
Proof.
  intros Hi. rewrite <- (offset_S i l kr Hi). apply offset_mono.
  apply lookup_lt_Some in Hi. lia.
Qed.

(** The entries copied one after the other take [offset (length l) l] bytes. *)
Lemma length_concat_windows d l :
  (forall kr, In kr l -> end_ kr.2 <= length d) ->
  length (concat (map (fun kr => window kr.2 d) l)) = offset (length l) l.
Proof.
  unfold offset. rewrite take_ge by done. induction l as [|kr l IH]; intros Hin; [done|].
  simpl. rewrite length_app, IH by (intros; apply Hin; by right).
  unfold window. rewrite length_take, length_drop. pose proof (Hin kr (or_introl eq_refl)).
  unfold len. lia.
Qed.

(** ** The copy loop *)

(** The copy loop appends the bytes of each entry in order and points its
    key at the copy; keys it does not visit keep their ranges. *)
Lemma sort_loop_layout d l used nd :
  NoDup (map fst l) ->
  (forall k r, In (k, r) l -> SlotMap.get used k = Some r /\ start r <= end_ r <= length d) ->
  exists used', sort_loop d l used nd = Ok (used', nd ++ concat (map (fun kr => window kr.2 d) l)) /\
    (forall i k r, l !! i = Some (k, r) ->
       SlotMap.get used' k = Some (length nd + offset i l ..< length nd + offset i l + len r)) /\
    (forall k, k ∉ map fst l -> SlotMap.get used' k = SlotMap.get used k).
Proof.
  revert used nd. induction l as [|[k0 r0] l IH]; intros used nd Hnd Hin.
  - exists used. split; [by rewrite app_nil_r|]. split; [by intros []|done].
  - simpl in Hnd. apply NoDup_cons in Hnd as [Hk0 Hnd].
    destruct (Hin k0 r0 (or_introl eq_refl)) as [Hg0 Hb0].
    simpl. rewrite slice_range_ok by lia. cbn [res_bind].
    set (nd1 := nd ++ take (end_ r0 - start r0) (drop (start r0) d)).
    assert (Hlen1 : length nd1 = length nd + len r0)
      by (unfold nd1, len; rewrite length_app, length_take, length_drop; lia).
    destruct (index_set used k0 (length nd ..< length nd1)) as [used1|] eqn:Hset;
      [|by rewrite (index_set_ok _ _ _ _ Hg0) in Hset].
    cbn [res_bind]. destruct (index_set_spec _ _ _ _ Hset) as (_ & Hnew & Hother).
    assert (Hne : forall k r, In (k, r) l -> k <> k0).
    { intros k r Hkr ->. apply Hk0, list_elem_of_In, in_map_iff. by exists (k0, r). }
    destruct (IH used1 nd1 Hnd) as (used' & Hloop & Hpos & Hout).
    { intros k r Hkr. rewrite Hother by eauto. apply Hin. by right. }
    exists used'. split; [|split].
    + rewrite Hloop. unfold nd1. by rewrite <- app_assoc.
    + intros [|i] k r Hi; simpl in Hi.
      * injection Hi as <- <-. rewrite Hout, Hnew; [|done].
        unfold offset. simpl. do 2 f_equal; lia.
      * rewrite (Hpos i k r Hi). unfold offset. simpl. do 2 f_equal; lia.
    + intros k Hk. apply not_elem_of_cons in Hk as [Hk Hkl].
      rewrite Hout by done. by apply Hother.
Qed.

Section WithElemSize.
Variable elem_size : nat.

(** The pieces of a successful [sort]: [sort_loop] copies the live
    entries, in the order [sorted_by_key] gives them, from offset 0. *)
Lemma sort_inv s desc s' :
  (forall k r, SlotMap.get (used_ranges s) k = Some r -> start r <= end_ r <= length (data s)) ->
  sort elem_size s desc = Ok s' ->
  let l := sorted_by_key (sort_key desc) (iter (used_ranges s)) in
  l ≡ₚ iter (used_ranges s) /\ NoDup (map fst l) /\
  sort_loop (data s) l (used_ranges s) [] = Ok (used_ranges s', data s') /\
  data s' = concat (map (fun kr => window kr.2 (data s)) l) /\ available_ranges s' = [] /\
  (forall i k r, l !! i = Some (k, r) ->
     SlotMap.get (used_ranges s') k = Some (offset i l ..< offset i l + len r)) /\
  (forall k, k ∉ map fst l -> SlotMap.get (used_ranges s') k = SlotMap.get (used_ranges s) k).
Proof.
  intros Hb Hs l. unfold sort in Hs. destruct (size_ _ _); [|discriminate]. cbn [res_bind] in Hs.
  assert (Hperm : l ≡ₚ iter (used_ranges s)) by apply sorted_by_key_perm.
  assert (Hnd : NoDup (map fst l)) by (rewrite Hperm; apply iter_keys_NoDup).
  assert (Hin : forall k r, In (k, r) l ->
            SlotMap.get (used_ranges s) k = Some r /\ start r <= end_ r <= length (data s)).
  { intros k r Hkr. apply (Permutation_in _ Hperm), iter_In in Hkr. split; [done|exact (Hb k r Hkr)]. }
  destruct (sort_loop_layout (data s) l (used_ranges s) [] Hnd Hin) as (used' & Hloop & Hpos & Hout).
  fold l in Hs. rewrite Hloop in Hs. cbn [res_bind] in Hs. injection Hs as <-. simpl.
  split_and!; [done|done|done|done|done| |done]. exact Hpos.
Qed.

(** C17: [sort] lays the live ranges out as the spec describes.  When
    [data] is a valid [Vec] and every live range lies in it, there is an
    order [l] of the live entries, sorted by length (descending or
    ascending), such that the new [data] is the concatenation of their
    old bytes in that order, the free list is empty, and the [i]-th key
    of [l] now names the range at [offset i l] of its old length. *)
Theorem sort_layout s desc s' :
  (N.of_nat (length (data s)) <= isize_max)%N ->
  (forall k r, SlotMap.get (used_ranges s) k = Some r -> start r <= end_ r <= length (data s)) ->
  sort elem_size s desc = Ok s' ->
  exists l, l ≡ₚ SlotMap.iter (used_ranges s) /\ Sorted (by_len desc) l /\
    data s' = concat (map (fun kr => window kr.2 (data s)) l) /\ available_ranges s' = [] /\
    forall i k r, l !! i = Some (k, r) ->
      SlotMap.get (used_ranges s') k = Some (offset i l ..< offset i l + len r).
Proof.
  intros Hcap Hb Hs. destruct (sort_inv s desc s' Hb Hs) as (Hperm & _ & _ & Hd & Ha & Hpos & _).
  set (l := sorted_by_key (sort_key desc) (iter (used_ranges s))) in *.
  assert (Hin : forall k r, In (k, r) l -> start r <= end_ r <= length (data s)).
  { intros k r Hkr. apply (Permutation_in _ Hperm), iter_In in Hkr. exact (Hb k r Hkr). }
  exists l. split_and!; [done| |done|done|done].
  assert (HP : Forall (fun kr => (Z.of_nat (len kr.2) < 2 ^ 63)%Z) l).
  { apply List.Forall_forall. intros [k r] Hkr. pose proof (Hin k r Hkr) as Hr.
    unfold len, isize_max in *. simpl. lia. }
  apply (Sorted_weaken (fun a b => (sort_key desc a <= sort_key desc b)%Z) _ _ l HP);
    [|apply sorted_by_key_sorted].
  intros x y Hx Hy Hxy. unfold sort_key, by_len in *.
  rewrite !as_isize_small in Hxy by done. destruct desc; lia.
Qed.
End WithElemSize.

(** Allocations of one and two elements: the descending sort puts the
    longer range [4..12] first, at offset 0. *)
Lemma sort_layout_witness :
  exists c s', SimpleRuns.run 4 [SimpleRuns.Alloc 1; SimpleRuns.Alloc 2] = Ok c /\
    (N.of_nat (length (data (SimpleRuns.mem c))) <= isize_max)%N /\
    (forall k r, SlotMap.get (used_ranges (SimpleRuns.mem c)) k = Some r ->
       start r <= end_ r <= length (data (SimpleRuns.mem c))) /\
    sort 4 (SimpleRuns.mem c) true = Ok s' /\
    exists l, Sorted (by_len true) l /\ map (fun kr => len kr.2) l = [8; 4].
Proof.
  destruct (SimpleRuns.run 4 _) as [c|] eqn:E; [|vm_compute in E; discriminate].
  destruct (sort 4 (SimpleRuns.mem c) true) as [s'|p] eqn:Es;
    [|vm_compute in E; injection E as <-; vm_compute in Es; discriminate].
  assert (Hcap : (N.of_nat (length (data (SimpleRuns.mem c))) <= isize_max)%N)
    by (vm_compute in E; injection E as <-; concrete).
  assert (Hb : forall k r, SlotMap.get (used_ranges (SimpleRuns.mem c)) k = Some r ->
                 start r <= end_ r <= length (data (SimpleRuns.mem c))).
  { vm_compute in E. injection E as <-. intros k r Hg. apply iter_In in Hg.
    vm_compute in Hg. destruct Hg as [Hg|[Hg|[]]]; injection Hg as _ <-; vm_compute; lia. }
  exists c, s'. split_and!; [reflexivity|exact Hcap|exact Hb|exact Es|].
  destruct (sort_layout 4 _ true s' Hcap Hb Es) as (l & Hperm & Hsorted & Hdata & _ & Hpos).
  exists l. split; [exact Hsorted|].
  vm_compute in E. injection E as <-. vm_compute in Hperm.
  symmetry in Hperm. apply Permutation_length_2_inv in Hperm as [Hl|Hl]; rewrite Hl in Hsorted |- *; [|reflexivity].
  apply Sorted_inv in Hsorted as [_ Hhd]. apply HdRel_inv in Hhd. vm_compute in Hhd. lia.
Defined.

End SimpleSort.
