(* ===== verification/SimpleTiled.v ===== *)
(** * Runs that never free keep the heap tiled

    [SimpleCompact] proves that [allocate] keeps the free and live ranges
    tiling [data] ([tiled]), and that compacting a tiled state packs the
    live bytes.  This file follows the tiling along whole client runs
    ([SimpleRuns.run_from], one [SimpleRuns.step] per API call).  Each step
    other than [free] and [resize] keeps it.  That covers [allocate],
    [write_elem] of one whole element, [upload] ([fix_sequence] then the
    device write), [optimize Truncate] and both [sort] strategies.  So in
    every run that never frees or resizes, no two live handles share a
    byte and every byte of [data] is free or live.  [free] and [resize]
    are left out because [make_range_available] breaks the tiling
    ([FreeList.make_range_available_gap], [SimpleRuns]). *)

From S2P Require Import Prelude Range FreeList SlotMap Gpu Simple SimpleProps SimpleRuns SimpleInv SimpleCompact SimpleSort.
Import FreeList SlotMap Gpu Simple SimpleInv SimpleCompact SimpleSort.

Module SimpleTiled.

Section WithElemSize.
Variable elem_size : nat.

(** The calls of a client that never frees: no [free], no [resize], and
    writes of one whole element, as the Rust caller's [view[i] = value]
    with [value : T] is. *)
Definition keeps_tiling (op : SimpleRuns.Op) : bool :=
  match op with
  | SimpleRuns.Alloc _ | SimpleRuns.Upload | SimpleRuns.Optimize _ => true
  | SimpleRuns.Free _ | SimpleRuns.Resize _ _ => false
  | SimpleRuns.Write _ _ v => length v =? elem_size
  end.

(** ** One call at a time *)

Lemma start_tiled : tiled (SimpleRuns.mem (SimpleRuns.start elem_size)).
Proof.
  unfold SimpleRuns.start, Simple.new. destruct (create_buffer _ _ _) as [g buf]. simpl.
  apply (bool_decide_unpack _). vm_compute. reflexivity.
Qed.

(** Writing one whole element changes bytes of [data] only. *)
Lemma write_elem_shape s k i v s' :
  length v = elem_size -> write_elem elem_size s k i v = Ok s' ->
  used_ranges s' = used_ranges s /\ available_ranges s' = available_ranges s /\
  length (data s') = length (data s).
Proof.
  intros Hv. unfold write_elem.
  destruct (Simple.get elem_size s k) as [[s1 view]|] eqn:Hg; [|discriminate]. cbn [res_bind].
  destruct (SimpleProps.get_inv elem_size _ _ _ _ Hg) as (r & Hr & Hb & -> & Hsz & _ & ->).
  destruct (i <? _) eqn:Hlt; [|discriminate]. cbn [guard res_bind].
  apply (proj2 (index_ok _ _ _)) in Hr. simpl. rewrite Hr. cbn [res_bind].
  intros H. injection H as <-. simpl. split_and!; [done|done|].
  apply Nat.ltb_lt in Hlt. rewrite length_take, length_drop, Nat.min_l in Hlt by (unfold len; lia).
  assert (Hfit : elem_size * S i <= len r).
  { transitivity (elem_size * (len r / elem_size)); [apply Nat.mul_le_mono_l; lia|apply Nat.Div0.mul_div_le]. }
  rewrite !length_app, length_take, length_drop, Hv. unfold len in Hfit. nia.
Qed.

Lemma upload_tiled s g s' g' : tiled s -> upload s g = Ok (s', g') -> tiled s'.
Proof.
  intros Ht. unfold upload. destruct (mutated s); simpl.
  - destruct (fix_sequence_tiled s Ht) as (used' & d' & Hfix & _ & Ht'). rewrite Hfix. cbn [res_bind].
    destruct (upload_or_resize _ _ _) as [g1 buf]. intros H. injection H as <- <-. apply Ht'.
  - intros H. by injection H as <- <-.
Qed.

(** [sort] copies the live entries one after the other from offset 0, so
    its result is tiled whatever the free list was. *)
Lemma sort_tiled s desc s' :
  elem_size <> 0 -> count_inv elem_size s -> tiled s -> sort elem_size s desc = Ok s' -> tiled s'.
Proof.
  intros Hpos (Hwf & Hmod & _) ((_ & _ & Hused)%compactable_spec & _) Hs.
  assert (Hb : forall k r, SlotMap.get (used_ranges s) k = Some r -> start r <= end_ r <= length (data s))
    by (intros k r Hg; apply (Hused k r Hg)).
  destruct (sort_inv elem_size s desc s' Hb Hs) as (Hperm & Hnd & Hloop & Hd & Ha & Hpos' & Hout).
  set (l := sorted_by_key (sort_key desc) (iter (used_ranges s))) in *.
  assert (Hin : forall k r, In (k, r) l -> SlotMap.get (used_ranges s) k = Some r)
    by (intros k r Hkr; by apply (Permutation_in _ Hperm), iter_In in Hkr).
  assert (Hlen : length (data s') = offset (length l) l).
  { rewrite Hd. apply length_concat_windows. intros [k r] Hkr. apply Hin, Hb in Hkr. simpl. lia. }
  assert (Hkey : forall k u', SlotMap.get (used_ranges s') k = Some u' ->
            exists i r, l !! i = Some (k, r) /\ u' = offset i l ..< offset i l + len r).
  { intros k u' Hg. destruct (decide (k ∈ map fst l)) as [Hk|Hk].
    - apply list_elem_of_In, in_map_iff in Hk as ([k' r] & Hk' & Hkr). simpl in Hk'. subst k'.
      apply list_elem_of_In, list_elem_of_lookup in Hkr as [i Hi].
      rewrite (Hpos' i k r Hi) in Hg. injection Hg as <-. eauto.
    - rewrite Hout in Hg by done. apply iter_In in Hg.
      apply (Permutation_in _ (Permutation_sym Hperm)) in Hg.
      destruct Hk. apply list_elem_of_In, in_map_iff. by exists (k, u'). }
  split_and!.
  - apply compactable_spec. rewrite Ha. split_and!; [done|by intros j f Hj|].
    intros k u' Hg. split; [|by intros j f Hj]. destruct (Hkey k u' Hg) as (i & r & Hi & ->).
    pose proof (offset_end i l (k, r) Hi). simpl in *. lia.
  - apply live_apart_spec. intros k1 k2 u1 u2 Hne H1 H2.
    destruct (Hkey k1 u1 H1) as (i1 & r1 & Hi1 & ->), (Hkey k2 u2 H2) as (i2 & r2 & Hi2 & ->).
    unfold apart. simpl. destruct (Nat.lt_total i1 i2) as [Hlt|[<-|Hlt]].
    + right. pose proof (offset_S i1 l (k1, r1) Hi1) as E. simpl in E. rewrite <- E. by apply offset_mono.
    + rewrite Hi1 in Hi2. congruence.
    + left. pose proof (offset_S i2 l (k2, r2) Hi2) as E. simpl in E. rewrite <- E. by apply offset_mono.
  - unfold accounted. rewrite Ha, Hlen. simpl.
    destruct (sort_loop_count_inv elem_size Hpos _ _ _ _ _ _ Hnd Hin Hwf Hmod Hloop) as (_ & _ & Hocc).
    rewrite (Hocc len) by done. rewrite occ_sum_values. unfold values.
    rewrite sum_list_with_map_snd, <- Hperm. unfold offset. by rewrite take_ge.
Qed.

Lemma optimize_tiled s st g s' g' :
  elem_size <> 0 -> count_inv elem_size s -> tiled s ->
  optimize elem_size s st g = Ok (s', g') -> tiled s'.
Proof.
  intros Hpos Hci Ht. unfold optimize. destruct (size_ _ _); [|discriminate]. cbn [res_bind].
  destruct st.
  - destruct (fix_sequence_tiled s Ht) as (used' & d' & Hfix & _ & Ht'). rewrite Hfix. cbn [res_bind].
    destruct (create_buffer_init _ _ _) as [g1 buf]. intros H. injection H as <- <-. apply Ht'.
  - destruct (sort _ s true) eqn:Hs; [|discriminate]. intros H. injection H as <- <-. by eapply sort_tiled.
  - destruct (sort _ s false) eqn:Hs; [|discriminate]. intros H. injection H as <- <-. by eapply sort_tiled.
Qed.

(** One client call that keeps the tiling. *)
Lemma step_tiled c op c' :
  elem_size <> 0 -> keeps_tiling op = true -> count_inv elem_size (SimpleRuns.mem c) ->
  tiled (SimpleRuns.mem c) -> SimpleRuns.step elem_size c op = Ok c' -> tiled (SimpleRuns.mem c').
Proof.
  intros Hpos Hop Hci Ht. destruct op as [n|h|h n|h i v| |st]; simpl in Hop |- *; try discriminate.
  - destruct (allocate _ _ _) as [[m k]|] eqn:Ha; [|discriminate]. simpl.
    intros H. injection H as <-. exact (allocate_keeps_tiled elem_size _ _ _ _ (proj1 Hci) Ht Ha).
  - destruct (SimpleRuns.handle c h); [|discriminate]. cbn [res_bind].
    destruct (write_elem _ _ _ _ _) eqn:Hw; [|discriminate]. cbn [res_bind].
    intros H. injection H as <-. simpl. apply Nat.eqb_eq in Hop.
    destruct (write_elem_shape _ _ _ _ _ Hop Hw) as (Hu & Ha & Hl). exact (tiled_fields _ _ Hl Ha Hu Ht).
  - destruct (upload _ _) as [[m g]|] eqn:Hu; [|discriminate]. cbn [res_bind].
    intros H. injection H as <-. exact (upload_tiled _ _ _ _ Ht Hu).
  - destruct (optimize _ _ _ _) as [[m g]|] eqn:Ho; [|discriminate]. cbn [res_bind].
    intros H. injection H as <-. exact (optimize_tiled _ _ _ _ _ Hpos Hci Ht Ho).
Qed.

Lemma run_from_tiled c ops c' :
  elem_size <> 0 -> forallb keeps_tiling ops = true ->
  count_inv elem_size (SimpleRuns.mem c) -> tiled (SimpleRuns.mem c) ->
  SimpleRuns.run_from elem_size c ops = Ok c' -> tiled (SimpleRuns.mem c').
Proof.
  intros Hpos. revert c. induction ops as [|op ops IH]; intros c Hops Hci Ht H; simpl in H, Hops.
  - by injection H as <-.
  - apply andb_true_iff in Hops as [Hop Hops].
    destruct (SimpleRuns.step _ c op) as [c1|] eqn:Hs; [|discriminate]. cbn [res_bind] in H.
    apply (IH c1 Hops); [exact (step_count_inv elem_size Hpos c op c1 Hci Hs)|
      exact (step_tiled c op c1 Hpos Hop Hci Ht Hs)|exact H].
Qed.

(** ** Theorem *)

(** C16: A client that never frees keeps the heap tiled.  After every run
    from a fresh allocator ([T] not zero-sized) whose calls are
    allocations, writes of whole elements, uploads and optimizations, in
    any order, the free list has the shape the spec requires, no two live
    handles share a byte, and every byte of [data] is free or live (the
    free and live lengths add up to [data.len()]).  With [free] and
    [resize] left out, the spec's handle isolation holds, and the next
    compaction packs the live bytes. *)
Theorem run_without_free_tiled ops c :
  elem_size <> 0 -> forallb keeps_tiling ops = true -> SimpleRuns.run elem_size ops = Ok c ->
  compactable (SimpleRuns.mem c) /\ live_apart (SimpleRuns.mem c) /\ accounted (SimpleRuns.mem c).
Proof.
  intros Hpos Hops H.
  exact (run_from_tiled _ ops c Hpos Hops (count_inv_start elem_size) (start_tiled) H).
Qed.

End WithElemSize.

(** Allocations of one and two elements, a write, a descending sort, one
    more allocation, an upload and a compaction: the run never frees, and
    its end state is tiled with 16 live bytes. *)
Lemma run_without_free_tiled_witness :
  let ops := [SimpleRuns.Alloc 1; SimpleRuns.Alloc 2; SimpleRuns.Write 0 0 (SimpleRuns.entity 7);
              SimpleRuns.Optimize SortSizeDescending; SimpleRuns.Alloc 1; SimpleRuns.Upload;
              SimpleRuns.Optimize Truncate] in
  exists c, 4 <> 0 /\ forallb (keeps_tiling 4) ops = true /\ SimpleRuns.run 4 ops = Ok c /\
    live_apart (SimpleRuns.mem c) /\ accounted (SimpleRuns.mem c) /\ length (data (SimpleRuns.mem c)) = 16.
Proof.
  intros ops. destruct (SimpleRuns.run 4 ops) as [c|] eqn:E; [|vm_compute in E; discriminate].
  assert (Hops : forallb (keeps_tiling 4) ops = true) by reflexivity.
  destruct (run_without_free_tiled 4 ops c ltac:(lia) Hops E) as (_ & Hla & Hacc).
  exists c. split_and!; [lia|exact Hops|reflexivity|exact Hla|exact Hacc|].
  vm_compute in E. injection E as <-. reflexivity.
Defined.

End SimpleTiled.
