(* ===== verification/AutoDrop.v ===== *)
(** * [AutoDropping<T, M>] ([src/src/auto_drop.rs])

    [AutoDropping] owns the only strong reference of an [Arc<RwLock<M>>].
    Each handle [AutoDroppingAddressId] holds the inner index, a [Weak]
    back-reference, and an [Arc<()>] named [refcount].  The state of a
    program that uses it is a [World]:
    - [store]: the [M] behind the lock;
    - [store_alive]: whether the [AutoDropping] still exists, which is what
      [Weak::upgrade] tests;
    - [tokens]: the strong count of every [Arc<()>] created so far, keyed
      by the token's identity (a [gmap]);
    - [warnings]: the number of [log::warn!] calls.

    The [RwLock] serialises every method.  So each method is one atomic
    step on the [World], and a run of several threads is a sequence of
    these steps.

    The [Drop] of a handle is [drop_id].  It frees the inner index when the
    handle's token has strong count 1 and the store is alive, and then
    drops the token.  [Clone] is [clone_id].  It creates a new token with
    [Arc::new(())] rather than [Arc::clone], so clones do not share a count.
    [free] logs a warning.  It then drops the handle it was given by value,
    and that drop frees the allocation.

    Everything here is generic in the [GpuMemory] instance of [M].  The
    steps are labelled with the action and its arguments ([ad_lstep];
    [ad_step] forgets the label).  The last theorem is a refinement, call
    by call: read on the inner store and the inner indices of the
    handles, every run of [ad_lstep] is a run of [Gpu.gm_step], the client
    the trait allows, whose calls are the same calls with the same
    arguments ([inner_calls]). *)

From stdpp Require Import gmap.
From S2P Require Import Prelude Gpu.
Import Gpu.

Module AutoDrop.

Section WithInner.
Context {M Index Strategy : Type} `{GM : GpuMemory M Index Strategy}.

(** [struct AutoDroppingAddressId { inner, parent, refcount }]; the
    parent is the one store of the [World]. *)
Record AutoDroppingAddressId := mk_id { inner : Index; refcount : nat }.

Record World := mk_world {
  store : M;
  store_alive : bool;
  tokens : gmap nat nat;
  next_token : nat;
  warnings : nat;
}.

Definition set_store (w : World) (m : M) : World :=
  mk_world m (store_alive w) (tokens w) (next_token w) (warnings w).

(** [Arc::strong_count(&self.refcount)] *)
Definition strong_count (w : World) (t : nat) : nat := default 0 (tokens w !! t).

(** [Arc::new(())]: a fresh token with strong count 1. *)
Definition new_token (w : World) : World * nat :=
  (mk_world (store w) (store_alive w) (<[next_token w := 1]> (tokens w))
            (S (next_token w)) (warnings w), next_token w).

(** Dropping an [Arc<()>]: its strong count decreases. *)
Definition drop_token (w : World) (t : nat) : World :=
  mk_world (store w) (store_alive w) (<[t := strong_count w t - 1]> (tokens w))
           (next_token w) (warnings w).

(** [fn new(usages, device) -> Self] *)
Definition new (usages : N) (g : Gpu) : Gpu * World :=
  let '(g', m) := gm_new usages g in (g', mk_world m true ∅ 0 0).

(** [fn allocate(&mut self, count) -> Self::Index] *)
Definition allocate (w : World) (count : nat) : Res (World * AutoDroppingAddressId) :=
  x <- gm_allocate (store w) count ;;
  let '(w1, t) := new_token (set_store w (fst x)) in
  Ok (w1, mk_id (snd x) t).

(** [impl Clone for AutoDroppingAddressId]: a new [Arc::new(())]. *)
Definition clone_id (w : World) (h : AutoDroppingAddressId) : World * AutoDroppingAddressId :=
  let '(w1, t) := new_token w in (w1, mk_id (inner h) t).

(** [impl Drop for AutoDroppingAddressId], then the drop of its fields. *)
Definition drop_id (w : World) (h : AutoDroppingAddressId) : Res World :=
  w1 <- (if strong_count w (refcount h) =? 1 then
           if store_alive w then
             m <- gm_free (store w) (inner h) ;;
             Ok (set_store w m)
           else Ok w
         else Ok w) ;;
  Ok (drop_token w1 (refcount h)).

(** [fn free(&mut self, index)]: warn, then [index] is dropped at the end
    of the function. *)
Definition free (w : World) (h : AutoDroppingAddressId) : Res World :=
  drop_id (mk_world (store w) (store_alive w) (tokens w) (next_token w) (S (warnings w))) h.

(** [impl Drop for AutoDropping]: the last strong reference to the store
    goes away, so every [Weak::upgrade] fails from now on. *)
Definition drop_store (w : World) : World :=
  mk_world (store w) false (tokens w) (next_token w) (warnings w).

(** [fn get(&mut self, index) -> &mut [T]] *)
Definition get (w : World) (h : AutoDroppingAddressId) : Res (World * list byte) :=
  x <- gm_get (store w) (inner h) ;;
  Ok (set_store w (fst x), snd x).

(** [fn len(&self)], [fn len_of(&self, index)], [fn mutated(&self)] *)
Definition len (w : World) : nat := gm_len (store w).
Definition len_of (w : World) (h : AutoDroppingAddressId) : Res nat := gm_len_of (store w) (inner h).
Definition mutated (w : World) : bool := gm_mutated (store w).

(** [fn is_empty(&self)] and [fn size(&self)] call the inner methods. *)
Definition is_empty_ (w : World) : bool := is_empty (store w).
Definition size_ (elem_size : nat) (w : World) : Res nat := size elem_size (store w).

(** [fn resize(&mut self, index: &mut Self::Index, len)]: the inner
    index of the handle is updated in place. *)
Definition resize (w : World) (h : AutoDroppingAddressId) (n : nat)
    : Res (World * AutoDroppingAddressId) :=
  x <- gm_resize (store w) (inner h) n ;;
  Ok (set_store w (fst x), mk_id (snd x) (refcount h)).

(** [fn upload] and [fn optimize] *)
Definition upload (w : World) (g : Gpu) : Res (World * Gpu) :=
  x <- gm_upload (store w) g ;; Ok (set_store w (fst x), snd x).

Definition optimize (w : World) (st : Strategy) (g : Gpu) : Res (World * Gpu) :=
  x <- gm_optimize (store w) st g ;; Ok (set_store w (fst x), snd x).

(** [fn buffer(&self)] *)
Definition buffer (w : World) : Buffer := gm_buffer (store w).

(** [fn buffer_slice(&self)]: [self.buffer().slice(..(self.size() as u64))],
    the first [size()] bytes of the inner buffer. *)
Definition buffer_slice (elem_size : nat) (w : World) : Res (list byte) :=
  sz <- size_ elem_size w ;;
  Ok (take sz (buf_contents (buffer w))).
End WithInner.

Arguments AutoDroppingAddressId Index : clear implicits.
Arguments World M : clear implicits.

(** [impl GpuMemory<T> for AutoDropping<T, M>] *)
#[export] Instance auto_dropping_gpu_memory {M Index Strategy} `{GpuMemory M Index Strategy}
    : GpuMemory (World M) (AutoDroppingAddressId Index) Strategy := {
  gm_new := new;
  gm_mutated := mutated;
  gm_allocate := allocate;
  gm_get := get;
  gm_len := len;
  gm_len_of := len_of;
  gm_resize := resize;
  gm_free := free;
  gm_upload := upload;
  gm_optimize := optimize;
  gm_buffer := buffer;
}.

(** ** Reachable states of a program that uses [AutoDropping]

    A state is the [World] and the handles the program holds.  Each step is
    one action of the program: a method call while the [AutoDropping] is
    alive, the clone or the drop of a handle it holds, or the drop of the
    [AutoDropping] itself. *)
Section Reachable.
Context {M Index Strategy : Type} `{GM : GpuMemory M Index Strategy}.

(** The actions of the program, with the arguments it passes. *)
Inductive ad_call :=
  | AdAllocate (count : nat)
  | AdClone (h : AutoDroppingAddressId Index)
  | AdDrop (h : AutoDroppingAddressId Index)
  | AdFree (h : AutoDroppingAddressId Index)
  | AdResize (h : AutoDroppingAddressId Index) (n : nat)
  | AdGet (h : AutoDroppingAddressId Index)
  | AdUpload (g : Gpu)
  | AdOptimize (st : Strategy) (g : Gpu)
  | AdDropStore.

(** One action, labelled with the action and its arguments. *)
Inductive ad_lstep : ad_call -> World M * list (AutoDroppingAddressId Index) ->
                    World M * list (AutoDroppingAddressId Index) -> Prop :=
  | step_allocate w hs count w' h :
      store_alive w = true -> allocate w count = Ok (w', h) ->
      ad_lstep (AdAllocate count) (w, hs) (w', h :: hs)
  | step_clone w hs h w' h' :
      In h hs -> clone_id w h = (w', h') -> ad_lstep (AdClone h) (w, hs) (w', h' :: hs)
  | step_drop w hs1 h hs2 w' :
      drop_id w h = Ok w' -> ad_lstep (AdDrop h) (w, hs1 ++ h :: hs2) (w', hs1 ++ hs2)
  | step_free w hs1 h hs2 w' :
      store_alive w = true -> free w h = Ok w' ->
      ad_lstep (AdFree h) (w, hs1 ++ h :: hs2) (w', hs1 ++ hs2)
  | step_resize w hs1 h hs2 n w' h' :
      store_alive w = true -> resize w h n = Ok (w', h') ->
      ad_lstep (AdResize h n) (w, hs1 ++ h :: hs2) (w', hs1 ++ h' :: hs2)
  | step_get w hs h w' v :
      store_alive w = true -> In h hs -> get w h = Ok (w', v) -> ad_lstep (AdGet h) (w, hs) (w', hs)
  | step_upload w hs g w' g' :
      store_alive w = true -> upload w g = Ok (w', g') -> ad_lstep (AdUpload g) (w, hs) (w', hs)
  | step_optimize w hs st g w' g' :
      store_alive w = true -> optimize w st g = Ok (w', g') ->
      ad_lstep (AdOptimize st g) (w, hs) (w', hs)
  | step_drop_store w hs : ad_lstep AdDropStore (w, hs) (drop_store w, hs).

(** Some action of the program. *)
Definition ad_step (st st' : World M * list (AutoDroppingAddressId Index)) : Prop :=
  exists a, ad_lstep a st st'.

(** The calls of [M] each action makes on the inner store: the same call
    with the same arguments and the handle's inner index.  A drop, and an
    explicit [free], which drops the handle, is an inner [free] of that
    index or forgets it. *)
Definition inner_calls (a : ad_call) (gs : list (gm_call (Index := Index) (Strategy := Strategy))) : Prop :=
  match a with
  | AdAllocate count => gs = [GmAllocate count]
  | AdClone h => gs = [GmClone (inner h)]
  | AdDrop h | AdFree h => gs = [GmFree (inner h)] \/ gs = [GmForget (inner h)]
  | AdResize h n => gs = [GmResize (inner h) n]
  | AdGet h => gs = [GmGet (inner h)]
  | AdUpload g => gs = [GmUpload g]
  | AdOptimize st g => gs = [GmOptimize st g]
  | AdDropStore => gs = []
  end.

(** Every [Arc<()>] has strong count at most 1, each live handle's token
    has count exactly 1, and no two live handles share a token. *)
Definition tokens_inv (st : World M * list (AutoDroppingAddressId Index)) : Prop :=
  (forall t c, tokens st.1 !! t = Some c -> c <= 1 /\ t < next_token st.1) /\
  (forall h, In h st.2 -> strong_count st.1 (refcount h) = 1) /\
  NoDup (map refcount st.2).

Definition same_tokens (w w' : World M) : Prop :=
  tokens w = tokens w' /\ next_token w = next_token w'.

(** The state after [AutoDropping::new], before any handle exists. *)
Definition ad_init (usages : N) (g : Gpu) : World M * list (AutoDroppingAddressId Index) :=
  ((new usages g).2, []).

Lemma tokens_inv_same w w' hs :
  same_tokens w w' -> tokens_inv (w, hs) -> tokens_inv (w', hs).
Proof.
  intros [Ht Hn] (H1 & H2 & H3). unfold tokens_inv, strong_count in *. simpl in *.
  rewrite <- Ht, <- Hn. done.
Qed.

Lemma tokens_inv_new w hs i :
  tokens_inv (w, hs) ->
  tokens_inv ((new_token w).1, mk_id i (new_token w).2 :: hs).
Proof.
  intros (H1 & H2 & H3). unfold tokens_inv, strong_count in *; simpl in *.
  assert (Hfresh : forall h, In h hs -> refcount h <> next_token w).
  { intros h Hh Heq. specialize (H2 h Hh).
    destruct (tokens w !! refcount h) as [c|] eqn:E; simpl in H2; [|done].
    destruct (H1 _ _ E). lia. }
  split_and!.
  - intros t c Ht. rewrite lookup_insert in Ht. case_decide; simplify_eq; [lia|].
    destruct (H1 _ _ Ht). lia.
  - intros h [<-|Hh]; simpl; [by rewrite lookup_insert_eq|].
    rewrite lookup_insert_ne; [by apply H2|]. by apply not_eq_sym, Hfresh.
  - constructor; [|done]. intros Hin. apply list_elem_of_In, in_map_iff in Hin as (h & Heq & Hh).
    by apply (Hfresh h).
Qed.

(** Dropping a live handle's token, after a step that kept the tokens. *)
Lemma tokens_inv_drop w w1 hs1 h hs2 :
  tokens_inv (w, hs1 ++ h :: hs2) -> same_tokens w w1 ->
  tokens_inv (drop_token w1 (refcount h), hs1 ++ hs2).
Proof.
  intros Hinv Hsame. apply (tokens_inv_same _ w1) in Hinv; [|done].
  destruct Hinv as (H1 & H2 & H3). unfold tokens_inv, strong_count in *; simpl in *.
  rewrite map_app in H3. simpl in H3. apply NoDup_app in H3 as (Hnd1 & Hdisj & Hnd2).
  apply NoDup_cons in Hnd2 as [Hnin Hnd2].
  assert (Hh : default 0 (tokens w1 !! refcount h) = 1) by (apply H2; apply in_app_iff; simpl; tauto).
  split_and!.
  - intros t c Ht. rewrite lookup_insert in Ht. case_decide as Heq; simplify_eq.
    + unfold strong_count. split; [lia|]. destruct (tokens w1 !! refcount h) as [c'|] eqn:E; simpl in Hh; [|done].
      by destruct (H1 _ _ E).
    + by apply H1.
  - intros h' Hh'. rewrite lookup_insert_ne; [apply H2; apply in_app_iff in Hh' as [?|?];
      apply in_app_iff; simpl; tauto|].
    intros Heq. apply in_app_iff in Hh' as [Hh'|Hh'].
    + apply (Hdisj (refcount h)); [|by left].
      apply list_elem_of_In, in_map_iff. eauto.
    + apply Hnin. apply list_elem_of_In, in_map_iff. eauto.
  - rewrite map_app. apply NoDup_app. split_and!; [done| |done].
    intros x Hx1 Hx2. apply (Hdisj x Hx1). by right.
Qed.

Lemma drop_id_tokens w h w' :
  drop_id w h = Ok w' -> exists w1, same_tokens w w1 /\ w' = drop_token w1 (refcount h).
Proof.
  unfold drop_id. intros H.
  case_match; [case_match; [destruct (gm_free (store w) (inner h)) as [m|]; [|discriminate]|]|];
    simpl in H; injection H as <-; [exists (set_store w m)|exists w|exists w];
    (split; [split; reflexivity|reflexivity]).
Qed.

Lemma tokens_inv_step st st' : tokens_inv st -> ad_step st st' -> tokens_inv st'.
Proof.
  intros Hinv [a Hstep]. destruct Hstep as
    [w hs count w' h _ Ha | w hs h w' h' Hin Hc | w hs1 h hs2 w' Hd | w hs1 h hs2 w' _ Hf
    | w hs1 h hs2 n w' h' _ Hr | w hs h w' v _ _ Hg | w hs g w' g' _ Hu
    | w hs st g w' g' _ Ho | w hs].
  - unfold allocate in Ha. destruct (gm_allocate _ _) as [x|]; [|discriminate].
    simpl in Ha. injection Ha as <- <-.
    apply (tokens_inv_new (set_store w x.1) hs x.2).
    by apply (tokens_inv_same w).
  - unfold clone_id in Hc. injection Hc as <- <-. by apply tokens_inv_new.
  - destruct (drop_id_tokens _ _ _ Hd) as (w1 & Hs & ->). by eapply tokens_inv_drop.
  - destruct (drop_id_tokens _ _ _ Hf) as (w1 & [Ht Hn] & ->).
    eapply tokens_inv_drop; [done|]. split; simpl; [done|done].
  - unfold resize in Hr. destruct (gm_resize _ _ _) as [x|]; [|discriminate].
    simpl in Hr. injection Hr as <- <-.
    destruct Hinv as (H1 & H2 & H3). unfold tokens_inv, strong_count in *; simpl in *.
    split_and!; [done| |].
    + intros h0 Hh0. apply in_app_iff in Hh0 as [?|[<-|?]]; simpl;
        apply H2, in_app_iff; simpl; tauto.
    + rewrite map_app in *. done.
  - unfold get in Hg. destruct (gm_get _ _) as [x|]; [|discriminate].
    simpl in Hg. injection Hg as <- <-. by apply (tokens_inv_same w).
  - unfold upload in Hu. destruct (gm_upload _ _) as [x|]; [|discriminate].
    simpl in Hu. injection Hu as <- <-. by apply (tokens_inv_same w).
  - unfold optimize in Ho. destruct (gm_optimize _ _ _) as [x|]; [|discriminate].
    simpl in Ho. injection Ho as <- <-. by apply (tokens_inv_same w).
  - by apply (tokens_inv_same w).
Qed.
Lemma tokens_inv_init usages g : tokens_inv (ad_init usages g).
Proof.
  unfold ad_init, new. destruct (gm_new usages g).
  split_and!; simpl; [|done|constructor].
  intros t c Ht. by rewrite lookup_empty in Ht.
Qed.

Lemma tokens_inv_reachable usages g st :
  star ad_step (ad_init usages g) st -> tokens_inv st.
Proof.
  apply star_invariant; [apply tokens_inv_step|apply tokens_inv_init].
Qed.

(** With the invariant, the count test of [Drop] always passes for a live
    handle. *)
Lemma tokens_inv_drop_frees w hs h :
  tokens_inv (w, hs) -> In h hs -> store_alive w = true ->
  drop_id w h = (m <- gm_free (store w) (inner h) ;; Ok (drop_token (set_store w m) (refcount h))).
Proof.
  intros (_ & H2 & _) Hh Ha. unfold drop_id. simpl in H2.
  rewrite (H2 h Hh), Ha. simpl. by destruct (gm_free (store w) (inner h)).
Qed.

(** A drop of a handle either leaves the store alone or is the inner
    [free] of its index. *)
Lemma drop_id_inner w h w' :
  drop_id w h = Ok w' -> store w' = store w \/ gm_free (store w) (inner h) = Ok (store w').
Proof.
  unfold drop_id.
  case_match; [case_match; [destruct (gm_free (store w) (inner h)) as [m|] eqn:E; [|discriminate]|]|];
    simpl; intros Hw; injection Hw as <-; simpl; auto.
Qed.

(** So, on the inner indices, a drop is a [free] or a [forget] of the
    handle's index. *)
Lemma drop_inner_step w hs1 h hs2 w' :
  drop_id w h = Ok w' ->
  exists gs, (gs = [GmFree (inner h)] \/ gs = [GmForget (inner h)]) /\
    trace gm_step gs (store w, map inner (hs1 ++ h :: hs2)) (store w', map inner (hs1 ++ hs2)).
Proof.
  intros Hd. rewrite !map_app. simpl.
  destruct (drop_id_inner _ _ _ Hd) as [->|Hf]; eexists; (split; [by (left + right)|]);
    (econstructor; [|constructor]); [apply gm_step_forget|by apply gm_step_free].
Qed.

(** A drop never changes whether the store is alive, and changes nothing
    in a dropped store. *)
Lemma drop_id_dead w h w' :
  drop_id w h = Ok w' -> store_alive w' = store_alive w /\ (store_alive w = false -> store w' = store w).
Proof.
  unfold drop_id.
  case_match; [case_match; [destruct (gm_free (store w) (inner h)) as [m|]; [|discriminate]|]|];
    simpl; intros Hw; injection Hw as <-; simpl; split; congruence.
Qed.

End Reachable.

(** ** Theorems *)
Section Claims.
Context {M Index Strategy : Type} `{GM : GpuMemory M Index Strategy}.

(** C8: In every state reachable from [AutoDropping::new], dropping any
    handle the program holds while the [AutoDropping] is alive calls the
    inner [free] on its index: the count test of [Drop] never fails,
    because every [Arc<()>] has strong count 1. *)
Theorem reachable_drop_frees usages g w hs h :
  star ad_step (ad_init usages g) (w, hs) -> In h hs -> store_alive w = true ->
  drop_id w h = (m <- gm_free (store w) (inner h) ;; Ok (drop_token (set_store w m) (refcount h))).
Proof.
  intros Hr Hh Ha. eapply tokens_inv_drop_frees; [|done|done].
  by apply tokens_inv_reachable in Hr.
Qed.

(** C4: A clone of a live handle has the same inner index and a token of
    its own, so dropping the clone frees the allocation the original still
    names. *)
Theorem clone_drop_frees_original usages g w hs h w' h' :
  star ad_step (ad_init usages g) (w, hs) -> In h hs -> store_alive w = true ->
  clone_id w h = (w', h') ->
  inner h' = inner h /\ strong_count w' (refcount h) = 1 /\ store w' = store w /\
  drop_id w' h' = (m <- gm_free (store w) (inner h) ;; Ok (drop_token (set_store w' m) (refcount h'))).
Proof.
  intros Hr Hh Ha Hc.
  assert (Hr' : star ad_step (ad_init usages g) (w', h' :: hs)).
  { eapply star_trans; [exact Hr|]. eapply star_one. eexists. by eapply step_clone. }
  apply tokens_inv_reachable in Hr'.
  pose proof Hc as Hc'. unfold clone_id in Hc'. injection Hc' as <- <-.
  split; [done|]. split.
  { destruct Hr' as (_ & H2 & _). apply (H2 h). by right. }
  split; [done|]. rewrite (tokens_inv_drop_frees _ _ _ Hr'); [done|by left|done].
Qed.

(** C9: [AutoDropping::free] is not a no-op: it logs one warning and then
    drops the handle it was given, which frees the allocation. *)
Theorem reachable_free_frees usages g w hs h :
  star ad_step (ad_init usages g) (w, hs) -> In h hs -> store_alive w = true ->
  free w h = (m <- gm_free (store w) (inner h) ;;
              Ok (drop_token (mk_world m true (tokens w) (next_token w) (S (warnings w))) (refcount h))).
Proof.
  intros Hr Hh Ha. apply tokens_inv_reachable in Hr.
  unfold free. rewrite (tokens_inv_drop_frees (mk_world (store w) (store_alive w) (tokens w)
    (next_token w) (S (warnings w))) hs); [|by eapply tokens_inv_same|done|done].
  simpl. rewrite Ha. by destruct (gm_free (store w) (inner h)).
Qed.

(** C36: Once the [AutoDropping] is dropped, nothing touches the inner
    store again: every later step, handle drops included, leaves it
    unchanged. *)
Theorem store_frozen_after_drop st st' :
  star ad_step st st' -> store_alive st.1 = false ->
  store_alive st'.1 = false /\ store st'.1 = store st.1.
Proof.
  induction 1 as [st|st st1 st2 Hs _ IH]; [done|]. intros Ha.
  assert (store_alive st1.1 = false /\ store st1.1 = store st.1) as [Ha1 Hs1].
  { destruct Hs as [a Hs]. destruct Hs as [w hs count w' h Hw| w hs h w' h' _ Hc | w hs1 h hs2 w' Hd | w hs1 h hs2 w' Hw
      | w hs1 h hs2 n w' h' Hw | w hs h w' v Hw | w hs g w' g' Hw | w hs s g w' g' Hw | w hs];
      simpl in *; try congruence; [| |done].
    - unfold clone_id in Hc. by injection Hc as <- <-.
    - unfold drop_id in Hd. rewrite Ha in Hd.
      by destruct (strong_count w (refcount h) =? 1); simpl in Hd; injection Hd as <-. }
  destruct (IH Ha1) as [? ->]. done.
Qed.
(** C11: [AutoDropping] refines its inner allocator, call by call.
    Every run of a program that uses [AutoDropping<M>], with the actions
    [ls], is, read on the inner store and the inner indices of the handles
    it holds, a run of a client of [M] that the trait allows, whose calls
    are those [inner_calls] gives: each method call is the same call on
    [M] with the same arguments and the handle's inner index, [resize]
    updates the index the handle holds, a clone copies an index, a drop
    is an inner [free] or forgets the index, and the drop of the
    [AutoDropping] makes no call. *)
Theorem ad_refines_inner ls st st' :
  trace ad_lstep ls st st' ->
  exists gss, Forall2 inner_calls ls gss /\
    trace gm_step (concat gss) (store st.1, map inner st.2) (store st'.1, map inner st'.2).
Proof.
  induction 1 as [st|a ls st st1 st2 Hs _ (gss & Hcalls & Htr)]; [exists []; split; constructor|].
  assert (exists gs, inner_calls a gs /\
            trace gm_step gs (store st.1, map inner st.2) (store st1.1, map inner st1.2)) as (gs & Hgs & Hone).
  { destruct Hs as
      [w hs count w' h _ Ha | w hs h w' h' Hin Hc | w hs1 h hs2 w' Hd | w hs1 h hs2 w' _ Hf
      | w hs1 h hs2 n w' h' _ Hr | w hs h w' v _ Hin Hg | w hs g w' g' _ Hu
      | w hs st g w' g' _ Ho | w hs]; simpl; [| | exact (drop_inner_step _ hs1 h hs2 w' Hd)
      | exact (drop_inner_step _ hs1 h hs2 w' Hf) | | | | |exists []; split; constructor];
      (eexists; split; [reflexivity|]); (econstructor; [|constructor]).
    - unfold allocate in Ha. destruct (gm_allocate _ _) as [[m i]|] eqn:E; [|discriminate].
      simpl in Ha. injection Ha as <- <-. by apply gm_step_allocate.
    - unfold clone_id in Hc. injection Hc as <- <-. apply gm_step_clone. simpl. by apply in_map.
    - unfold resize in Hr. destruct (gm_resize (store w) (inner h) n) as [[m i]|] eqn:E; [|discriminate].
      simpl in Hr. injection Hr as <- <-. rewrite !map_app. by eapply gm_step_resize.
    - unfold get in Hg. destruct (gm_get (store w) (inner h)) as [[m b]|] eqn:E; [|discriminate].
      simpl in Hg. injection Hg as <- <-. by eapply gm_step_get; [apply in_map|].
    - unfold upload in Hu. destruct (gm_upload (store w) g) as [[m g1]|] eqn:E; [|discriminate].
      simpl in Hu. injection Hu as <- <-. by eapply gm_step_upload.
    - unfold optimize in Ho. destruct (gm_optimize (store w) st g) as [[m g1]|] eqn:E; [|discriminate].
      simpl in Ho. injection Ho as <- <-. by eapply gm_step_optimize. }
  exists (gs :: gss). split; [by constructor|]. simpl.
  by apply (trace_app _ gs (concat gss) _ (store st1.1, map inner st1.2)).
Qed.
End Claims.

End AutoDrop.
