(* ===== verification/AutoDropRuns.v ===== *)
(** * Runs of [AutoDropping<Entity, SimpleGpuMemory<Entity>>]

    The three tests of [src/tests/auto_dropping_gpu_memory.rs], with the
    handle's [Drop] at the end of each loop iteration (or of the inner
    block of [free_works]) written out as a call of [drop_id], and the
    write [mem.get(&index)[i] = value] as [ad_write].

    The theorems: dropping a clone of a handle frees
    the allocation the original still names, after which [get] on the
    original panics; and the witnesses of the generic theorems of
    [AutoDrop], at the store [SimpleGpuMemory] with 4-byte elements. *)

From S2P Require Import Prelude Range FreeList SlotMap Gpu Simple SimpleRuns AutoDrop.
Import Gpu Simple SimpleRuns.

Module AutoDropRuns.

(** [M = SimpleGpuMemory<Entity>]. *)
#[local] Instance simple_entity : GpuMemory SimpleGpuMemory AddressId Strategy :=
  simple_gpu_memory entity_size.

Notation AWorld := (AutoDrop.World SimpleGpuMemory).
Notation AHandle := (AutoDrop.AutoDroppingAddressId AddressId).

(** [mem.get(&index)[i] = value]: the slice [get] returns is the inner
    store's, so the write goes to the inner [data]. *)
Definition ad_write (w : AWorld) (h : AHandle) (i : nat) (value : list byte) : Res AWorld :=
  m <- write_elem entity_size (AutoDrop.store w) (AutoDrop.inner h) i value ;;
  Ok (AutoDrop.set_store w m).

Definition ad_size (w : AWorld) : Res nat := AutoDrop.size_ entity_size w.

(** [AutoDropping::new(wgpu::BufferUsages::empty(), &wgpu.device)] *)
Definition ad_start : AWorld := (AutoDrop.new 0 (mk_gpu [])).2.

Fixpoint ad_allocations_work_loop (n : nat) (w : AWorld) : Res AWorld :=
  match n with
  | 0 => Ok w
  | S n' =>
      x <- AutoDrop.allocate w 1 ;;
      let '(w1, index) := x in
      sz <- ad_size w1 ;; assert_eq sz entity_size ;;;
      w2 <- ad_write w1 index 0 (entity 1) ;;
      w3 <- AutoDrop.drop_id w2 index ;;
      ad_allocations_work_loop n' w3
  end.

(** [fn allocations_work()] *)
Definition ad_allocations_work : Res unit :=
  w <- ad_allocations_work_loop 100 ad_start ;;
  sz <- ad_size w ;; assert_eq sz 0.

(** [for i in 0..n { mem.get(&index)[i] = Entity { param: i as u32 } }] *)
Fixpoint ad_write_all (i n : nat) (w : AWorld) (h : AHandle) : Res AWorld :=
  match n with
  | 0 => Ok w
  | S n' => w1 <- ad_write w h i (entity i) ;; ad_write_all (S i) n' w1 h
  end.

Fixpoint ad_resize_works_loop (n : nat) (w : AWorld) : Res AWorld :=
  match n with
  | 0 => Ok w
  | S n' =>
      x <- AutoDrop.allocate w 1 ;;
      let '(w1, index) := x in
      sz <- ad_size w1 ;; assert_eq sz entity_size ;;;
      x <- AutoDrop.resize w1 index 10 ;;
      let '(w2, index) := x in
      sz <- ad_size w2 ;; assert_eq sz (entity_size * 10) ;;;
      x <- AutoDrop.resize w2 index 5 ;;
      let '(w3, index) := x in
      sz <- ad_size w3 ;; assert_eq sz (entity_size * 5) ;;;
      x <- AutoDrop.resize w3 index 5 ;;
      let '(w4, index) := x in
      sz <- ad_size w4 ;; assert_eq sz (entity_size * 5) ;;;
      w5 <- ad_write_all 0 5 w4 index ;;
      w6 <- AutoDrop.drop_id w5 index ;;
      ad_resize_works_loop n' w6
  end.

(** [fn resize_works()] *)
Definition ad_resize_works : Res unit :=
  w <- ad_resize_works_loop 100 ad_start ;;
  sz <- ad_size w ;; assert_eq sz 0.

Fixpoint ad_free_works_loop (n : nat) (w : AWorld) : Res AWorld :=
  match n with
  | 0 => Ok w
  | S n' =>
      x <- AutoDrop.allocate w 1 ;;
      let '(w1, index) := x in
      sz <- ad_size w1 ;; assert_eq sz entity_size ;;;
      w2 <- ad_write w1 index 0 (entity 1) ;;
      w3 <- AutoDrop.drop_id w2 index ;;
      sz <- ad_size w3 ;; assert_eq sz 0 ;;;
      ad_free_works_loop n' w3
  end.

(** [fn free_works()] *)
Definition ad_free_works : Res unit :=
  w <- ad_free_works_loop 100 ad_start ;;
  sz <- ad_size w ;; assert_eq sz 0.

(** Allocate one element, clone the handle, drop the clone, then [get]
    through the original. *)
Definition clone_then_drop : Res (AWorld * AHandle) :=
  x <- AutoDrop.allocate ad_start 1 ;;
  let '(w1, h) := x in
  let '(w2, h') := AutoDrop.clone_id w1 h in
  w3 <- AutoDrop.drop_id w2 h' ;;
  Ok (w3, h).

(** The device of the witnesses. *)
Definition g0 : Gpu := mk_gpu [].

(** ** Theorems *)

(** C5: Dropping a clone frees the original's allocation.  After [allocate(1)],
    [clone] and dropping the clone, the original handle is still held, but
    [size()] is 0 and [get] through the original panics on the stale
    slotmap key. *)
Theorem clone_drop_invalidates_original :
  exists w h, clone_then_drop = Ok (w, h) /\ ad_size w = Ok 0 /\
    AutoDrop.get w h = Panicked InvalidKey.
Proof.
  destruct clone_then_drop as [[w h]|] eqn:E; [|vm_compute in E; discriminate].
  exists w, h. vm_compute in E. injection E as <- <-. split_and!; vm_compute; reflexivity.
Qed.

(** ** Witnesses of the theorems of [AutoDrop] *)

Lemma alloc_one_reachable w h :
  AutoDrop.allocate ad_start 1 = Ok (w, h) ->
  star AutoDrop.ad_step (AutoDrop.ad_init 0 g0) (w, [h]) /\ AutoDrop.store_alive w = true.
Proof.
  intros E. split.
  - change (AutoDrop.ad_init 0 g0) with (ad_start, @nil AHandle).
    eapply star_one. eexists. apply (AutoDrop.step_allocate _ [] 1); [reflexivity|exact E].
  - vm_compute in E. by injection E as <- <-.
Qed.

Lemma reachable_drop_frees_witness :
  exists w h, star AutoDrop.ad_step (AutoDrop.ad_init 0 g0) (w, [h]) /\
    AutoDrop.store_alive w = true /\
    AutoDrop.drop_id w h = (m <- gm_free (AutoDrop.store w) (AutoDrop.inner h) ;;
                            Ok (AutoDrop.drop_token (AutoDrop.set_store w m) (AutoDrop.refcount h))).
Proof.
  destruct (AutoDrop.allocate ad_start 1) as [[w h]|] eqn:E; [|vm_compute in E; discriminate].
  destruct (alloc_one_reachable w h E) as [Hr Ha].
  exists w, h. split_and!; [exact Hr|exact Ha|].
  apply (AutoDrop.reachable_drop_frees 0 g0 w [h] h Hr); [left; reflexivity|exact Ha].
Defined.

Lemma clone_drop_frees_original_witness :
  exists w h w' h', star AutoDrop.ad_step (AutoDrop.ad_init 0 g0) (w, [h]) /\
    AutoDrop.store_alive w = true /\ AutoDrop.clone_id w h = (w', h') /\
    AutoDrop.inner h' = AutoDrop.inner h /\
    AutoDrop.strong_count w' (AutoDrop.refcount h) = 1 /\ AutoDrop.store w' = AutoDrop.store w /\
    AutoDrop.drop_id w' h' = (m <- gm_free (AutoDrop.store w) (AutoDrop.inner h) ;;
                              Ok (AutoDrop.drop_token (AutoDrop.set_store w' m) (AutoDrop.refcount h'))).
Proof.
  destruct (AutoDrop.allocate ad_start 1) as [[w h]|] eqn:E; [|vm_compute in E; discriminate].
  destruct (alloc_one_reachable w h E) as [Hr Ha].
  destruct (AutoDrop.clone_id w h) as [w' h'] eqn:Ec.
  exists w, h, w', h'. split_and!; [exact Hr|exact Ha|exact Ec|..];
    apply (AutoDrop.clone_drop_frees_original 0 g0 w [h] h w' h' Hr (or_introl eq_refl) Ha Ec).
Defined.

Lemma reachable_free_frees_witness :
  exists w h, star AutoDrop.ad_step (AutoDrop.ad_init 0 g0) (w, [h]) /\
    AutoDrop.store_alive w = true /\
    AutoDrop.free w h = (m <- gm_free (AutoDrop.store w) (AutoDrop.inner h) ;;
      Ok (AutoDrop.drop_token (AutoDrop.mk_world m true (AutoDrop.tokens w) (AutoDrop.next_token w)
                                (S (AutoDrop.warnings w))) (AutoDrop.refcount h))).
Proof.
  destruct (AutoDrop.allocate ad_start 1) as [[w h]|] eqn:E; [|vm_compute in E; discriminate].
  destruct (alloc_one_reachable w h E) as [Hr Ha].
  exists w, h. split_and!; [exact Hr|exact Ha|].
  apply (AutoDrop.reachable_free_frees 0 g0 w [h] h Hr); [left; reflexivity|exact Ha].
Defined.

Lemma store_frozen_after_drop_witness :
  exists w h w', AutoDrop.drop_id (AutoDrop.drop_store w) h = Ok w' /\
    star AutoDrop.ad_step (AutoDrop.drop_store w, [h]) (w', []) /\
    AutoDrop.store_alive (AutoDrop.drop_store w) = false /\
    AutoDrop.store_alive w' = false /\ AutoDrop.store w' = AutoDrop.store (AutoDrop.drop_store w).
Proof.
  destruct (AutoDrop.allocate ad_start 1) as [[w h]|] eqn:E; [|vm_compute in E; discriminate].
  destruct (AutoDrop.drop_id (AutoDrop.drop_store w) h) as [w'|p] eqn:Ed;
    [|vm_compute in E; injection E as <- <-; vm_compute in Ed; discriminate].
  assert (Hs : star AutoDrop.ad_step (AutoDrop.drop_store w, [h]) (w', [])).
  { eapply star_one. eexists. apply (AutoDrop.step_drop _ [] h []). exact Ed. }
  exists w, h, w'. split_and!; [exact Ed|exact Hs|reflexivity|..];
    apply (AutoDrop.store_frozen_after_drop (AutoDrop.drop_store w, [h]) (w', []) Hs); reflexivity.
Defined.

(** One allocation of one element: the inner run is the one call
    [allocate(1)], with the same count. *)
Lemma ad_refines_inner_witness :
  exists w h, AutoDrop.allocate ad_start 1 = Ok (w, h) /\
    trace AutoDrop.ad_lstep [AutoDrop.AdAllocate 1] (AutoDrop.ad_init 0 g0) (w, [h]) /\
    exists gss, Forall2 AutoDrop.inner_calls [AutoDrop.AdAllocate 1] gss /\ concat gss = [GmAllocate 1] /\
      trace gm_step (concat gss) (AutoDrop.store (AutoDrop.ad_init 0 g0).1, [])
                                 (AutoDrop.store w, [AutoDrop.inner h]).
Proof.
  destruct (AutoDrop.allocate ad_start 1) as [[w h]|] eqn:E; [|vm_compute in E; discriminate].
  assert (Htr : trace AutoDrop.ad_lstep [AutoDrop.AdAllocate 1] (AutoDrop.ad_init 0 g0) (w, [h])).
  { change (AutoDrop.ad_init 0 g0) with (ad_start, @nil AHandle).
    econstructor; [apply (AutoDrop.step_allocate _ [] 1); [reflexivity|exact E]|constructor]. }
  destruct (AutoDrop.ad_refines_inner _ _ _ Htr) as (gss & Hf & Ht).
  exists w, h. split_and!; [reflexivity|exact Htr|]. exists gss. split_and!; [exact Hf| |exact Ht].
  apply Forall2_cons_inv_l in Hf as (gs & gss' & Hc & Hf' & ->).
  apply Forall2_nil_inv_l in Hf' as ->. simpl in Hc. subst gs. reflexivity.
Defined.

End AutoDropRuns.
