(* ===== verification/AutoDropSimple.v ===== *)
(** * [AutoDropping<SimpleGpuMemory>] does not leak

    With [SimpleGpuMemory] inside, every allocation the store holds is
    named by the inner index of a handle the program still holds, for as
    long as the [AutoDropping] is alive ([no_leak]).  The clone bug does
    not break this: a clone's drop frees too early, never too late.  So
    when the program drops every handle it holds ([drop_all], the end of
    their scopes), every drop succeeds, and the store ends with no live
    allocation and [size() == 0].

    The first part proves, for each method of [Simple], which keys can be
    live after the call ([live]); the second part lifts this to the steps
    of [AutoDrop.ad_step]. *)

From S2P Require Import Prelude Range FreeList SlotMap Gpu Simple SimpleProps SimpleRuns SimpleInv AutoDrop.
Import FreeList SlotMap Gpu Simple SimpleProps SimpleInv.

Module AutoDropSimple.

(** A key is live when the slotmap maps it to a range. *)
Definition live (s : SimpleGpuMemory) (k : AddressId) : Prop :=
  is_Some (SlotMap.get (used_ranges s) k).

Section WithElemSize.
Variable elem_size : nat.

#[local] Instance simple_inner : GpuMemory SimpleGpuMemory AddressId Strategy :=
  simple_gpu_memory elem_size.

(** The program's state: the [AutoDropping] and the handles it holds. *)
Notation State := (AutoDrop.World SimpleGpuMemory * list (AutoDrop.AutoDroppingAddressId AddressId))%type.

(** The size invariant holds of the store and, while the [AutoDropping]
    is alive, every live key is the inner index of a held handle. *)
Definition no_leak (st : State) : Prop :=
  count_inv elem_size (AutoDrop.store st.1) /\
  (AutoDrop.store_alive st.1 = true -> forall k, live (AutoDrop.store st.1) k ->
     exists h, In h st.2 /\ AutoDrop.inner h = k).

(** The end of the scope of every handle the program holds, in order. *)
Fixpoint drop_all (w : AutoDrop.World SimpleGpuMemory)
    (hs : list (AutoDrop.AutoDroppingAddressId AddressId)) : Res (AutoDrop.World SimpleGpuMemory) :=
  match hs with
  | [] => Ok w
  | h :: hs' => w1 <- AutoDrop.drop_id w h ;; drop_all w1 hs'
  end.

Hypothesis elem_size_pos : elem_size <> 0.

(** ** The live keys after each method of [Simple] *)

Lemma allocate_keys s n s' k :
  SlotMap.wf (used_ranges s) -> allocate elem_size s n = Ok (s', k) ->
  forall k0, live s' k0 -> k0 = k \/ live s k0.
Proof.
  intros Hwf Ha k0 Hl. destruct (decide (k0 = k)) as [->|Hne]; [by left|right].
  unfold allocate in Ha.
  destruct (usize_mul _ _); [|discriminate]. cbn [res_bind] in Ha.
  destruct (take_range _ _ _) as [[[d ar] r]|]; [|discriminate]. cbn [res_bind] in Ha.
  destruct (usize_add _ _); [|discriminate]. cbn [res_bind] in Ha.
  destruct (insert _ _) as [[sm' k']|] eqn:Hins; [|discriminate]. cbn [res_bind] in Ha.
  injection Ha as <- <-. unfold live in *. simpl in Hl.
  by rewrite (insert_other _ _ _ _ _ Hwf Hins Hne) in Hl.
Qed.

Lemma free_keys s k s' :
  free elem_size s k = Ok s' -> forall k0, live s' k0 -> k0 <> k /\ live s k0.
Proof.
  unfold free, live. intros Hf k0 Hl.
  destruct (remove (used_ranges s) k) as [used' [r|]] eqn:Hrem.
  - destruct (usize_div _ _); [|discriminate]. cbn [res_bind] in Hf.
    destruct (usize_sub _ _); [|discriminate]. cbn [res_bind] in Hf.
    injection Hf as <-. simpl in Hl. destruct (remove_some _ _ _ _ Hrem) as (_ & Hk & Hother).
    destruct (decide (k0 = k)) as [->|Hne]; [rewrite Hk in Hl; by destruct Hl|].
    by rewrite <- Hother.
  - injection Hf as <-. simpl in Hl. destruct (remove_none _ _ _ Hrem) as [_ Hk].
    split; [|done]. intros ->. rewrite Hk in Hl. by destruct Hl.
Qed.

Lemma resize_keys s k n s' k' :
  SlotMap.wf (used_ranges s) -> resize elem_size s k n = Ok (s', k') ->
  forall k0, live s' k0 -> k0 = k' \/ (k0 <> k /\ live s k0).
Proof.
  intros Hwf Hr k0 Hl. unfold resize in Hr.
  destruct (usize_mul _ _) as [size|]; [|discriminate]. cbn [res_bind] in Hr.
  destruct (index _ _) as [r|]; [|discriminate]. cbn [res_bind] in Hr.
  destruct (Nat.compare (len r) size).
  - injection Hr as <- <-. destruct (decide (k0 = k)); [by left|by right].
  - destruct (free elem_size s k) as [s1|] eqn:Hf; [|discriminate]. cbn [res_bind] in Hr.
    destruct (allocate_keys _ _ _ _ (free_wf _ _ _ _ Hwf Hf) Hr k0 Hl) as [?|Hl1]; [by left|].
    right. by apply (free_keys _ _ _ Hf).
  - repeat (destruct (usize_sub _ _); [|discriminate]; cbn [res_bind] in Hr).
    destruct (usize_div _ _); [|discriminate]. cbn [res_bind] in Hr.
    repeat (destruct (usize_sub _ _); [|discriminate]; cbn [res_bind] in Hr).
    destruct (index_set _ _ _) as [used'|] eqn:Hset; [|discriminate]. cbn [res_bind] in Hr.
    injection Hr as <- <-. destruct (decide (k0 = k)) as [->|Hne]; [by left|right].
    unfold live in *. simpl in Hl. destruct (index_set_spec _ _ _ _ Hset) as (_ & _ & Hother).
    by rewrite Hother in Hl.
Qed.

(** [fix_sequence], [sort], [upload], [optimize] and [get] make no key
    live. *)
Lemma fix_sequence_loop_keys rs used d used' d' :
  fix_sequence_loop rs used d = Ok (used', d') ->
  forall k0, is_Some (SlotMap.get used' k0) -> is_Some (SlotMap.get used k0).
Proof.
  revert used d. induction rs as [|r rs IH]; simpl; intros used d H k0 Hl.
  - by injection H as <- _.
  - destruct (values_try_map _ used) as [u1|] eqn:Hv; [|discriminate]. cbn [res_bind] in H.
    destruct (vec_drain _ _ _) as [d1|]; [|discriminate]. cbn [res_bind] in H.
    pose proof (IH _ _ H k0 Hl) as Hl1.
    destruct (SlotMap.get used k0) eqn:E; [done|].
    by rewrite (proj1 (values_try_map_get _ _ _ k0 Hv) E) in Hl1.
Qed.

Lemma sort_loop_keys d sorted used nd used' nd' :
  sort_loop d sorted used nd = Ok (used', nd') ->
  forall k0, is_Some (SlotMap.get used' k0) -> is_Some (SlotMap.get used k0).
Proof.
  revert used nd. induction sorted as [|[key r] sorted IH]; simpl; intros used nd H k0 Hl.
  - by injection H as <- _.
  - destruct (slice_range _ _ _); [|discriminate]. cbn [res_bind] in H.
    destruct (index_set _ _ _) as [u1|] eqn:Hset; [|discriminate]. cbn [res_bind] in H.
    pose proof (IH _ _ H k0 Hl) as Hl1.
    destruct (index_set_spec _ _ _ _ Hset) as ([o Ho] & _ & Hother).
    destruct (decide (k0 = key)) as [->|Hne]; [by rewrite Ho|by rewrite <- Hother].
Qed.

Lemma fix_sequence_keys s s' :
  fix_sequence s = Ok s' -> forall k0, live s' k0 -> live s k0.
Proof.
  unfold fix_sequence. destruct (fix_sequence_loop _ _ _) as [[u d]|] eqn:E; [|discriminate].
  cbn [res_bind]. intros H. injection H as <-. apply (fix_sequence_loop_keys _ _ _ _ _ E).
Qed.

Lemma upload_keys s g s' g' : upload s g = Ok (s', g') -> forall k0, live s' k0 -> live s k0.
Proof.
  unfold upload. destruct (negb (mutated s)); [intros H; by injection H as <- _|].
  destruct (fix_sequence s) as [s1|] eqn:Hf; [|discriminate]. cbn [res_bind].
  destruct (upload_or_resize _ _ _). intros H. injection H as <- _.
  apply (fix_sequence_keys _ _ Hf).
Qed.

Lemma optimize_keys s st g s' g' :
  optimize elem_size s st g = Ok (s', g') -> forall k0, live s' k0 -> live s k0.
Proof.
  unfold optimize. destruct (size_ _ _); [|discriminate]. cbn [res_bind].
  assert (Hsort : forall desc s1, sort elem_size s desc = Ok s1 -> forall k0, live s1 k0 -> live s k0).
  { intros desc s1. unfold sort. destruct (size_ _ _); [|discriminate]. cbn [res_bind].
    destruct (sort_loop _ _ _ _) as [[u d]|] eqn:E; [|discriminate]. cbn [res_bind].
    intros H. injection H as <-. apply (sort_loop_keys _ _ _ _ _ _ E). }
  destruct st.
  - destruct (fix_sequence s) as [s1|] eqn:Hf; [|discriminate]. cbn [res_bind].
    destruct (create_buffer_init _ _ _). intros H. injection H as <- _.
    apply (fix_sequence_keys _ _ Hf).
  - destruct (sort _ s true) as [s1|] eqn:Hs; [|discriminate]. cbn [res_bind].
    intros H. injection H as <- _. apply (Hsort _ _ Hs).
  - destruct (sort _ s false) as [s1|] eqn:Hs; [|discriminate]. cbn [res_bind].
    intros H. injection H as <- _. apply (Hsort _ _ Hs).
Qed.

(** With the size invariant, [free] never panics. *)
Lemma free_ok s k : count_inv elem_size s -> exists s', free elem_size s k = Ok s'.
Proof.
  intros (Hwf & Hmod & Hsum). unfold free.
  destruct (remove (used_ranges s) k) as [u [r|]] eqn:Hrem; [|eauto].
  rewrite usize_div_ok by done. cbn [res_bind].
  rewrite usize_sub_ok; [eauto|]. rewrite Hsum, (occ_sum_remove _ _ _ _ _ Hrem).
  unfold elems. lia.
Qed.

(** ** The invariant on the steps of a program *)

Lemma held_other (hs1 : list (AutoDrop.AutoDroppingAddressId AddressId)) h hs2 h' :
  In h' (hs1 ++ h :: hs2) -> AutoDrop.inner h' <> AutoDrop.inner h -> In h' (hs1 ++ hs2).
Proof. rewrite !in_app_iff. simpl. intros [?|[<-|?]] Hne; tauto. Qed.

Lemma no_leak_init usages g : no_leak (AutoDrop.ad_init usages g).
Proof.
  pose proof (count_inv_new elem_size usages g) as Hc.
  assert (Hn : forall k, ~ live (Simple.new elem_size usages g).2 k).
  { intros k. unfold live, Simple.new. destruct (create_buffer _ _ _). simpl. rewrite get_new.
    by intros []. }
  unfold AutoDrop.ad_init, AutoDrop.new. change gm_new with (Simple.new elem_size).
  revert Hc Hn. destruct (Simple.new elem_size usages g) as [g' m]. simpl. intros Hc Hn.
  split; [done|]. intros _ k Hl. by destruct (Hn k).
Qed.

Lemma no_leak_drop w hs1 h hs2 w' :
  AutoDrop.tokens_inv (w, hs1 ++ h :: hs2) -> no_leak (w, hs1 ++ h :: hs2) ->
  AutoDrop.drop_id w h = Ok w' -> no_leak (w', hs1 ++ hs2).
Proof.
  intros Htok [Hc Hheld] Hd. destruct (AutoDrop.store_alive w) eqn:Ha.
  - rewrite (AutoDrop.tokens_inv_drop_frees _ _ _ Htok) in Hd by (rewrite ?in_app_iff; simpl; tauto).
    simpl in Hd. destruct (free elem_size (AutoDrop.store w) (AutoDrop.inner h)) as [m|] eqn:Hf;
      [|discriminate].
    injection Hd as <-. split; simpl; [by apply (free_count_inv _ elem_size_pos _ _ _ Hc Hf)|].
    intros _ k0 Hl. destruct (free_keys _ _ _ Hf k0 Hl) as [Hne Hl0].
    destruct (Hheld Ha k0 Hl0) as (h' & Hin & <-).
    exists h'. split; [|done]. by apply (held_other _ h).
  - destruct (AutoDrop.drop_id_dead _ _ _ Hd) as [Ha' Hs]. split; simpl; [by rewrite Hs|].
    by rewrite Ha', Ha.
Qed.

Lemma no_leak_step st st' :
  AutoDrop.tokens_inv st -> no_leak st -> AutoDrop.ad_step st st' -> no_leak st'.
Proof.
  intros Htok Hinv [a Hstep]. destruct Hinv as [Hc Hheld]. destruct Hstep as
    [w hs count w' h _ Ha | w hs h w' h' Hin Hcl | w hs1 h hs2 w' Hd | w hs1 h hs2 w' _ Hf
    | w hs1 h hs2 n w' h' _ Hr | w hs h w' v _ _ Hg | w hs g w' g' _ Hu
    | w hs st g w' g' _ Ho | w hs]; simpl in *.
  - unfold AutoDrop.allocate in Ha. simpl in Ha.
    destruct (allocate elem_size (AutoDrop.store w) count) as [[m k]|] eqn:E; [|discriminate].
    simpl in Ha. injection Ha as <- <-. simpl.
    split; [by apply (allocate_count_inv _ elem_size_pos _ _ _ _ Hc E)|].
    intros Hal k0 Hl. destruct (allocate_keys _ _ _ _ (proj1 Hc) E k0 Hl) as [->|Hl0].
    + eexists. split; [by left|done].
    + destruct (Hheld Hal k0 Hl0) as (h' & ? & ?). exists h'. split; [by right|done].
  - unfold AutoDrop.clone_id in Hcl. injection Hcl as <- <-. simpl.
    split; [done|]. intros Hal k0 Hl. destruct (Hheld Hal k0 Hl) as (h1 & ? & ?).
    exists h1. split; [by right|done].
  - by apply (no_leak_drop w hs1 h hs2 w').
  - unfold AutoDrop.free in Hf. eapply no_leak_drop; [|split|exact Hf]; [|done|done].
    by apply (AutoDrop.tokens_inv_same w).
  - unfold AutoDrop.resize in Hr. simpl in Hr.
    destruct (resize elem_size (AutoDrop.store w) (AutoDrop.inner h) n) as [[m k']|] eqn:E;
      [|discriminate].
    simpl in Hr. injection Hr as <- <-. simpl.
    split; [by apply (resize_count_inv _ elem_size_pos _ _ _ _ _ Hc E)|].
    intros Hal k0 Hl. destruct (resize_keys _ _ _ _ _ (proj1 Hc) E k0 Hl) as [->|[Hne Hl0]].
    + eexists. split; [simpl; rewrite in_app_iff; right; by left|done].
    + destruct (Hheld Hal k0 Hl0) as (h1 & Hin & <-). exists h1. split; [|done].
      apply held_other in Hin; [|done]. simpl. rewrite in_app_iff in *. simpl. tauto.
  - unfold AutoDrop.get in Hg. simpl in Hg.
    destruct (Simple.get elem_size (AutoDrop.store w) (AutoDrop.inner h)) as [[m b]|] eqn:E;
      [|discriminate].
    simpl in Hg. injection Hg as <- <-. simpl.
    destruct (get_inv _ _ _ _ _ E) as (_ & _ & _ & _ & _ & _ & ->). done.
  - unfold AutoDrop.upload in Hu. simpl in Hu.
    destruct (upload (AutoDrop.store w) g) as [[m g1]|] eqn:E; [|discriminate].
    simpl in Hu. injection Hu as <- <-. simpl.
    split; [by apply (upload_count_inv _ _ _ _ _ Hc E)|].
    intros Hal k0 Hl. exact (Hheld Hal k0 (upload_keys _ _ _ _ E k0 Hl)).
  - unfold AutoDrop.optimize in Ho. simpl in Ho.
    destruct (optimize elem_size (AutoDrop.store w) st g) as [[m g1]|] eqn:E; [|discriminate].
    simpl in Ho. injection Ho as <- <-. simpl.
    split; [by apply (optimize_count_inv _ elem_size_pos _ _ _ _ _ Hc E)|].
    intros Hal k0 Hl. exact (Hheld Hal k0 (optimize_keys _ _ _ _ _ E k0 Hl)).
  - split; [done|]. discriminate.
Qed.

Lemma no_leak_reachable usages g st :
  star AutoDrop.ad_step (AutoDrop.ad_init usages g) st ->
  AutoDrop.tokens_inv st /\ no_leak st.
Proof.
  apply (star_invariant _ (fun st => AutoDrop.tokens_inv st /\ no_leak st)).
  - intros a b [Ht Hn] Hs. split; [by eapply AutoDrop.tokens_inv_step|by eapply no_leak_step].
  - split; [apply AutoDrop.tokens_inv_init|apply no_leak_init].
Qed.

(** ** Theorem *)

(** C12: [AutoDropping<SimpleGpuMemory>] does not leak.  From every state
    a program reaches while the [AutoDropping] is alive, dropping every
    handle it holds always completes without a panic, and leaves the
    store with no live allocation, [len() == 0] and [size() == 0]. *)
Theorem drop_all_releases usages g w hs :
  star AutoDrop.ad_step (AutoDrop.ad_init usages g) (w, hs) -> AutoDrop.store_alive w = true ->
  exists w', drop_all w hs = Ok w' /\
    star AutoDrop.ad_step (AutoDrop.ad_init usages g) (w', []) /\
    (forall k, SlotMap.get (used_ranges (AutoDrop.store w')) k = None) /\
    AutoDrop.len w' = 0 /\ AutoDrop.size_ elem_size w' = Ok 0.
Proof.
  revert w. induction hs as [|h hs IH]; intros w Hr Ha.
  - destruct (no_leak_reachable _ _ _ Hr) as (_ & (Hwf & _ & Hsum) & Hheld).
    assert (Hnone : forall k, SlotMap.get (used_ranges (AutoDrop.store w)) k = None).
    { intros k. destruct (SlotMap.get _ k) eqn:E; [|done].
      by destruct (Hheld Ha k (mk_is_Some _ _ E)) as (? & [] & _). }
    assert (Hlen : AutoDrop.len w = 0).
    { unfold AutoDrop.len. simpl in Hsum. simpl. unfold len_. rewrite Hsum. by apply occ_sum_no_live. }
    exists w. split_and!; [done|done|done|done|].
    unfold AutoDrop.size_, size. change (gm_len (AutoDrop.store w)) with (AutoDrop.len w).
    by rewrite Hlen.
  - destruct (no_leak_reachable _ _ _ Hr) as (Htok & Hc & _).
    simpl in Hc. destruct (free_ok _ (AutoDrop.inner h) Hc) as [m Hf].
    assert (Hd : AutoDrop.drop_id w h =
                 Ok (AutoDrop.drop_token (AutoDrop.set_store w m) (AutoDrop.refcount h))).
    { rewrite (AutoDrop.tokens_inv_drop_frees _ _ _ Htok); [|by left|done]. simpl. by rewrite Hf. }
    assert (Hr1 : star AutoDrop.ad_step (AutoDrop.ad_init usages g)
                    (AutoDrop.drop_token (AutoDrop.set_store w m) (AutoDrop.refcount h), hs)).
    { eapply star_trans; [exact Hr|]. apply star_one. eexists. exact (AutoDrop.step_drop w [] h hs _ Hd). }
    destruct (IH _ Hr1 Ha) as (w' & Hall & Hrest). exists w'. split; [|done].
    cbn [drop_all]. rewrite Hd. exact Hall.
Qed.
End WithElemSize.

(** The witness: one allocation with 4-byte elements, then its drop. *)
Lemma drop_all_releases_witness :
  4 <> 0 /\ exists w h,
    star (@AutoDrop.ad_step _ _ _ (simple_inner 4)) (@AutoDrop.ad_init _ _ _ (simple_inner 4) 0 (mk_gpu [])) (w, [h]) /\
    AutoDrop.store_alive w = true /\
    exists w', drop_all 4 w [h] = Ok w' /\ @AutoDrop.len _ _ _ (simple_inner 4) w' = 0.
Proof.
  split; [lia|].
  destruct (@AutoDrop.allocate _ _ _ (simple_inner 4) (@AutoDrop.ad_init _ _ _ (simple_inner 4) 0 (mk_gpu [])).1 1)
    as [[w h]|] eqn:E; [|vm_compute in E; discriminate].
  assert (Hr : star (@AutoDrop.ad_step _ _ _ (simple_inner 4)) (@AutoDrop.ad_init _ _ _ (simple_inner 4) 0 (mk_gpu [])) (w, [h])).
  { apply star_one. eexists. apply (AutoDrop.step_allocate _ [] 1); [reflexivity|exact E]. }
  assert (Ha : AutoDrop.store_alive w = true) by (vm_compute in E; by injection E as <- <-).
  exists w, h. split_and!; [exact Hr|exact Ha|].
  destruct (drop_all_releases 4 ltac:(lia) 0 (mk_gpu []) w [h] Hr Ha) as (w' & Hall & _ & _ & Hlen & _).
  exists w'. split; [exact Hall|exact Hlen].
Defined.

End AutoDropSimple.
